(** * Credit approval service: eligibility, scoring and loan issuance

    A shallow embedding of [api/serializers.py], [api/models.py] and
    [api/views.py]: the credit score, the EMI calculator, the eligibility
    decision, the creation of a loan, the registration of a customer and the
    views that read the ledger, together with the arithmetic they run on.

    Monetary values are Python [decimal.Decimal] numbers evaluated in the
    default context (28 significant digits, ROUND_HALF_EVEN, with
    InvalidOperation, DivisionByZero and Overflow trapped).  A number is a
    signed coefficient and an exponent; the embedding keeps both, since
    [Decimal('1.0')] and [Decimal('1.00')] are different objects.  Two things
    are outside the model: the sign of a zero, and the exponent limits
    Emin/Emax = -/+999999 of the context (so no intermediate value is assumed
    to reach 10^999999).  The rows of the two tables hold what their
    [DecimalField] columns keep; the database backend, which the settings
    choose, is a parameter of the operations that write a loan. *)

From Stdlib Require Import ZArith List Bool Lia String.
From Stdlib Require Import Floats.SpecFloat.
From Stdlib Require Import Reals Lra.
Import ListNotations.
Local Open Scope Z_scope.

(** ** Exceptions *)

Inductive exn : Type :=
| DivisionByZero      (* decimal.DivisionByZero *)
| InvalidOperation    (* decimal.InvalidOperation *)
| ValueError          (* datetime: year out of range *)
| OverflowError       (* datetime: year beyond a C int *)
| DataError.          (* django.db: numeric field overflow *)

Inductive outcome (A : Type) : Type :=
| Ok (a : A)
| Raise (e : exn).
Arguments Ok {A} a.
Arguments Raise {A} e.

Definition bind {A B : Type} (c : outcome A) (k : A -> outcome B) : outcome B :=
  match c with
  | Ok a => k a
  | Raise e => Raise e
  end.

Notation "x <- c ;; k" := (bind c (fun x => k))
  (at level 61, c at next level, right associativity).

(** ** Decimal numbers in the default context *)

Module Decimal.

Record t : Type := mk { coef : Z; expo : Z }.

(** [getcontext().prec] *)
Definition prec : Z := 28.

(** [len(str(abs(c)))]: the number of decimal digits, 1 for zero. *)
Fixpoint ndigits_aux (fuel : nat) (c : Z) : Z :=
  match fuel with
  | O => 1
  | S k => if c <? 10 then 1 else 1 + ndigits_aux k (c / 10)
  end.

Definition ndigits (c : Z) : Z :=
  ndigits_aux (Z.to_nat (Z.log2 (Z.abs c))) (Z.abs c).

(** The quotient [c / p] for [p > 0], rounded to the nearest integer, ties to
    the even one; as [Decimal._round_half_even], the magnitude is rounded and
    the sign put back. *)
Definition round_half_even (c p : Z) : Z :=
  let a := Z.abs c in
  let q := a / p in
  let r := a mod p in
  Z.sgn c *
  (if 2 * r <? p then q
   else if p <? 2 * r then q + 1
   else if Z.even q then q else q + 1).

(** [Decimal._fix] at precision [p]: a coefficient of more than [p] digits is
    rounded to [p] digits; a carry out of the top digit drops one more. *)
Definition fix_ (p : Z) (d : t) : t :=
  let n := ndigits (coef d) in
  if n <=? p then d
  else
    let k := n - p in
    let c := round_half_even (coef d) (10 ^ k) in
    if Z.abs c =? 10 ^ p then mk (c / 10) (expo d + k + 1)
    else mk c (expo d + k).

Definition of_Z (n : Z) : t := mk n 0.

(** The coefficient of [d] written at the exponent [s <= expo d]. *)
Definition at_scale (s : Z) (d : t) : Z := coef d * 10 ^ (expo d - s).

(** The exact sum, as the database computes [Sum(...)] over a decimal column. *)
Definition add_exact (x y : t) : t :=
  let e := Z.min (expo x) (expo y) in
  mk (at_scale e x + at_scale e y) e.

Definition add_prec (p : Z) (x y : t) : t := fix_ p (add_exact x y).

Definition opp (x : t) : t := mk (- coef x) (expo x).

Definition sub_prec (p : Z) (x y : t) : t := add_prec p x (opp y).

Definition mul_prec (p : Z) (x y : t) : t :=
  fix_ p (mk (coef x * coef y) (expo x + expo y)).

(** The loop of [Decimal.__truediv__] that brings an exact quotient as close
    to the ideal exponent as its trailing zeros allow. *)
Fixpoint strip_zeros (fuel : nat) (q e ideal : Z) : Z * Z :=
  match fuel with
  | O => (q, e)
  | S k =>
      if (e <? ideal) && (q mod 10 =? 0)
      then strip_zeros k (q / 10) (e + 1) ideal
      else (q, e)
  end.

(** [Decimal.__truediv__]: the quotient is computed to [p + 1] digits; a
    nonzero remainder is remembered in the last digit so that the rounding of
    [_fix] is that of the exact quotient. *)
Definition div_prec (p : Z) (x y : t) : outcome t :=
  if coef y =? 0 then
    if coef x =? 0 then Raise InvalidOperation else Raise DivisionByZero
  else if coef x =? 0 then Ok (mk 0 (expo x - expo y))
  else
    let a := Z.abs (coef x) in
    let b := Z.abs (coef y) in
    let sg := Z.sgn (coef x) * Z.sgn (coef y) in
    let shift := ndigits b - ndigits a + p + 1 in
    let e := expo x - expo y - shift in
    let num := if 0 <=? shift then a * 10 ^ shift else a in
    let den := if 0 <=? shift then b else b * 10 ^ (- shift) in
    let q := num / den in
    let r := num mod den in
    if r =? 0 then
      let '(q', e') := strip_zeros (Z.to_nat (expo x - expo y - e)) q e (expo x - expo y) in
      Ok (fix_ p (mk (sg * q') e'))
    else
      let q' := if q mod 5 =? 0 then q + 1 else q in
      Ok (fix_ p (mk (sg * q') e)).

(** The integer power of libmpdec ([_mpd_qpow_uint]): left-to-right binary
    exponentiation, every product rounded at the working precision [w]. *)
Fixpoint pow_uint (w : Z) (base : t) (n : positive) : t :=
  match n with
  | xH => base
  | xO n' => let r := pow_uint w base n' in mul_prec w r r
  | xI n' => let r := pow_uint w base n' in mul_prec w (mul_prec w r r) base
  end.

(** [Decimal.__pow__] with an integer exponent, as CPython's [_decimal]
    computes it: working precision [prec + len(str(n)) + 2] (one more digit
    and an inverted base for a negative exponent), then a final rounding to
    the context precision.  [0 ** n] for [n < 0] is an infinity in Python,
    on which the division that follows in [calculate_emi] raises
    InvalidOperation; it is raised here. *)
Definition pow (x : t) (n : Z) : outcome t :=
  if coef x =? 0 then
    if 0 <? n then Ok (mk 0 0) else Raise InvalidOperation
  else
    let w := prec + ndigits n + 2 in
    match n with
    | Z0 => Ok (mk 1 0)
    | Zpos k => Ok (fix_ prec (pow_uint w x k))
    | Zneg k =>
        inv <- div_prec (w + 1) (of_Z 1) x ;;
        Ok (fix_ prec (pow_uint (w + 1) inv k))
    end.

(** [Decimal.quantize(Decimal('0.01'))] for a target exponent [e]:
    InvalidOperation when the result would need more than [prec] digits. *)
Definition quantize (d : t) (e : Z) : outcome t :=
  if coef d =? 0 then Ok (mk 0 e)
  else if prec <? expo d + ndigits (coef d) - e then Raise InvalidOperation
  else
    let c := if e <=? expo d then coef d * 10 ^ (expo d - e)
             else round_half_even (coef d) (10 ^ (e - expo d)) in
    if prec <? ndigits c then Raise InvalidOperation else Ok (mk c e).

(** Comparison is by value. *)
Definition compare (x y : t) : comparison :=
  let e := Z.min (expo x) (expo y) in
  at_scale e x ?= at_scale e y.

Definition eqb (x y : t) : bool :=
  match compare x y with Eq => true | _ => false end.
Definition ltb (x y : t) : bool :=
  match compare x y with Lt => true | _ => false end.
Definition gtb (x y : t) : bool := ltb y x.
Definition leb (x y : t) : bool := negb (ltb y x).
Definition le (x y : t) : Prop := leb x y = true.

Definition add := add_prec prec.
Definition sub := sub_prec prec.
Definition mul := mul_prec prec.
Definition div := div_prec prec.

End Decimal.

Definition decimal : Type := Decimal.t.

(** A decimal literal with two places: [cents 1200] is [Decimal('12.00')]. *)
Definition cents (c : Z) : decimal := Decimal.mk c (-2).

(** Truth value of a Decimal in a condition ([if d and ...]): nonzero. *)
Definition truthy (d : decimal) : bool := negb (Decimal.coef d =? 0).

(** ** Dates *)

Record date : Type := mkDate { year : Z; month : Z; day : Z }.

Definition isleap (y : Z) : bool :=
  (y mod 4 =? 0) && (negb (y mod 100 =? 0) || (y mod 400 =? 0)).

(** [calendar.monthrange(y, m)[1]] *)
Definition days_in_month (y m : Z) : Z :=
  if m =? 2 then (if isleap y then 29 else 28)
  else if (m =? 4) || (m =? 6) || (m =? 9) || (m =? 11) then 30
  else 31.

(** [d + relativedelta(months=n)] of dateutil: [n] is split into whole years
    and a remainder of the same sign, the month is moved and wrapped once, the
    day is cut to the length of the month reached; [date.replace] refuses a
    year outside 1..9999 with ValueError, and a year that does not fit a C
    int with OverflowError. *)
Definition add_months (d : date) (n : Z) : outcome date :=
  let s := Z.sgn n in
  let years := s * (Z.abs n / 12) in
  let months := s * (Z.abs n mod 12) in
  let y0 := year d + years in
  let m0 := month d + months in
  let '(y, m) :=
    if months =? 0 then (y0, month d)
    else if 12 <? m0 then (y0 + 1, m0 - 12)
    else if m0 <? 1 then (y0 - 1, m0 + 12)
    else (y0, m0) in
  if (1 <=? y) && (y <=? 9999)
  then Ok (mkDate y m (Z.min (days_in_month y m) (day d)))
  else if (-2147483648 <=? y) && (y <=? 2147483647) then Raise ValueError
  else Raise OverflowError.

(** ** The models of [api/models.py] *)

Record Customer : Type := mkCustomer {
  customer_id : Z;
  first_name : string;
  last_name : string;
  phone_number : string;
  monthly_salary : decimal;
  approved_limit : option decimal;   (* the code also tests [is None] *)
  current_debt : decimal;
  age : Z
}.

Record Loan : Type := mkLoan {
  loan_id : Z;
  customer : Z;                      (* foreign key: [customer_id] of the owner *)
  loan_amount : decimal;
  tenure : Z;
  interest_rate : decimal;
  monthly_repayment : decimal;
  emis_paid_on_time : Z;
  start_date : date;
  end_date : date;
  loan_status : string
}.

(** The two tables, and the next value of the [loan_id] AutoField. *)
Record Ledger : Type := mkLedger {
  customers : list Customer;
  loans : list Loan;
  loan_seq : Z
}.

(** [Loan.objects.filter(customer=c)] *)
Definition loans_of (c : Customer) (tbl : list Loan) : list Loan :=
  filter (fun l => customer l =? customer_id c) tbl.

(** [.filter(loan_status='active')] *)
Definition active (ls : list Loan) : list Loan :=
  filter (fun l => String.eqb (loan_status l) "active"%string) ls.

(** [.aggregate(Sum(field))]: SQL SUM, NULL over no rows. *)
Definition sum_int (f : Loan -> Z) (ls : list Loan) : option Z :=
  match ls with
  | [] => None
  | l :: rest => Some (fold_left (fun acc x => acc + f x) rest (f l))
  end.

Definition sum_dec (f : Loan -> decimal) (ls : list Loan) : option decimal :=
  match ls with
  | [] => None
  | l :: rest => Some (fold_left (fun acc x => Decimal.add_exact acc (f x)) rest (f l))
  end.

(** [x if x is not None else d] *)
Definition or_default {A : Type} (o : option A) (d : A) : A :=
  match o with Some x => x | None => d end.

(** [Customer.objects.get(customer_id=...)] in [validate]; [None] stands for
    the ValidationError "Customer not found." *)
Definition validate (db : Ledger) (cid : Z) : option Customer :=
  find (fun c => customer_id c =? cid) (customers db).

(** [customer.save()]: the row with this primary key takes the object's fields. *)
Definition save (c : Customer) (tbl : list Customer) : list Customer :=
  map (fun r => if customer_id r =? customer_id c then c else r) tbl.

(** ** Writing a [DecimalField] column *)

(** The database backend is chosen in the settings, which are not among the
    sources; it is a parameter.  Django writes a decimal column in one of
    two ways: [BaseDatabaseOperations.adapt_decimalfield_value] quantizes
    the value to the places of the column in a context of [max_digits]
    digits ([format_number]: half-even, InvalidOperation when the digits do
    not fit), and the PostgreSQL backend hands the value to the database,
    whose [numeric(max_digits, decimal_places)] rounds halves away from zero
    and refuses a value that does not fit (DataError). *)
Inductive Backend : Type :=
| BaseOperations
| PostgreSQL.

(** The quotient [c / p] to the nearest integer, halves away from zero. *)
Definition round_half_away (c p : Z) : Z :=
  Z.sgn c * ((2 * Z.abs c + p) / (2 * p)).

(** What a column raises on a value of too many digits. *)
Definition column_error (backend : Backend) : exn :=
  match backend with
  | BaseOperations => InvalidOperation
  | PostgreSQL => DataError
  end.

(** The value a column [DecimalField(max_digits, decimal_places)] holds after
    [value] has been written to it. *)
Definition to_column (backend : Backend) (max_digits decimal_places : Z)
    (value : decimal) : outcome decimal :=
  let e := - decimal_places in
  let c :=
    if e <=? Decimal.expo value
    then Decimal.coef value * 10 ^ (Decimal.expo value - e)
    else match backend with
         | BaseOperations =>
             Decimal.round_half_even (Decimal.coef value) (10 ^ (e - Decimal.expo value))
         | PostgreSQL =>
             round_half_away (Decimal.coef value) (10 ^ (e - Decimal.expo value))
         end in
  if 10 ^ max_digits <=? Z.abs c
  then Raise (column_error backend)
  else Ok (Decimal.mk c e).

(** ** Python floats, for the on-time ratio *)

Definition float_of_Z (n : Z) : spec_float := binary_normalize 53 1024 n 0 false.
Definition fdiv : spec_float -> spec_float -> spec_float := SFdiv 53 1024.
Definition fmul : spec_float -> spec_float -> spec_float := SFmul 53 1024.

(** The dictionary returned by [get_eligibility_result]. *)
Record EligibilityResult : Type := mkResult {
  res_customer_id : Z;
  approval : bool;
  res_interest_rate : decimal;
  corrected_interest_rate : decimal;
  res_tenure : Z;
  monthly_installment : decimal
}.

(** The dictionary returned by [create]. *)
Record LoanResponse : Type := mkResponse {
  resp_loan_id : option Z;
  resp_customer_id : Z;
  loan_approved : bool;
  message : string;
  resp_monthly_installment : decimal
}.

(** ** [LoanEligibilityCheckSerializer] *)

Section Serializer.

(** [self.customer], and the [Loan] table the queries run on. *)
Variable self_customer : Customer.
Variable loan_table : list Loan.

(** [customer.approved_limit and customer.approved_limit > 0] *)
Definition limit_is_positive : bool :=
  match approved_limit self_customer with
  | None => false
  | Some l => truthy l && Decimal.gtb l (Decimal.of_Z 0)
  end.

(** [calculate_credit_score]; [current_year] is [timezone.now().year]. *)
Definition calculate_credit_score (current_year : Z) : Z :=
  let credit_score := 100 in
  let all_loans := loans_of self_customer loan_table in
  let active_loans := active all_loans in
  (* Criteria 1 *)
  let total_emis_paid := or_default (sum_int emis_paid_on_time all_loans) 0 in
  let total_tenure := or_default (sum_int tenure all_loans) 0 in
  let credit_score :=
    if 0 <? total_tenure then
      let on_time_percentage :=
        fmul (fdiv (float_of_Z total_emis_paid) (float_of_Z total_tenure)) (float_of_Z 100) in
      if SFltb on_time_percentage (float_of_Z 50) then credit_score - 10
      else if SFltb on_time_percentage (float_of_Z 70) then credit_score - 5
      else credit_score
    else credit_score in
  (* Criteria 2 *)
  let num_past_loans := Z.of_nat (List.length all_loans) in
  let credit_score :=
    if 5 <? num_past_loans then credit_score - 10
    else if 2 <? num_past_loans then credit_score - 5
    else credit_score in
  (* Criteria 3 *)
  let loans_current_year :=
    Z.of_nat (List.length (filter (fun l => year (start_date l) =? current_year) all_loans)) in
  let credit_score :=
    if 2 <? loans_current_year then credit_score - 8 else credit_score in
  (* Criteria 4 *)
  let total_loan_amount_approved := or_default (sum_dec loan_amount all_loans) (cents 0) in
  let credit_score :=
    match approved_limit self_customer with
    | Some l =>
        if limit_is_positive then
          if Decimal.gtb total_loan_amount_approved (Decimal.mul l (Decimal.mk 15 (-1)))
          then credit_score - 15 else credit_score
        else credit_score
    | None => credit_score
    end in
  (* Criteria 5 *)
  let total_current_loan_amount := or_default (sum_dec loan_amount active_loans) (cents 0) in
  let credit_score :=
    match approved_limit self_customer with
    | Some l =>
        if limit_is_positive && Decimal.gtb total_current_loan_amount l
        then 0 else credit_score
    | None => credit_score
    end in
  Z.max 0 credit_score.

(** [calculate_emi] *)
Definition calculate_emi (loan_amount interest_rate : decimal) (tenure : Z)
  : outcome decimal :=
  if Decimal.eqb interest_rate (Decimal.of_Z 0) then
    Decimal.div loan_amount (Decimal.of_Z tenure)
  else
    per_month <- Decimal.div interest_rate (Decimal.of_Z 12) ;;
    monthly_interest_rate <- Decimal.div per_month (Decimal.of_Z 100) ;;
    pow_factor <- Decimal.pow (Decimal.add (Decimal.of_Z 1) monthly_interest_rate) tenure ;;
    let numerator := Decimal.mul (Decimal.mul loan_amount monthly_interest_rate) pow_factor in
    let denominator := Decimal.sub pow_factor (Decimal.of_Z 1) in
    if Decimal.eqb denominator (Decimal.of_Z 0) then
      Decimal.div loan_amount (Decimal.of_Z tenure)
    else
      emi <- Decimal.div numerator denominator ;;
      Decimal.quantize emi (-2).

(** The condition of the rule "if sum of all current EMIs > 50% of monthly
    salary, don't approve any loans" (lines 141-144). *)
Definition total_current_emis : decimal :=
  or_default (sum_dec monthly_repayment (active (loans_of self_customer loan_table)))
             (cents 0).

Definition emis_exceed_half_salary : outcome bool :=
  if truthy (monthly_salary self_customer)
     && Decimal.gtb (monthly_salary self_customer) (Decimal.of_Z 0)
  then half <- Decimal.div (monthly_salary self_customer) (Decimal.of_Z 2) ;;
       Ok (Decimal.gtb total_current_emis half)
  else Ok false.

(** The body of [get_eligibility_result] once [credit_score] is known. *)
Definition eligibility_for_score (credit_score : Z)
    (requested_loan_amount requested_interest_rate : decimal)
    (requested_tenure : Z) : outcome EligibilityResult :=
  let customer := self_customer in
  let result approval corrected installment :=
    mkResult (customer_id customer) approval requested_interest_rate
             corrected requested_tenure installment in
  let monthly_installment := cents 0 in
  over_half <- emis_exceed_half_salary ;;
  if over_half then
    Ok (result false requested_interest_rate monthly_installment)
  else
    (* Approval logic based on credit score *)
    let '(approval, corrected_interest_rate) :=
      if 50 <? credit_score then (true, requested_interest_rate)
      else if (30 <? credit_score) && (credit_score <=? 50) then
        (true, if Decimal.ltb requested_interest_rate (cents 1200)
               then cents 1200 else requested_interest_rate)
      else if (10 <? credit_score) && (credit_score <=? 30) then
        (true, if Decimal.ltb requested_interest_rate (cents 1600)
               then cents 1600 else requested_interest_rate)
      else (false, requested_interest_rate) in
    if approval then
      let without_limit :=
        if Decimal.gtb requested_loan_amount (cents 0)
        then Ok (result false corrected_interest_rate monthly_installment)
        else Ok (result true corrected_interest_rate monthly_installment) in
      match approved_limit customer with
      | None => without_limit
      | Some limit =>
          if Decimal.eqb limit (cents 0) then without_limit
          else if Decimal.gtb requested_loan_amount limit then
            Ok (result false corrected_interest_rate monthly_installment)
          else
            emi <- calculate_emi requested_loan_amount corrected_interest_rate
                                 requested_tenure ;;
            Ok (result true corrected_interest_rate emi)
      end
    else Ok (result false corrected_interest_rate monthly_installment).

(** [get_eligibility_result]: the score is computed afresh on every call. *)
Definition get_eligibility_result (current_year : Z)
    (requested_loan_amount requested_interest_rate : decimal)
    (requested_tenure : Z) : outcome EligibilityResult :=
  eligibility_for_score (calculate_credit_score current_year)
    requested_loan_amount requested_interest_rate requested_tenure.

End Serializer.

(** The part of [create] that follows the eligibility check: [today] is
    [timezone.now().date()]; the insertion and the debt update form one
    transaction, reached only when nothing before it has raised, and undone
    when a column refuses its value.  The rows hold what the columns of
    [api/models.py] keep: [loan_amount], [monthly_repayment] and
    [current_debt] are [DecimalField(12, 2)], [interest_rate] is
    [DecimalField(5, 2)]; the response carries the installment as it was
    computed.  (A tenure that has passed [add_months] fits the integer
    column.) *)
Definition issue (backend : Backend) (today : date) (db : Ledger) (cust : Customer)
    (loan_amount : decimal) (tenure : Z) (eligibility_result : EligibilityResult)
  : outcome (Ledger * LoanResponse) :=
  if approval eligibility_result then
    let start_date := today in
    end_date <- add_months start_date tenure ;;
    monthly_installment <-
      calculate_emi loan_amount (corrected_interest_rate eligibility_result) tenure ;;
    (* Loan.objects.create *)
    amount_column <- to_column backend 12 2 loan_amount ;;
    rate_column <-
      to_column backend 5 2 (corrected_interest_rate eligibility_result) ;;
    repayment_column <- to_column backend 12 2 monthly_installment ;;
    let loan :=
      mkLoan (loan_seq db) (customer_id cust) amount_column tenure
             rate_column repayment_column
             0 start_date end_date "active" in
    (* customer.current_debt += loan_amount; customer.save() *)
    debt_column <-
      to_column backend 12 2 (Decimal.add (current_debt cust) loan_amount) ;;
    let cust' :=
      mkCustomer (customer_id cust) (first_name cust) (last_name cust)
                 (phone_number cust) (monthly_salary cust) (approved_limit cust)
                 debt_column (age cust) in
    Ok (mkLedger (save cust' (customers db)) (loans db ++ [loan]) (loan_seq db + 1),
        mkResponse (Some (loan_id loan)) (customer_id cust) true
                   "Loan approved successfully" monthly_installment)
  else
    Ok (db,
        mkResponse None (customer_id cust) false
                   "Loan not approved based on eligibility criteria" (cents 0)).

(** [create] *)
Definition create (backend : Backend) (today : date) (current_year : Z)
    (db : Ledger) (cust : Customer)
    (loan_amount interest_rate : decimal) (tenure : Z)
  : outcome (Ledger * LoanResponse) :=
  eligibility_result <-
    get_eligibility_result cust (loans db) current_year loan_amount interest_rate tenure ;;
  issue backend today db cust loan_amount tenure eligibility_result.

(** ** [CustomerRegistrationSerializer] *)

(** [round(d)] of a Decimal without [ndigits] ([Decimal.__round__]): the
    nearest integer, ties to even; the precision of the context plays no
    part in it. *)
Definition round_to_int (d : decimal) : Z :=
  if 0 <=? Decimal.expo d then Decimal.coef d * 10 ^ Decimal.expo d
  else Decimal.round_half_even (Decimal.coef d) (10 ^ (- Decimal.expo d)).

(** [validated_data] of a registration: the fields have passed [is_valid];
    [monthly_income] arrives under its source name [monthly_salary]. *)
Record RegistrationData : Type := mkRegistration {
  reg_first_name : string;
  reg_last_name : string;
  reg_age : Z;
  reg_monthly_salary : decimal;
  reg_phone_number : string
}.

Module CustomerRegistrationSerializer.

(** [create]; [pk] is the key the AutoField [customer_id] receives from the
    database.  The row is written with the numbers the object holds (the
    database hands them back with two places, the same values). *)
Definition create (pk : Z) (db : Ledger) (validated_data : RegistrationData)
  : outcome (Ledger * Customer) :=
  let monthly_salary := reg_monthly_salary validated_data in
  let calculated_approved_limit := Decimal.mul (Decimal.of_Z 36) monthly_salary in
  lakhs <- Decimal.div calculated_approved_limit (Decimal.of_Z 100000) ;;
  let approved_limit := Decimal.of_Z (round_to_int lakhs * 100000) in
  let customer :=
    mkCustomer pk (reg_first_name validated_data) (reg_last_name validated_data)
               (reg_phone_number validated_data) monthly_salary
               (Some approved_limit) (cents 0) (reg_age validated_data) in
  Ok (mkLedger (customers db ++ [customer]) (loans db) (loan_seq db), customer).

End CustomerRegistrationSerializer.

(** ** The views of [api/views.py] *)

(** A [Response]: a status with its data, or the status of an error (its
    body, a fixed text, is left out). *)
Inductive Response (A : Type) : Type :=
| Success (status : Z) (data : A)
| Failure (status : Z).
Arguments Success {A} status data.
Arguments Failure {A} status.

(** The request body of [/check-eligibility] and [/create-loan], after the
    field validation of [LoanEligibilityCheckSerializer]. *)
Record LoanRequest : Type := mkRequest {
  req_customer_id : Z;
  req_loan_amount : decimal;
  req_interest_rate : decimal;
  req_tenure : Z
}.

(** The dictionary [RegisterCustomerView.create] answers with. *)
Record RegistrationResponse : Type := mkRegistered {
  rr_customer_id : Z;
  rr_name : string;
  rr_age : Z;
  rr_monthly_income : decimal;
  rr_approved_limit : option decimal;
  rr_phone_number : string
}.

Module RegisterCustomerView.

Definition create (pk : Z) (db : Ledger) (data : RegistrationData)
  : outcome (Ledger * Response RegistrationResponse) :=
  saved <- CustomerRegistrationSerializer.create pk db data ;;
  let '(db', instance) := saved in
  let response_data :=
    mkRegistered (customer_id instance)
                 (first_name instance ++ " " ++ last_name instance)%string
                 (age instance) (monthly_salary instance)
                 (approved_limit instance) (phone_number instance) in
  Ok (db', Success 201 response_data).

End RegisterCustomerView.

Module CheckEligibilityView.

(** [post]: [is_valid] fails with status 400 when [validate] finds no
    customer; an exception of the calculation is not caught. *)
Definition post (current_year : Z) (db : Ledger) (request : LoanRequest)
  : outcome (Response EligibilityResult) :=
  match validate db (req_customer_id request) with
  | None => Ok (Failure 400)
  | Some cust =>
      eligibility_result <-
        get_eligibility_result cust (loans db) current_year
          (req_loan_amount request) (req_interest_rate request) (req_tenure request) ;;
      Ok (Success 200 eligibility_result)
  end.

End CheckEligibilityView.

Module CreateLoanView.

Definition create (backend : Backend) (today : date) (current_year : Z)
    (db : Ledger) (request : LoanRequest)
  : outcome (Ledger * Response LoanResponse) :=
  match validate db (req_customer_id request) with
  | None => Ok (db, Failure 400)
  | Some cust =>
      created <-
        create backend today current_year db cust
          (req_loan_amount request) (req_interest_rate request) (req_tenure request) ;;
      let '(db', response_data) := created in
      let status_code := if loan_approved response_data then 201 else 200 in
      Ok (db', Success status_code response_data)
  end.

End CreateLoanView.

(** [CustomerDetailSerializer] *)
Record CustomerDetail : Type := mkCustomerDetail {
  cd_customer_id : Z;
  cd_first_name : string;
  cd_last_name : string;
  cd_phone_number : string;
  cd_age : Z
}.

(** [LoanDetailSerializer] *)
Record LoanDetail : Type := mkLoanDetail {
  ld_loan_id : Z;
  ld_customer : CustomerDetail;
  ld_loan_amount : decimal;
  ld_interest_rate : decimal;
  ld_monthly_repayment : decimal;
  ld_tenure : Z
}.

Module ViewLoanDetailView.

(** [RetrieveAPIView] on [Loan.objects.all()] with [lookup_field = 'loan_id']:
    the loan of this key or status 404; the nested customer is the row the
    foreign key points to.  [None]: the key points to no row, which the
    foreign key constraint of the database excludes. *)
Definition retrieve (db : Ledger) (id : Z) : option (Response LoanDetail) :=
  match find (fun l => loan_id l =? id) (loans db) with
  | None => Some (Failure 404)
  | Some l =>
      match find (fun c => customer_id c =? customer l) (customers db) with
      | None => None
      | Some c =>
          Some (Success 200
                  (mkLoanDetail (loan_id l)
                     (mkCustomerDetail (customer_id c) (first_name c) (last_name c)
                                       (phone_number c) (age c))
                     (loan_amount l) (interest_rate l) (monthly_repayment l) (tenure l)))
      end
  end.

End ViewLoanDetailView.

(** [CustomerLoanViewSerializer] *)
Record LoanItem : Type := mkLoanItem {
  li_loan_id : Z;
  li_loan_amount : decimal;
  li_interest_rate : decimal;
  li_monthly_repayment : decimal;
  li_repayments_left : Z
}.

Module CustomerLoanViewSerializer.

Definition get_repayments_left (obj : Loan) : Z :=
  Z.max 0 (tenure obj - emis_paid_on_time obj).

Definition to_representation (obj : Loan) : LoanItem :=
  mkLoanItem (loan_id obj) (loan_amount obj) (interest_rate obj)
             (monthly_repayment obj) (get_repayments_left obj).

End CustomerLoanViewSerializer.

Module ViewCustomerLoansView.

(** [get_queryset]: the active loans under this customer id. *)
Definition get_queryset (db : Ledger) (cid : Z) : list Loan :=
  filter (fun l => (customer l =? cid)
                   && String.eqb (loan_status l) "active"%string)
         (loans db).

(** [list]: an empty queryset is answered with 404 when no customer has
    the id, and with an empty list otherwise. *)
Definition list_loans (db : Ledger) (cid : Z) : Response (list LoanItem) :=
  let queryset := get_queryset db cid in
  match queryset with
  | [] =>
      match find (fun c => customer_id c =? cid) (customers db) with
      | None => Failure 404
      | Some _ => Success 200 []
      end
  | _ => Success 200 (map CustomerLoanViewSerializer.to_representation queryset)
  end.

End ViewCustomerLoansView.

(** * The vocabulary of the statements *)

(** The rate a tier leaves: the floor when the requested rate is below it. *)
Definition tier_rate (score : Z) (rate : decimal) : decimal :=
  if 50 <? score then rate
  else if 30 <? score then
    (if Decimal.ltb rate (cents 1200) then cents 1200 else rate)
  else if 10 <? score then
    (if Decimal.ltb rate (cents 1600) then cents 1600 else rate)
  else rate.

(** The limit gate lets the amount through. *)
Definition within_limit (cust : Customer) (amount : decimal) : bool :=
  match approved_limit cust with
  | None => negb (Decimal.gtb amount (cents 0))
  | Some l =>
      if Decimal.eqb l (cents 0) then negb (Decimal.gtb amount (cents 0))
      else negb (Decimal.gtb amount l)
  end.

(** The customer row with its debt replaced. *)
Definition with_debt (cu : Customer) (debt : decimal) : Customer :=
  mkCustomer (customer_id cu) (first_name cu) (last_name cu) (phone_number cu)
             (monthly_salary cu) (approved_limit cu) debt (age cu).

(** The rounding the specification names for the installment: the quotient
    [c / p] to the nearest integer, halves away from zero. *)
Definition spec_round_half_away (c p : Z) : Z :=
  Z.sgn c * ((2 * Z.abs c + p) / (2 * p)).

(** Rounding, seen from the integers: what the operations of [Decimal]
    compute, written on coefficients at a common exponent. *)
Module Rounding.
Import Decimal.

(** [round_half_even] on a magnitude. *)
Definition rne (a p : Z) : Z :=
  if 2 * (a mod p) <? p then a / p
  else if p <? 2 * (a mod p) then a / p + 1
  else if Z.even (a / p) then a / p else a / p + 1.

(** A coefficient rounded to [p] significant digits, at its own exponent. *)
Definition round_sig (p N : Z) : Z :=
  let n := ndigits N in
  if n <=? p then N
  else round_half_even N (10 ^ (n - p)) * 10 ^ (n - p).

(** The quotient with the remainder remembered in its last digit, as
    [Decimal.__truediv__] prepares it for the rounding of [_fix]. *)
Definition sticky (n d : Z) : Z :=
  let q := n / d in
  if n mod d =? 0 then q else if q mod 5 =? 0 then q + 1 else q.

(** The quotient [n / d], at least [10^p], rounded to [p] significant
    digits. *)
Definition round_quot (p n d : Z) : Z :=
  let k := ndigits (n / d) - p in
  rne n (d * 10 ^ k) * 10 ^ k.

(** The operands of the integer division in [__truediv__]. *)
Definition div_shift (p : Z) (x y : t) : Z :=
  ndigits (Z.abs (coef y)) - ndigits (Z.abs (coef x)) + p + 1.
Definition div_num (p : Z) (x y : t) : Z :=
  if 0 <=? div_shift p x y then Z.abs (coef x) * 10 ^ div_shift p x y
  else Z.abs (coef x).
Definition div_den (p : Z) (x y : t) : Z :=
  if 0 <=? div_shift p x y then Z.abs (coef y)
  else Z.abs (coef y) * 10 ^ (- div_shift p x y).
Definition div_exp (p : Z) (x y : t) : Z := expo x - expo y - div_shift p x y.

End Rounding.

(** Lines 116 and 119 of the source on their own. *)
Definition pow_factor (interest_rate : decimal) (tenure : Z) : outcome decimal :=
  per_month <- Decimal.div interest_rate (Decimal.of_Z 12) ;;
  monthly_interest_rate <- Decimal.div per_month (Decimal.of_Z 100) ;;
  Decimal.pow (Decimal.add (Decimal.of_Z 1) monthly_interest_rate) tenure.

(** The exact values: a decimal as a real number, and the relative error
    of the operations that round. *)
Module Exact.
Import Decimal.

(** The value of a decimal, as a real number. *)
Definition val (d : t) : R := (IZR (coef d) * powerRZ 10 (expo d))%R.

(** The unit roundoff of precision [p]: half a unit in the last of [p]
    digits, relative to the value. *)
Definition unit_roundoff (p : Z) : R := (5 * powerRZ 10 (- p))%R.

(** [x] is [X] up to the relative error [u]. *)
Definition within (u x X : R) : Prop := (X * (1 - u) <= x <= X * (1 + u))%R.

(** [x] lies between [X * lo] and [X * hi]. *)
Definition bracket (lo hi x X : R) : Prop := (X * lo <= x <= X * hi)%R.

(** The number of roundings in [pow_uint w x k]. *)
Fixpoint ecount (k : positive) : nat :=
  match k with
  | xH => 0
  | xO k' => 2 * ecount k' + 1
  | xI k' => 2 * ecount k' + 2
  end.

(** The relative error of [Decimal.pow] with a positive integer exponent. *)
Definition pow_roundoff : R := (6 * powerRZ 10 (- prec))%R.

(** The relative error of the installment before it is rounded to cents. *)
Definition emi_roundoff : R := (1 / 1000000000000000000000)%R.

(** The geometric sum 1 + x + ... + x^(n-1), and the installment per unit
    of principal of an annuity with growth factor [x] over [n] periods. *)
Fixpoint geo (x : R) (n : nat) : R :=
  match n with
  | O => 0%R
  | S m => (geo x m + x ^ m)%R
  end.

Definition annuity (x : R) (n : nat) : R := ((x - 1) * x ^ n / (x ^ n - 1))%R.

End Exact.

(** ** Well-formed ledgers *)

(** The sequence of the [loan_id] AutoField is ahead of every key in use. *)
Definition loan_ids_fresh (db : Ledger) : Prop :=
  Forall (fun l => loan_id l < loan_seq db) (loans db).

(** The foreign key of [Loan.customer]: the owner of every loan is a row of
    the customer table. *)
Definition referential (db : Ledger) : Prop :=
  Forall (fun l => validate db (customer l) <> None) (loans db).

(** The debt of a customer is the principal of all the loans of the
    customer. *)
Definition debt_is_principal (db : Ledger) (c : Customer) : Prop :=
  Exact.val (current_debt c)
  = Exact.val (or_default (sum_dec loan_amount (loans_of c (loans db))) (cents 0)).

(** ** Sample data *)

(** A customer with a salary of 50000.00 and the limit 1800000.00 that
    registration derives from it, and one whose salary of 1000.00 gives the
    limit 0.00. *)
Definition sample_customer : Customer :=
  mkCustomer 1 "Asha" "Rao" "9876543210" (cents 5000000)
             (Some (cents 180000000)) (cents 0) 30.

Definition small_customer : Customer :=
  mkCustomer 2 "Ravi" "Iyer" "9123456780" (cents 100000)
             (Some (cents 0)) (cents 0) 41.

Definition sample_ledger : Ledger :=
  mkLedger [sample_customer; small_customer] [] 1.

Definition a_day : date := mkDate 2025 1 31.

(** An active loan of customer 1: 2000000.00 over 24 months, repaying
    25001.00 a month. *)
Definition big_loan : Loan :=
  mkLoan 7 1 (cents 200000000) 24 (cents 1000) (cents 2500100) 6
         (mkDate 2025 1 1) (mkDate 2027 1 1) "active".

(** The case of the specification: a salary of 10000.00 against active
    repayments of 5001.00. *)
Definition salaried_customer : Customer :=
  mkCustomer 3 "Meera" "Nair" "9000000001" (cents 1000000)
             (Some (cents 40000000)) (cents 0) 35.

Definition running_loan : Loan :=
  mkLoan 9 3 (cents 10000000) 24 (cents 1000) (cents 500100) 3
         (mkDate 2024 6 1) (mkDate 2026 6 1) "active".

(** ** Sample requests *)

(** A registration with an income of 12500.00: 36 times the income is
    450000.00, halfway between 4 and 5 times 100000. *)
Definition sample_registration : RegistrationData :=
  mkRegistration "Kiran" "Das" 28 (cents 1250000) "9000000002".

(** A registration with an income of 1000.00. *)
Definition low_registration : RegistrationData :=
  mkRegistration "Lata" "Sen" 52 (cents 100000) "9000000003".

(** Customer 1 asks for 100000.00 at 12% over 12 months, and over 120000
    months; customer 2 asks for 500.00. *)
Definition sample_request : LoanRequest :=
  mkRequest 1 (cents 10000000) (cents 1200) 12.

Definition long_request : LoanRequest :=
  mkRequest 1 (cents 10000000) (cents 1200) 120000.

Definition other_request : LoanRequest :=
  mkRequest 2 (cents 50000) (cents 1000) 6.

(** The ledger after [sample_request] has been served on [a_day], and the
    answer. *)
Definition served_loan : Loan :=
  mkLoan 1 1 (cents 10000000) 12 (cents 1200) (cents 888488) 0
         a_day (mkDate 2026 1 31) "active".

Definition served_ledger : Ledger :=
  mkLedger [with_debt sample_customer (cents 10000000); small_customer]
           [served_loan] 2.

Definition served_response : LoanResponse :=
  mkResponse (Some 1) 1 true "Loan approved successfully" (cents 888488).

(** * Properties *)

(** ** Signs and comparisons of decimals *)

Module DecimalFacts.
Import Decimal.

Lemma pow10_pos (k : Z) : 0 <= k -> 0 < 10 ^ k.
Proof. intros; apply Z.pow_pos_nonneg; lia. Qed.

Lemma compare_zero_l (z x : t) :
  coef z = 0 -> compare z x = (0 ?= coef x).
Proof.
  intros Hz. unfold compare, at_scale. rewrite Hz, Z.mul_0_l.
  assert (0 < 10 ^ (expo x - Z.min (expo z) (expo x))) by (apply pow10_pos; lia).
  destruct (Z.compare_spec 0 (coef x)) as [E|E|E].
  - rewrite <- E. now rewrite Z.mul_0_l.
  - apply Z.compare_lt_iff. nia.
  - apply Z.compare_gt_iff. nia.
Qed.

Lemma compare_zero_r (x z : t) :
  coef z = 0 -> compare x z = (coef x ?= 0).
Proof.
  intros Hz. unfold compare, at_scale. rewrite Hz, Z.mul_0_l.
  assert (0 < 10 ^ (expo x - Z.min (expo x) (expo z))) by (apply pow10_pos; lia).
  destruct (Z.compare_spec (coef x) 0) as [E|E|E].
  - rewrite E. now rewrite Z.mul_0_l.
  - apply Z.compare_lt_iff. nia.
  - apply Z.compare_gt_iff. nia.
Qed.

(** [x > 0], against a zero of any exponent. *)
Lemma gtb_zero (x z : t) : coef z = 0 -> gtb x z = (0 <? coef x).
Proof.
  intros Hz. unfold gtb, ltb. rewrite (compare_zero_l z x Hz).
  unfold Z.ltb. reflexivity.
Qed.

Lemma ltb_zero (x z : t) : coef z = 0 -> ltb x z = (coef x <? 0).
Proof.
  intros Hz. unfold ltb. rewrite (compare_zero_r x z Hz).
  unfold Z.ltb. reflexivity.
Qed.

Lemma eqb_zero (x z : t) : coef z = 0 -> eqb x z = (coef x =? 0).
Proof.
  intros Hz. unfold eqb. rewrite (compare_zero_r x z Hz).
  unfold Z.eqb. destruct (coef x); reflexivity.
Qed.

Lemma round_half_even_nonneg (c p : Z) :
  0 <= c -> 0 < p -> 0 <= round_half_even c p.
Proof.
  intros Hc Hp. unfold round_half_even.
  assert (0 <= Z.abs c / p) by (apply Z.div_pos; lia).
  assert (0 <= Z.sgn c) by lia.
  repeat match goal with |- context [if ?b then _ else _] => destruct b end; nia.
Qed.

Lemma fix_nonneg (p : Z) (d : t) : 0 <= coef d -> 0 <= coef (fix_ p d).
Proof.
  intros Hc. unfold fix_.
  destruct (ndigits (coef d) <=? p) eqn:E; [exact Hc|].
  assert (0 <= round_half_even (coef d) (10 ^ (ndigits (coef d) - p))).
  { apply round_half_even_nonneg; [exact Hc|]. apply pow10_pos.
    apply Z.leb_gt in E. lia. }
  destruct (Z.abs _ =? 10 ^ p); cbn [coef]; [apply Z.div_pos; lia | assumption].
Qed.

Lemma mul_nonneg (x y : t) : 0 <= coef x -> 0 <= coef y -> 0 <= coef (mul x y).
Proof. intros; apply fix_nonneg; cbn [coef]; nia. Qed.

(** *** The number of digits *)

Lemma ndigits_aux_spec (fuel : nat) : forall c,
  0 < c -> Z.log2 c <= Z.of_nat fuel ->
  1 <= ndigits_aux fuel c /\
  10 ^ (ndigits_aux fuel c - 1) <= c < 10 ^ ndigits_aux fuel c.
Proof.
  induction fuel as [|k IH]; intros c Hc Hlog.
  - cbn [ndigits_aux]. assert (c < 2).
    { change 2 with (2 ^ 1). apply Z.log2_lt_pow2; [lia|].
      change (Z.of_nat 0) with 0 in Hlog. lia. }
    cbn. lia.
  - cbn [ndigits_aux]. destruct (c <? 10) eqn:E.
    + apply Z.ltb_lt in E. cbn. lia.
    + apply Z.ltb_ge in E.
      assert (H10 : 0 < c / 10) by (apply Z.div_str_pos; lia).
      assert (Hlog' : Z.log2 (c / 10) <= Z.of_nat k).
      { assert (0 < c / 2) by (apply Z.div_str_pos; lia).
        assert (c / 10 <= c / 2).
        { apply Z.div_le_lower_bound; [lia|].
          pose proof (Z.mul_div_le c 10 ltac:(lia)).
          pose proof (Z.mul_succ_div_gt c 2 ltac:(lia)). lia. }
        assert (Z.log2 (c / 10) <= Z.log2 (c / 2)) by (apply Z.log2_le_mono; lia).
        assert (Z.log2 (2 * (c / 2)) <= Z.log2 c).
        { apply Z.log2_le_mono. apply Z.mul_div_le. lia. }
        rewrite Z.log2_double in * by lia. lia. }
      destruct (IH (c / 10) H10 Hlog') as [H1 [Hlo Hhi]].
      set (r := ndigits_aux k (c / 10)) in *.
      split; [lia|].
      replace (1 + r - 1) with (Z.succ (r - 1)) by lia.
      replace (1 + r) with (Z.succ r) by lia.
      rewrite !Z.pow_succ_r by lia.
      pose proof (Z.mul_div_le c 10 ltac:(lia)).
      pose proof (Z.mul_succ_div_gt c 10 ltac:(lia)).
      split; lia.
Qed.

Lemma ndigits_pos (c : Z) : 1 <= ndigits c.
Proof.
  unfold ndigits. destruct (Z.eq_dec c 0) as [->|Hc].
  - cbn. lia.
  - apply ndigits_aux_spec; [lia|].
    rewrite Z2Nat.id; [lia | apply Z.log2_nonneg].
Qed.

Lemma ndigits_spec (c : Z) :
  c <> 0 -> 10 ^ (ndigits c - 1) <= Z.abs c < 10 ^ ndigits c.
Proof.
  intros Hc. unfold ndigits. apply ndigits_aux_spec; [lia|].
  rewrite Z2Nat.id; [lia | apply Z.log2_nonneg].
Qed.

Lemma ndigits_unique (c k : Z) :
  10 ^ (k - 1) <= Z.abs c < 10 ^ k -> 1 <= k -> ndigits c = k.
Proof.
  intros [Hlo Hhi] Hk.
  assert (Hc : c <> 0).
  { intros ->. cbn in Hlo. pose proof (pow10_pos (k - 1)). lia. }
  destruct (ndigits_spec c Hc) as [Hlo' Hhi'].
  pose proof (ndigits_pos c) as Hn.
  destruct (Z.lt_trichotomy (ndigits c) k) as [L|[E|G]]; [|exact E|].
  - assert (10 ^ ndigits c <= 10 ^ (k - 1)) by (apply Z.pow_le_mono_r; lia). lia.
  - assert (10 ^ k <= 10 ^ (ndigits c - 1)) by (apply Z.pow_le_mono_r; lia). lia.
Qed.

Lemma ndigits_le (c k : Z) : Z.abs c < 10 ^ k -> 1 <= k -> ndigits c <= k.
Proof.
  intros Hlt Hk. destruct (Z.eq_dec c 0) as [->|Hc].
  - cbn. lia.
  - destruct (ndigits_spec c Hc) as [Hlo _].
    destruct (Z_le_gt_dec (ndigits c) k) as [L|G]; [exact L|].
    assert (10 ^ k <= 10 ^ (ndigits c - 1)) by (apply Z.pow_le_mono_r; lia). lia.
Qed.

Lemma ndigits_opp (c : Z) : ndigits (- c) = ndigits c.
Proof. unfold ndigits. now rewrite Z.abs_opp. Qed.

(** Values of at most [p] digits are left alone by the context. *)
Lemma fix_small (p : Z) (d : t) : Z.abs (coef d) < 10 ^ p -> 1 <= p -> fix_ p d = d.
Proof.
  intros Hc Hp. unfold fix_.
  replace (ndigits (coef d) <=? p) with true; [reflexivity|].
  symmetry. apply Z.leb_le. now apply ndigits_le.
Qed.

(** Adding two amounts in cents is exact as long as the sum has at most 28
    digits. *)
Lemma add_cents (a b : Z) :
  Z.abs (a + b) < 10 ^ 28 -> add (mk a (-2)) (mk b (-2)) = mk (a + b) (-2).
Proof.
  intros H. unfold add, add_prec, add_exact, at_scale. cbn [coef expo].
  change (Z.min (-2) (-2)) with (-2). change (-2 - -2) with 0.
  change (10 ^ 0) with 1. rewrite !Z.mul_1_r.
  apply fix_small; [exact H | unfold prec; lia].
Qed.

End DecimalFacts.

(** ** The credit score *)

Section ScoreFacts.

Variable c : Customer.
Variable tbl : list Loan.
Variable yr : Z.

Ltac split_ifs :=
  repeat match goal with
         | |- context [if ?b then _ else _] => destruct b
         | |- context [match ?o with Some _ => _ | None => _ end] => destruct o
         end.

(** C6: the score is an integer between 0 and 100, and it is 100 for a
    customer that has no loan at all. *)
Theorem credit_score_range :
  0 <= calculate_credit_score c tbl yr <= 100 /\
  (loans_of c tbl = [] -> calculate_credit_score c tbl yr = 100).
Proof.
  split.
  - unfold calculate_credit_score. cbv zeta. split_ifs; lia.
  - intros Hnone. unfold calculate_credit_score, limit_is_positive.
    rewrite Hnone. cbn [active filter sum_int sum_dec or_default List.length Z.of_nat].
    cbv zeta. cbn [Z.ltb Z.compare].
    destruct (approved_limit c) as [l|]; [|reflexivity].
    unfold truthy.
    rewrite (DecimalFacts.gtb_zero l (Decimal.of_Z 0) eq_refl).
    destruct (0 <? Decimal.coef l) eqn:Hpos.
    + apply Z.ltb_lt in Hpos.
      replace (Decimal.coef l =? 0) with false by (symmetry; apply Z.eqb_neq; lia).
      cbn [negb andb].
      unfold Decimal.gtb at 1 2.
      rewrite !(DecimalFacts.ltb_zero _ (cents 0) eq_refl).
      assert (H15 : 0 <= Decimal.coef (Decimal.mul l (Decimal.mk 15 (-1)))).
      { apply DecimalFacts.mul_nonneg; cbn; lia. }
      replace (Decimal.coef (Decimal.mul l _) <? 0) with false
        by (symmetry; apply Z.ltb_ge; exact H15).
      replace (Decimal.coef l <? 0) with false by (symmetry; apply Z.ltb_ge; lia).
      reflexivity.
    + rewrite andb_false_r. reflexivity.
Qed.

(** C4: a positive approved limit exceeded by the principal of the active
    loans forces the score to 0, whatever the deductions were. *)
Theorem credit_score_override (l : decimal) :
  approved_limit c = Some l ->
  0 < Decimal.coef l ->
  Decimal.gtb (or_default (sum_dec loan_amount (active (loans_of c tbl))) (cents 0)) l
    = true ->
  calculate_credit_score c tbl yr = 0.
Proof.
  intros Hl Hpos Hsum.
  unfold calculate_credit_score, limit_is_positive. cbv zeta.
  rewrite Hl, Hsum.
  unfold truthy. rewrite (DecimalFacts.gtb_zero l (Decimal.of_Z 0) eq_refl).
  replace (Decimal.coef l =? 0) with false by (symmetry; apply Z.eqb_neq; lia).
  replace (0 <? Decimal.coef l) with true by (symmetry; apply Z.ltb_lt; lia).
  reflexivity.
Qed.

(** The deductions add up to at most 43, so a score is 0 or at least 57: the
    tiers between 10 and 50 of the eligibility decision are never entered
    with a score that [calculate_credit_score] returned. *)
Lemma credit_score_values :
  calculate_credit_score c tbl yr = 0 \/ 57 <= calculate_credit_score c tbl yr <= 100.
Proof.
  unfold calculate_credit_score. cbv zeta. split_ifs; lia.
Qed.

End ScoreFacts.

(** ** The eligibility decision *)

Section EligibilityFacts.

Variable c : Customer.
Variable tbl : list Loan.

Lemma emis_exceed_half_salary_returns :
  exists b, emis_exceed_half_salary c tbl = Ok b.
Proof.
  unfold emis_exceed_half_salary.
  destruct (truthy _ && _); [|eauto].
  unfold Decimal.div, Decimal.div_prec. cbn [Decimal.coef Decimal.of_Z Z.eqb].
  destruct (Decimal.coef (monthly_salary c) =? 0); [cbn; eauto|].
  destruct (_ =? 0); [destruct (Decimal.strip_zeros _ _ _ _)|]; cbn; eauto.
Qed.

(** The salary rule, on the half that the decimal division returns. *)
Lemma emi_gate_rejects_on_half (half : decimal) (amount rate : decimal) (n : Z) :
  0 < Decimal.coef (monthly_salary c) ->
  Decimal.div (monthly_salary c) (Decimal.of_Z 2) = Ok half ->
  Decimal.gtb (total_current_emis c tbl) half = true ->
  (forall score,
      eligibility_for_score c tbl score amount rate n
      = Ok (mkResult (customer_id c) false rate rate n (cents 0))) /\
  (forall yr,
      get_eligibility_result c tbl yr amount rate n
      = Ok (mkResult (customer_id c) false rate rate n (cents 0))).
Proof.
  intros Hpos Hhalf Hgt.
  assert (G : emis_exceed_half_salary c tbl = Ok true).
  { unfold emis_exceed_half_salary, truthy.
    rewrite (DecimalFacts.gtb_zero _ (Decimal.of_Z 0) eq_refl).
    replace (Decimal.coef (monthly_salary c) =? 0) with false
      by (symmetry; apply Z.eqb_neq; lia).
    replace (0 <? Decimal.coef (monthly_salary c)) with true
      by (symmetry; apply Z.ltb_lt; lia).
    cbn [negb andb]. rewrite Hhalf. cbn [bind]. now rewrite Hgt. }
  assert (E : forall score,
             eligibility_for_score c tbl score amount rate n
             = Ok (mkResult (customer_id c) false rate rate n (cents 0))).
  { intros score. unfold eligibility_for_score. rewrite G. reflexivity. }
  split; [exact E|]. intros yr. apply E.
Qed.

(** C1: past the salary rule the decision follows the score tiers.  A score
    above 50 keeps the requested rate, a score in (30, 50] raises a rate
    below 12.00 to 12.00, a score in (10, 30] raises a rate below 16.00 to
    16.00, a score of 10 or less is refused; a tier's approval stands exactly
    when the limit gate lets the amount through.  The check raises only when
    the EMI calculator does. *)
Theorem score_tiers (score : Z) (amount rate : decimal) (n : Z) :
  emis_exceed_half_salary c tbl = Ok false ->
  match eligibility_for_score c tbl score amount rate n with
  | Ok r =>
      res_interest_rate r = rate /\
      (50 < score -> corrected_interest_rate r = rate) /\
      (30 < score <= 50 ->
       corrected_interest_rate r
       = if Decimal.ltb rate (cents 1200) then cents 1200 else rate) /\
      (10 < score <= 30 ->
       corrected_interest_rate r
       = if Decimal.ltb rate (cents 1600) then cents 1600 else rate) /\
      (score <= 10 ->
       approval r = false /\ corrected_interest_rate r = rate /\
       monthly_installment r = cents 0) /\
      (10 < score -> approval r = within_limit c amount)
  | Raise e =>
      10 < score /\ within_limit c amount = true /\
      calculate_emi amount (tier_rate score rate) n = Raise e
  end.
Proof.
  intros G. unfold eligibility_for_score. rewrite G. cbn [bind].
  unfold within_limit, tier_rate.
  destruct (50 <? score) eqn:H50;
    [| destruct (30 <? score) eqn:H30;
       [| destruct (10 <? score) eqn:H10 ] ];
    repeat match goal with
           | H : (_ <? _) = true |- _ => apply Z.ltb_lt in H
           | H : (_ <? _) = false |- _ => apply Z.ltb_ge in H
           end;
    try replace (score <=? 50) with true by (symmetry; apply Z.leb_le; lia);
    try replace (score <=? 30) with true by (symmetry; apply Z.leb_le; lia);
    cbn [andb];
    try (destruct (approved_limit c) as [l|];
         [ destruct (Decimal.eqb l (cents 0)) | ];
         try destruct (Decimal.gtb amount (cents 0));
         try destruct (Decimal.gtb amount l);
         cbn [negb];
         try destruct (calculate_emi amount _ n) eqn:Hemi);
    cbn [bind res_interest_rate corrected_interest_rate approval monthly_installment];
    repeat split; intros; try lia; try reflexivity; try congruence.
Qed.

(** An approved check carries the rate of its tier. *)
Lemma approved_rate_is_tier_rate (score : Z) (amount rate : decimal) (n : Z)
    (r : EligibilityResult) :
  eligibility_for_score c tbl score amount rate n = Ok r ->
  approval r = true ->
  corrected_interest_rate r = tier_rate score rate.
Proof.
  unfold eligibility_for_score, tier_rate.
  destruct (emis_exceed_half_salary c tbl) as [[|]|]; cbn [bind];
    [ intros [= <-]; discriminate | | discriminate ].
  destruct (50 <? score) eqn:H50;
    [| destruct (30 <? score) eqn:H30;
       [| destruct (10 <? score) eqn:H10 ] ];
    repeat match goal with
           | H : (_ <? _) = true |- _ => apply Z.ltb_lt in H
           | H : (_ <? _) = false |- _ => apply Z.ltb_ge in H
           end;
    try replace (score <=? 50) with true by (symmetry; apply Z.leb_le; lia);
    try replace (score <=? 30) with true by (symmetry; apply Z.leb_le; lia);
    cbn [andb];
    try (destruct (approved_limit c) as [l|];
         [ destruct (Decimal.eqb l (cents 0)) | ];
         try destruct (Decimal.gtb amount (cents 0));
         try destruct (Decimal.gtb amount l);
         try destruct (calculate_emi amount _ n));
    cbn [bind]; intros [= <-]; cbn [approval corrected_interest_rate];
    congruence.
Qed.

End EligibilityFacts.

(** ** The limit gate *)

Section LimitGateFacts.

Variable c : Customer.
Variable tbl : list Loan.

(** C5, as the code has it: the limit gate is entered with a tier's approval.
    Without a limit (unset, or exactly 0) a positive amount is refused and an
    amount of exactly 0 keeps its approval with the installment left at 0.00:
    the EMI calculator is not consulted on that branch.  With a limit, an
    amount above it is refused, and any other amount is approved with the
    installment the EMI calculator returns for the amount, the corrected rate
    and the tenure.  A refused check always carries the installment 0.00. *)
Theorem limit_gate (score : Z) (amount rate : decimal) (n : Z) :
  let out := eligibility_for_score c tbl score amount rate n in
  let result a i := mkResult (customer_id c) a rate (tier_rate score rate) n i in
  (emis_exceed_half_salary c tbl = Ok false -> 10 < score ->
   ((approved_limit c = None \/
     exists l, approved_limit c = Some l /\ Decimal.eqb l (cents 0) = true) ->
    (Decimal.gtb amount (cents 0) = true -> out = Ok (result false (cents 0))) /\
    (Decimal.eqb amount (cents 0) = true -> out = Ok (result true (cents 0)))) /\
   (forall l, approved_limit c = Some l -> Decimal.eqb l (cents 0) = false ->
    (Decimal.gtb amount l = true -> out = Ok (result false (cents 0))) /\
    (Decimal.gtb amount l = false ->
     out = (emi <- calculate_emi amount (tier_rate score rate) n ;;
            Ok (result true emi))))) /\
  (forall r, out = Ok r -> approval r = false -> monthly_installment r = cents 0).
Proof.
  cbv zeta. split.
  - intros G Hs. unfold eligibility_for_score, tier_rate. rewrite G. cbn [bind].
    assert (T : (if 50 <? score then (true, rate)
                 else if (30 <? score) && (score <=? 50)
                 then (true, if Decimal.ltb rate (cents 1200) then cents 1200 else rate)
                 else if (10 <? score) && (score <=? 30)
                 then (true, if Decimal.ltb rate (cents 1600) then cents 1600 else rate)
                 else (false, rate))
                = (true, if 50 <? score then rate
                         else if 30 <? score
                         then (if Decimal.ltb rate (cents 1200) then cents 1200 else rate)
                         else if 10 <? score
                         then (if Decimal.ltb rate (cents 1600) then cents 1600 else rate)
                         else rate)).
    { destruct (50 <? score) eqn:H50; [reflexivity|].
      apply Z.ltb_ge in H50.
      replace (score <=? 50) with true by (symmetry; apply Z.leb_le; lia).
      destruct (30 <? score) eqn:H30; [reflexivity|].
      apply Z.ltb_ge in H30.
      replace (score <=? 30) with true by (symmetry; apply Z.leb_le; lia).
      replace (10 <? score) with true by (symmetry; apply Z.ltb_lt; lia).
      reflexivity. }
    rewrite T. clear T. split.
    + intros Hnone. split; intros Ha.
      * destruct Hnone as [-> | [l [-> ->]]]; now rewrite Ha.
      * assert (Hg : Decimal.gtb amount (cents 0) = false).
        { rewrite (DecimalFacts.eqb_zero _ (cents 0) eq_refl) in Ha.
          rewrite (DecimalFacts.gtb_zero _ (cents 0) eq_refl).
          apply Z.eqb_eq in Ha. rewrite Ha. reflexivity. }
        destruct Hnone as [-> | [l [-> ->]]]; now rewrite Hg.
    + intros l -> Hl. rewrite Hl. split; intros ->; reflexivity.
  - intros r. unfold eligibility_for_score.
    destruct (emis_exceed_half_salary c tbl) as [[|]|]; cbn [bind];
      [ intros [= <-]; reflexivity | | discriminate ].
    destruct (if 50 <? score then _ else _) as [[|] cr].
    + destruct (approved_limit c) as [l|];
        [ destruct (Decimal.eqb l (cents 0)) | ];
        try destruct (Decimal.gtb amount (cents 0));
        try destruct (Decimal.gtb amount l);
        try destruct (calculate_emi amount cr n);
        cbn [bind]; intros [= <-]; cbn [approval monthly_installment];
        congruence.
    + intros [= <-]. reflexivity.
Qed.

(** When the limit is set and not zero, an approved check carries the value
    the EMI calculator returns on the amount, the corrected rate and the
    tenure: computing it again gives the same decimal, digit for digit. *)
Lemma approved_installment_is_emi (l : decimal) (score : Z)
    (amount rate : decimal) (n : Z) (r : EligibilityResult) :
  approved_limit c = Some l -> Decimal.eqb l (cents 0) = false ->
  eligibility_for_score c tbl score amount rate n = Ok r ->
  approval r = true ->
  calculate_emi amount (corrected_interest_rate r) n = Ok (monthly_installment r).
Proof.
  intros Hl Hz. unfold eligibility_for_score. rewrite Hl, Hz.
  destruct (emis_exceed_half_salary c tbl) as [[|]|]; cbn [bind];
    [ intros [= <-]; discriminate | | discriminate ].
  destruct (if 50 <? score then _ else _) as [[|] cr].
  - destruct (Decimal.gtb amount l).
    + intros [= <-]; discriminate.
    + destruct (calculate_emi amount cr n) eqn:E; cbn [bind]; [|discriminate].
      intros [= <-] _. exact E.
  - intros [= <-]; discriminate.
Qed.

(** The same for any customer when the amount is positive: without a limit
    such a request is refused, so an approval went through the calculator.
    For these requests the installment that [create] computes again is the
    one of the check. *)
Lemma approved_positive_amount_is_emi (score : Z)
    (amount rate : decimal) (n : Z) (r : EligibilityResult) :
  0 < Decimal.coef amount ->
  eligibility_for_score c tbl score amount rate n = Ok r ->
  approval r = true ->
  calculate_emi amount (corrected_interest_rate r) n = Ok (monthly_installment r).
Proof.
  intros Hpos. unfold eligibility_for_score.
  rewrite (DecimalFacts.gtb_zero amount (cents 0) eq_refl).
  replace (0 <? Decimal.coef amount) with true by (symmetry; apply Z.ltb_lt; lia).
  destruct (emis_exceed_half_salary c tbl) as [[|]|]; cbn [bind];
    [ intros [= <-]; discriminate | | discriminate ].
  destruct (if 50 <? score then _ else _) as [[|] cr];
    [| intros [= <-]; discriminate ].
  destruct (approved_limit c) as [l|]; [| intros [= <-]; discriminate ].
  destruct (Decimal.eqb l (cents 0)); [ intros [= <-]; discriminate |].
  destruct (Decimal.gtb amount l); [ intros [= <-]; discriminate |].
  destruct (calculate_emi amount cr n) eqn:E; cbn [bind]; [|discriminate].
  intros [= <-] _. exact E.
Qed.

End LimitGateFacts.

(** ** Dates and rows *)

(** Adding months moves the month count by exactly that many months and
    keeps the day, cut to the length of the month reached. *)
Lemma add_months_spec (d d' : date) (n : Z) :
  1 <= month d <= 12 ->
  add_months d n = Ok d' ->
  12 * year d' + month d' = 12 * year d + month d + n /\
  1 <= month d' <= 12 /\
  1 <= year d' <= 9999 /\
  day d' = Z.min (days_in_month (year d') (month d')) (day d).
Proof.
  intros Hm. unfold add_months.
  pose proof (Z.div_mod (Z.abs n) 12 ltac:(lia)) as Hdm.
  pose proof (Z.mod_pos_bound (Z.abs n) 12 ltac:(lia)) as Hr.
  set (q := Z.abs n / 12) in *. set (r := Z.abs n mod 12) in *.
  destruct (Z.sgn n * r =? 0) eqn:E0;
    [ apply Z.eqb_eq in E0 | apply Z.eqb_neq in E0;
      destruct (12 <? month d + Z.sgn n * r) eqn:E1;
      [ apply Z.ltb_lt in E1 | apply Z.ltb_ge in E1;
        destruct (month d + Z.sgn n * r <? 1) eqn:E2;
        [ apply Z.ltb_lt in E2 | apply Z.ltb_ge in E2 ] ] ];
    (match goal with
     | |- context [(1 <=? ?y) && (?y <=? 9999)] =>
         destruct (1 <=? y) eqn:Ey1;
           [|cbn [andb]; destruct (_ && _); discriminate];
         destruct (y <=? 9999) eqn:Ey2;
           [|cbn [andb]; destruct (_ && _); discriminate];
         apply Z.leb_le in Ey1; apply Z.leb_le in Ey2
     end);
    cbn [andb]; intros [= <-]; cbn [year month day];
    repeat split; try lia;
    destruct (Z.sgn_spec n) as [[? Hs]|[[? Hs]|[? Hs]]]; rewrite Hs in *; lia.
Qed.

Lemma save_lookup (cust cust' : Customer) (rows : list Customer) :
  customer_id cust' = customer_id cust ->
  find (fun r => customer_id r =? customer_id cust) rows = Some cust ->
  find (fun r => customer_id r =? customer_id cust) (save cust' rows) = Some cust'.
Proof.
  intros Hid. induction rows as [|r rows IH]; cbn [find save map]; [discriminate|].
  rewrite Hid.
  destruct (customer_id r =? customer_id cust) eqn:E.
  - intros _. rewrite Hid, Z.eqb_refl. reflexivity.
  - rewrite E. intros H. unfold save in IH. rewrite Hid in IH. exact (IH H).
Qed.

(** ** Rounding to the nearest, ties to even *)

Module RoundingFacts.
Import Decimal DecimalFacts Rounding.

Lemma round_half_even_rne (c p : Z) :
  round_half_even c p = Z.sgn c * rne (Z.abs c) p.
Proof. reflexivity. Qed.

Lemma round_half_even_nonneg_rne (c p : Z) :
  0 < p -> 0 <= c -> round_half_even c p = rne c p.
Proof.
  intros Hp Hc. rewrite round_half_even_rne.
  destruct (Z.eq_dec c 0) as [->|Hn].
  - unfold rne. rewrite Zmod_0_l, Zdiv_0_l. cbn.
    replace (0 <? p) with true by (symmetry; apply Z.ltb_lt; lia). reflexivity.
  - rewrite Z.abs_eq by lia. rewrite Z.sgn_pos by lia. lia.
Qed.

Lemma round_half_even_opp (c p : Z) :
  round_half_even (- c) p = - round_half_even c p.
Proof.
  rewrite !round_half_even_rne, Z.abs_opp, Z.sgn_opp. lia.
Qed.

(** The rounded quotient is within half a unit of the exact one, and even
    when exactly half a unit away. *)
Lemma rne_spec (a p : Z) :
  0 < p ->
  2 * Z.abs (rne a p * p - a) <= p /\
  (2 * Z.abs (rne a p * p - a) = p -> Z.even (rne a p) = true).
Proof.
  intros Hp. unfold rne.
  pose proof (Z.div_mod a p ltac:(lia)) as Hdm.
  pose proof (Z.mod_pos_bound a p Hp) as Hr.
  destruct (2 * (a mod p) <? p) eqn:E1;
    [ apply Z.ltb_lt in E1
    | apply Z.ltb_ge in E1; destruct (p <? 2 * (a mod p)) eqn:E2;
      [ apply Z.ltb_lt in E2
      | apply Z.ltb_ge in E2; destruct (Z.even (a / p)) eqn:E3 ] ].
  - split; [lia|]. intros H. lia.
  - split; [lia|]. intros H. lia.
  - split; [lia|]. intros _. exact E3.
  - split; [lia|]. intros _. rewrite Z.even_add, E3. reflexivity.
Qed.

Lemma rne_nonneg (a p : Z) : 0 <= a -> 0 < p -> 0 <= rne a p.
Proof.
  intros Ha Hp. unfold rne.
  assert (0 <= a / p) by (apply Z.div_pos; lia).
  repeat match goal with |- context [if ?b then _ else _] => destruct b end; lia.
Qed.

Lemma rne_exact (m p : Z) : 0 < p -> rne (m * p) p = m.
Proof.
  intros Hp. unfold rne. rewrite Z.mod_mul, Z.div_mul by lia.
  replace (2 * 0 <? p) with true by (symmetry; apply Z.ltb_lt; lia).
  reflexivity.
Qed.

Lemma rne_mono (a1 a2 p : Z) : 0 < p -> a1 <= a2 -> rne a1 p <= rne a2 p.
Proof.
  intros Hp Hle.
  pose proof (Z.div_mod a1 p ltac:(lia)) as D1.
  pose proof (Z.div_mod a2 p ltac:(lia)) as D2.
  pose proof (Z.mod_pos_bound a1 p Hp) as R1.
  pose proof (Z.mod_pos_bound a2 p Hp) as R2.
  pose proof (Z.div_le_mono a1 a2 p Hp Hle) as Q.
  unfold rne.
  destruct (Z.eq_dec (a1 / p) (a2 / p)) as [E|N].
  - rewrite <- E in *.
    assert (a1 mod p <= a2 mod p) by lia.
    destruct (2 * (a1 mod p) <? p) eqn:A1;
      destruct (2 * (a2 mod p) <? p) eqn:A2;
      destruct (p <? 2 * (a1 mod p)) eqn:B1;
      destruct (p <? 2 * (a2 mod p)) eqn:B2;
      destruct (Z.even (a1 / p));
      repeat match goal with
             | H : (_ <? _) = true |- _ => apply Z.ltb_lt in H
             | H : (_ <? _) = false |- _ => apply Z.ltb_ge in H
             end; lia.
  - assert (a1 / p + 1 <= a2 / p) by lia.
    repeat match goal with |- context [if ?b then _ else _] => destruct b end; lia.
Qed.

(** Numerator and denominator may be scaled together. *)
Lemma rne_scale (a p t : Z) : 0 < p -> 0 < t -> rne (a * t) (p * t) = rne a p.
Proof.
  intros Hp Ht. unfold rne.
  rewrite Z.div_mul_cancel_r by lia.
  rewrite Zmult_mod_distr_r.
  replace (2 * (a mod p * t) <? p * t) with (2 * (a mod p) <? p).
  2:{ destruct (Z.ltb_spec (2 * (a mod p)) p), (Z.ltb_spec (2 * (a mod p * t)) (p * t));
      try reflexivity; nia. }
  replace (p * t <? 2 * (a mod p * t)) with (p <? 2 * (a mod p)).
  2:{ destruct (Z.ltb_spec p (2 * (a mod p))), (Z.ltb_spec (p * t) (2 * (a mod p * t)));
      try reflexivity; nia. }
  reflexivity.
Qed.

(** Rounding respects the order of fractions. *)
Lemma rne_frac_mono (n1 d1 n2 d2 : Z) :
  0 < d1 -> 0 < d2 -> n1 * d2 <= n2 * d1 -> rne n1 d1 <= rne n2 d2.
Proof.
  intros H1 H2 Hle.
  rewrite <- (rne_scale n1 d1 d2), <- (rne_scale n2 d2 d1) by lia.
  rewrite (Z.mul_comm d2 d1). apply rne_mono; nia.
Qed.

Lemma round_half_even_mono (c1 c2 p : Z) :
  0 < p -> c1 <= c2 -> round_half_even c1 p <= round_half_even c2 p.
Proof.
  intros Hp Hle.
  destruct (Z_le_gt_dec 0 c1) as [P1|N1].
  - rewrite !round_half_even_nonneg_rne by lia. now apply rne_mono.
  - destruct (Z_le_gt_dec 0 c2) as [P2|N2].
    + rewrite (round_half_even_nonneg_rne c2) by lia.
      replace c1 with (- (- c1)) by lia. rewrite round_half_even_opp.
      rewrite round_half_even_nonneg_rne by lia.
      pose proof (rne_nonneg (- c1) p ltac:(lia) Hp).
      pose proof (rne_nonneg c2 p P2 Hp). lia.
    + replace c1 with (- (- c1)) by lia. replace c2 with (- (- c2)) by lia.
      rewrite (round_half_even_opp (- c1)), (round_half_even_opp (- c2)).
      rewrite !round_half_even_nonneg_rne by lia.
      pose proof (rne_mono (- c2) (- c1) p Hp ltac:(lia)). lia.
Qed.

Lemma round_half_even_exact (m p : Z) : 0 < p -> round_half_even (m * p) p = m.
Proof.
  intros Hp. destruct (Z_le_gt_dec 0 m) as [P|N].
  - rewrite round_half_even_nonneg_rne by nia. now apply rne_exact.
  - replace (m * p) with (- ((- m) * p)) by lia. rewrite round_half_even_opp.
    rewrite round_half_even_nonneg_rne by nia. rewrite rne_exact by lia. lia.
Qed.

Lemma round_half_even_scale (c p t : Z) :
  0 < p -> 0 < t -> round_half_even (c * t) (p * t) = round_half_even c p.
Proof.
  intros Hp Ht. destruct (Z_le_gt_dec 0 c) as [P|N].
  - rewrite !round_half_even_nonneg_rne by nia. now apply rne_scale.
  - replace (c * t) with (- ((- c) * t)) by lia.
    rewrite (round_half_even_opp ((- c) * t)).
    replace (round_half_even c p) with (- round_half_even (- c) p)
      by (rewrite round_half_even_opp; lia).
    rewrite !round_half_even_nonneg_rne by nia. now rewrite rne_scale.
Qed.

(** The same, for any sign: half a unit at most, even on a tie. *)
Lemma round_half_even_spec (c p : Z) :
  0 < p ->
  2 * Z.abs (round_half_even c p * p - c) <= p /\
  (2 * Z.abs (round_half_even c p * p - c) = p ->
   Z.even (round_half_even c p) = true).
Proof.
  intros Hp. destruct (Z_le_gt_dec 0 c) as [P|N].
  - rewrite round_half_even_nonneg_rne by lia. now apply rne_spec.
  - replace c with (- (- c)) by lia. rewrite round_half_even_opp.
    rewrite round_half_even_nonneg_rne by lia.
    destruct (rne_spec (- c) p Hp) as [A B].
    replace (- rne (- c) p * p - - - c) with (- (rne (- c) p * p - - c)) by lia.
    rewrite Z.abs_opp, Z.even_opp. split; assumption.
Qed.

(** *** The order of decimals, at a common exponent *)

Lemma pow10_split (a b : Z) : 0 <= a -> 0 <= b -> 10 ^ (a + b) = 10 ^ a * 10 ^ b.
Proof. intros; apply Z.pow_add_r; lia. Qed.

Lemma at_scale_shift (s s' : Z) (d : t) :
  s <= s' -> s' <= expo d -> at_scale s d = at_scale s' d * 10 ^ (s' - s).
Proof.
  intros H1 H2. unfold at_scale.
  replace (expo d - s) with ((expo d - s') + (s' - s)) by lia.
  rewrite pow10_split by lia. lia.
Qed.

Lemma le_at_scale (s : Z) (x y : t) :
  s <= expo x -> s <= expo y -> (le x y <-> at_scale s x <= at_scale s y).
Proof.
  intros Hx Hy. unfold le, leb, ltb, compare.
  set (m := Z.min (expo y) (expo x)).
  rewrite (at_scale_shift s m x), (at_scale_shift s m y) by lia.
  assert (0 < 10 ^ (m - s)) by (apply pow10_pos; lia).
  destruct (Z.compare_spec (at_scale m y) (at_scale m x)) as [E|E|E]; cbn [negb].
  - split; [intros _; nia | reflexivity].
  - split; [discriminate | intros; nia].
  - split; [intros _; nia | reflexivity].
Qed.

Lemma le_of_signs (x y : t) : coef x <= 0 -> 0 <= coef y -> le x y.
Proof.
  intros Hx Hy. apply (le_at_scale (Z.min (expo x) (expo y))); [lia|lia|].
  unfold at_scale.
  assert (0 < 10 ^ (expo x - Z.min (expo x) (expo y))) by (apply pow10_pos; lia).
  assert (0 < 10 ^ (expo y - Z.min (expo x) (expo y))) by (apply pow10_pos; lia).
  nia.
Qed.

(** *** Rounding a coefficient to [p] significant digits *)

Lemma ndigits_mul_pow10 (c j : Z) :
  c <> 0 -> 0 <= j -> ndigits (c * 10 ^ j) = ndigits c + j.
Proof.
  intros Hc Hj. pose proof (ndigits_pos c). pose proof (ndigits_spec c Hc) as [Lo Hi].
  assert (0 < 10 ^ j) by (apply pow10_pos; lia).
  apply ndigits_unique; [|lia].
  rewrite Z.abs_mul, (Z.abs_eq (10 ^ j)) by lia.
  replace (ndigits c + j - 1) with ((ndigits c - 1) + j) by lia.
  rewrite !pow10_split by lia. nia.
Qed.

Lemma ndigits_mono (a b : Z) : 0 < a -> a <= b -> ndigits a <= ndigits b.
Proof.
  intros Ha Hab.
  pose proof (ndigits_spec a ltac:(lia)) as [La _].
  pose proof (ndigits_spec b ltac:(lia)) as [_ Hb].
  rewrite Z.abs_eq in La, Hb by lia.
  pose proof (ndigits_pos a). pose proof (ndigits_pos b).
  destruct (Z_le_gt_dec (ndigits a) (ndigits b)) as [L|G]; [exact L|].
  assert (10 ^ ndigits b <= 10 ^ (ndigits a - 1)) by (apply Z.pow_le_mono_r; lia).
  lia.
Qed.

Lemma fix_expo_ge (p : Z) (d : t) : expo d <= expo (fix_ p d).
Proof.
  unfold fix_. destruct (ndigits (coef d) <=? p) eqn:E; [lia|].
  apply Z.leb_gt in E. destruct (_ =? _); cbn [expo]; lia.
Qed.

Lemma fix_at_scale (p s : Z) (d : t) :
  1 <= p -> s <= expo d -> at_scale s (fix_ p d) = round_sig p (at_scale s d).
Proof.
  intros Hp Hs. unfold at_scale at 2. set (j := expo d - s).
  assert (Hj : 0 <= j) by (unfold j; lia).
  assert (H10j : 0 < 10 ^ j) by (apply pow10_pos; lia).
  destruct (Z.eq_dec (coef d) 0) as [Hz|Hnz].
  - unfold fix_, round_sig, at_scale. rewrite Hz. cbn [Z.mul].
    change (ndigits 0) with 1.
    replace (1 <=? p) with true by (symmetry; apply Z.leb_le; lia).
    rewrite Hz. reflexivity.
  - unfold round_sig. rewrite ndigits_mul_pow10 by assumption.
    unfold fix_. set (n := ndigits (coef d)).
    destruct (n <=? p) eqn:E.
    + apply Z.leb_le in E. unfold at_scale. fold j.
      destruct (n + j <=? p) eqn:E'; [reflexivity|].
      apply Z.leb_gt in E'.
      replace (coef d * 10 ^ j)
        with ((coef d * 10 ^ (p - n)) * 10 ^ (n + j - p)).
      2:{ rewrite <- Z.mul_assoc, <- pow10_split by lia. f_equal. f_equal. lia. }
      rewrite round_half_even_exact by (apply pow10_pos; lia). reflexivity.
    + apply Z.leb_gt in E.
      replace (n + j <=? p) with false by (symmetry; apply Z.leb_gt; lia).
      replace (n + j - p) with ((n - p) + j) by lia.
      rewrite pow10_split by lia.
      rewrite round_half_even_scale by (try apply pow10_pos; lia).
      set (c' := round_half_even (coef d) (10 ^ (n - p))).
      destruct (Z.abs c' =? 10 ^ p) eqn:C; unfold at_scale; cbn [coef expo].
      * apply Z.eqb_eq in C.
        replace (expo d + (n - p) + 1 - s) with (1 + ((n - p) + j)) by (unfold j; lia).
        rewrite (pow10_split 1) by lia. rewrite pow10_split by lia.
        change (10 ^ 1) with 10.
        assert (D : c' = c' / 10 * 10).
        { assert (Hdiv : (10 | c')).
          { replace p with (1 + (p - 1)) in C by lia.
            rewrite pow10_split in C by lia. change (10 ^ 1) with 10 in C.
            destruct (Z.abs_spec c') as [[_ A]|[_ A]];
              [ exists (10 ^ (p - 1)) | exists (- 10 ^ (p - 1)) ]; lia. }
          destruct Hdiv as [z Hz']. rewrite Hz' at 2. rewrite Z.div_mul by lia.
          exact Hz'. }
        rewrite D at 2. lia.
      * replace (expo d + (n - p) - s) with ((n - p) + j) by (unfold j; lia).
        rewrite pow10_split by lia. lia.
Qed.

Lemma round_sig_opp (p N : Z) : round_sig p (- N) = - round_sig p N.
Proof.
  unfold round_sig. rewrite ndigits_opp.
  destruct (_ <=? _); [reflexivity|]. rewrite round_half_even_opp. lia.
Qed.

Lemma round_sig_nonneg (p N : Z) : 0 <= N -> 0 <= round_sig p N.
Proof.
  intros HN. unfold round_sig. destruct (ndigits N <=? p) eqn:E; [exact HN|].
  apply Z.leb_gt in E.
  assert (0 < 10 ^ (ndigits N - p)) by (apply pow10_pos; lia).
  pose proof (round_half_even_nonneg N _ HN H). nia.
Qed.

(** A positive coefficient of [n > p] digits is rounded to a multiple of
    [10^(n-p)] between [10^(n-1)] and [10^n]. *)
Lemma round_sig_bounds (p N : Z) :
  1 <= p -> 0 < N -> p < ndigits N ->
  10 ^ (ndigits N - 1) <= round_sig p N <= 10 ^ ndigits N.
Proof.
  intros Hp HN Hn. unfold round_sig.
  replace (ndigits N <=? p) with false by (symmetry; apply Z.leb_gt; lia).
  set (n := ndigits N) in *. set (k := n - p).
  assert (Hk : 0 < 10 ^ k) by (apply pow10_pos; unfold k; lia).
  pose proof (ndigits_spec N ltac:(lia)) as [Lo Hi]. fold n in Lo, Hi.
  rewrite Z.abs_eq in Lo, Hi by lia.
  rewrite round_half_even_nonneg_rne by lia.
  assert (E1 : 10 ^ (n - 1) = 10 ^ (p - 1) * 10 ^ k).
  { rewrite <- pow10_split by (unfold k; lia). f_equal. unfold k; lia. }
  assert (E2 : 10 ^ n = 10 ^ p * 10 ^ k).
  { rewrite <- pow10_split by (unfold k; lia). f_equal. unfold k; lia. }
  pose proof (rne_mono (10 ^ (p - 1) * 10 ^ k) N (10 ^ k) Hk ltac:(lia)) as M1.
  pose proof (rne_mono N (10 ^ p * 10 ^ k) (10 ^ k) Hk ltac:(lia)) as M2.
  rewrite rne_exact in M1, M2 by lia.
  rewrite E1, E2. split; nia.
Qed.

Lemma round_sig_mono_pos (p N1 N2 : Z) :
  1 <= p -> 0 < N1 -> N1 <= N2 -> round_sig p N1 <= round_sig p N2.
Proof.
  intros Hp H1 Hle.
  pose proof (ndigits_mono N1 N2 H1 Hle) as Hn.
  pose proof (ndigits_pos N1) as Hp1.
  pose proof (ndigits_spec N1 ltac:(lia)) as [Lo1 Hi1].
  pose proof (ndigits_spec N2 ltac:(lia)) as [Lo2 Hi2].
  rewrite Z.abs_eq in Lo1, Hi1, Lo2, Hi2 by lia.
  destruct (Z_le_gt_dec (ndigits N2) p) as [S2|B2].
  - unfold round_sig.
    replace (ndigits N1 <=? p) with true by (symmetry; apply Z.leb_le; lia).
    replace (ndigits N2 <=? p) with true by (symmetry; apply Z.leb_le; lia).
    exact Hle.
  - pose proof (round_sig_bounds p N2 Hp ltac:(lia) ltac:(lia)) as [L2 _].
    destruct (Z_le_gt_dec (ndigits N1) p) as [S1|B1].
    + unfold round_sig at 1.
      replace (ndigits N1 <=? p) with true by (symmetry; apply Z.leb_le; lia).
      assert (10 ^ ndigits N1 <= 10 ^ (ndigits N2 - 1)) by (apply Z.pow_le_mono_r; lia).
      lia.
    + destruct (Z.eq_dec (ndigits N1) (ndigits N2)) as [E|NE].
      * unfold round_sig. rewrite E.
        replace (ndigits N2 <=? p) with false by (symmetry; apply Z.leb_gt; lia).
        assert (0 < 10 ^ (ndigits N2 - p)) by (apply pow10_pos; lia).
        pose proof (round_half_even_mono N1 N2 _ H Hle). nia.
      * pose proof (round_sig_bounds p N1 Hp ltac:(lia) ltac:(lia)) as [_ U1].
        assert (10 ^ ndigits N1 <= 10 ^ (ndigits N2 - 1)) by (apply Z.pow_le_mono_r; lia).
        lia.
Qed.

Lemma round_sig_zero (p : Z) : 1 <= p -> round_sig p 0 = 0.
Proof.
  intros Hp. unfold round_sig. change (ndigits 0) with 1.
  replace (1 <=? p) with true by (symmetry; apply Z.leb_le; lia). reflexivity.
Qed.

Lemma round_sig_mono (p N1 N2 : Z) :
  1 <= p -> N1 <= N2 -> round_sig p N1 <= round_sig p N2.
Proof.
  intros Hp Hle.
  destruct (Z_lt_le_dec 0 N1) as [P1|NP1].
  - now apply round_sig_mono_pos.
  - destruct (Z_le_gt_dec 0 N2) as [P2|N2'].
    + pose proof (round_sig_nonneg p N2 P2).
      pose proof (round_sig_nonneg p (- N1) ltac:(lia)) as H1.
      rewrite round_sig_opp in H1. lia.
    + pose proof (round_sig_mono_pos p (- N2) (- N1) Hp ltac:(lia) ltac:(lia)) as H.
      rewrite !round_sig_opp in H. lia.
Qed.

(** The context's rounding respects the order. *)
Lemma fix_mono (p : Z) (x y : t) : 1 <= p -> le x y -> le (fix_ p x) (fix_ p y).
Proof.
  intros Hp Hle.
  set (s := Z.min (expo x) (expo y)).
  pose proof (fix_expo_ge p x). pose proof (fix_expo_ge p y).
  apply (le_at_scale s); [lia|lia|].
  rewrite !fix_at_scale by lia.
  apply round_sig_mono; [exact Hp|].
  apply (le_at_scale s); [lia|lia|exact Hle].
Qed.

(** *** Products and quantization *)

Lemma mul_mono_l (p : Z) (x y m : t) :
  1 <= p -> 0 <= coef m -> le x y -> le (mul_prec p x m) (mul_prec p y m).
Proof.
  intros Hp Hm Hle. unfold mul_prec. apply fix_mono; [exact Hp|].
  set (s := Z.min (expo x) (expo y)).
  apply (le_at_scale (s + expo m)); cbn [expo]; [lia|lia|].
  unfold at_scale. cbn [coef expo].
  replace (expo x + expo m - (s + expo m)) with (expo x - s) by lia.
  replace (expo y + expo m - (s + expo m)) with (expo y - s) by lia.
  pose proof (proj1 (le_at_scale s x y ltac:(lia) ltac:(lia)) Hle) as H.
  unfold at_scale in H. nia.
Qed.

(** The coefficient a quantization leaves, read off any common exponent. *)
Lemma quantize_coef (d r : t) (e s : Z) :
  quantize d e = Ok r -> s <= e -> s <= expo d ->
  expo r = e /\ coef r = round_half_even (at_scale s d) (10 ^ (e - s)).
Proof.
  unfold quantize. intros H He Hd.
  assert (P : 0 < 10 ^ (e - s)) by (apply pow10_pos; lia).
  destruct (coef d =? 0) eqn:Z0.
  - apply Z.eqb_eq in Z0. injection H as <-. cbn [coef expo]. split; [reflexivity|].
    unfold at_scale. rewrite Z0, Z.mul_0_l. reflexivity.
  - destruct (prec <? expo d + ndigits (coef d) - e); [discriminate|].
    destruct (prec <? ndigits _); [discriminate|].
    injection H as <-. cbn [coef expo]. split; [reflexivity|].
    unfold at_scale. destruct (e <=? expo d) eqn:E.
    + apply Z.leb_le in E.
      replace (coef d * 10 ^ (expo d - s))
        with ((coef d * 10 ^ (expo d - e)) * 10 ^ (e - s)).
      2:{ rewrite <- Z.mul_assoc, <- pow10_split by lia. f_equal. f_equal. lia. }
      now rewrite round_half_even_exact.
    + apply Z.leb_gt in E.
      replace (10 ^ (e - s)) with (10 ^ (e - expo d) * 10 ^ (expo d - s)).
      2:{ rewrite <- pow10_split by lia. f_equal. lia. }
      rewrite round_half_even_scale by (apply pow10_pos; lia). reflexivity.
Qed.

Lemma quantize_mono (x y x' y' : t) (e : Z) :
  le x y -> quantize x e = Ok x' -> quantize y e = Ok y' -> le x' y'.
Proof.
  intros Hle Hx Hy.
  set (s := Z.min e (Z.min (expo x) (expo y))).
  destruct (quantize_coef x x' e s Hx ltac:(lia) ltac:(lia)) as [Ex Cx].
  destruct (quantize_coef y y' e s Hy ltac:(lia) ltac:(lia)) as [Ey Cy].
  apply (le_at_scale e); [lia|lia|].
  unfold at_scale. rewrite Ex, Ey, Z.sub_diag. change (10 ^ 0) with 1.
  rewrite !Z.mul_1_r, Cx, Cy.
  apply round_half_even_mono; [apply pow10_pos; lia|].
  apply (le_at_scale s); [lia|lia|exact Hle].
Qed.

(** A quantization to cents is the nearest amount in cents, the even one on
    a tie: with [u] the number of units of the value's last place in a cent,
    the result is within half a cent of the value. *)
Lemma quantize_nearest (d r : t) :
  quantize d (-2) = Ok r ->
  let s := Z.min (-2) (expo d) in
  let u := 10 ^ (-2 - s) in
  expo r = -2 /\
  2 * Z.abs (coef r * u - at_scale s d) <= u /\
  (2 * Z.abs (coef r * u - at_scale s d) = u -> Z.even (coef r) = true).
Proof.
  intros H. cbv zeta. set (s := Z.min (-2) (expo d)).
  destruct (quantize_coef d r (-2) s H ltac:(lia) ltac:(lia)) as [E C].
  split; [exact E|]. rewrite C.
  apply round_half_even_spec. apply pow10_pos. lia.
Qed.

(** *** Symmetry under a change of sign *)

Lemma fix_opp (p : Z) (d : t) : 1 <= p -> fix_ p (opp d) = opp (fix_ p d).
Proof.
  intros Hp. unfold fix_, opp. cbn [coef expo]. rewrite ndigits_opp.
  destruct (_ <=? _) eqn:E; [reflexivity|]. apply Z.leb_gt in E.
  rewrite round_half_even_opp, Z.abs_opp.
  destruct (Z.abs _ =? 10 ^ p) eqn:C; cbn [coef expo]; [|reflexivity].
  apply Z.eqb_eq in C. f_equal.
  assert (Hdiv : (10 | round_half_even (coef d) (10 ^ (ndigits (coef d) - p)))).
  { replace p with (1 + (p - 1)) in C at 2 by lia.
    rewrite pow10_split in C by lia. change (10 ^ 1) with 10 in C.
    destruct (Z.abs_spec (round_half_even (coef d) (10 ^ (ndigits (coef d) - p))))
      as [[_ A]|[_ A]];
      [ exists (10 ^ (p - 1)) | exists (- 10 ^ (p - 1)) ]; lia. }
  destruct Hdiv as [z Hz]. rewrite Hz.
  replace (- (z * 10)) with ((- z) * 10) by lia.
  rewrite !Z.div_mul by lia. reflexivity.
Qed.

(** *** Division *)

(** Comparing [2(r + dR)] with [dP], knowing how [2R] compares with [P]. *)
Lemma frac_below (d r R P : Z) :
  0 < d -> 0 <= r < d -> 2 * R + 2 <= P -> 2 * (r + d * R) < d * P.
Proof.
  intros Hd Hr H.
  assert (d * (2 * R + 2) <= d * P) by (apply Z.mul_le_mono_nonneg_l; lia).
  lia.
Qed.

Lemma frac_above (d r R P : Z) :
  0 < d -> 0 < r -> P <= 2 * R -> d * P < 2 * (r + d * R).
Proof.
  intros Hd Hr H.
  assert (d * P <= d * (2 * R)) by (apply Z.mul_le_mono_nonneg_l; lia).
  lia.
Qed.

Lemma frac_same (d R P : Z) :
  0 < d ->
  (2 * (0 + d * R) <? d * P) = (2 * R <? P) /\
  (d * P <? 2 * (0 + d * R)) = (P <? 2 * R).
Proof.
  intros Hd. replace (2 * (0 + d * R)) with (d * (2 * R)) by lia.
  split.
  - destruct (Z.ltb_spec (2 * R) P) as [L|L].
    + apply Z.ltb_lt. apply Z.mul_lt_mono_pos_l; lia.
    + apply Z.ltb_ge. apply Z.mul_le_mono_nonneg_l; lia.
  - destruct (Z.ltb_spec P (2 * R)) as [L|L].
    + apply Z.ltb_lt. apply Z.mul_lt_mono_pos_l; lia.
    + apply Z.ltb_ge. apply Z.mul_le_mono_nonneg_l; lia.
Qed.

(** Rounding away at least one digit of the sticky quotient rounds the exact
    quotient. *)
Lemma sticky_rne (n d k : Z) :
  0 < d -> 1 <= k -> rne (sticky n d) (10 ^ k) = rne n (d * 10 ^ k).
Proof.
  intros Hd Hk.
  assert (HP : 10 ^ k = 10 * 10 ^ (k - 1)).
  { replace k with (1 + (k - 1)) at 1 by lia. now rewrite pow10_split by lia. }
  assert (Hh : 0 < 10 ^ (k - 1)) by (apply pow10_pos; lia).
  set (h := 10 ^ (k - 1)) in *. set (P := 10 ^ k) in *.
  pose proof (Z.div_mod n d ltac:(lia)) as Dn.
  pose proof (Z.mod_pos_bound n d Hd) as Rn.
  assert (Hquo : n / (d * P) = n / d / P) by (rewrite Z.div_div by lia; reflexivity).
  assert (Hrem : n mod (d * P) = n mod d + d * ((n / d) mod P))
    by (apply Z.rem_mul_r; lia).
  set (q := n / d) in *. set (r := n mod d) in *.
  pose proof (Z.div_mod q P ltac:(lia)) as Dq.
  pose proof (Z.mod_pos_bound q P ltac:(lia)) as Rq.
  set (Q := q / P) in *. set (R := q mod P) in *.
  unfold rne at 2. rewrite Hquo, Hrem.
  unfold sticky. fold q r.
  destruct (r =? 0) eqn:Er.
  - apply Z.eqb_eq in Er. unfold rne. fold Q R. rewrite Er.
    destruct (frac_same d R P Hd) as [-> ->]. reflexivity.
  - apply Z.eqb_neq in Er.
    destruct (q mod 5 =? 0) eqn:E5.
    + apply Z.eqb_eq in E5.
      pose proof (Z.div_mod q 5 ltac:(lia)) as D5. rewrite E5 in D5.
      set (t5 := q / 5) in *.
      assert (HR : R = 5 * (t5 - 2 * h * Q)) by lia.
      set (R' := t5 - 2 * h * Q) in *.
      assert (Hq1 : (q + 1) / P = Q).
      { symmetry. apply (Z.div_unique _ _ _ (R + 1)); lia. }
      assert (Hr1 : (q + 1) mod P = R + 1).
      { symmetry. apply (Z.mod_unique _ _ Q); lia. }
      unfold rne. rewrite Hq1, Hr1.
      destruct (Z_lt_le_dec R' h) as [Lo|Hi].
      * pose proof (frac_below d r R P Hd ltac:(lia) ltac:(lia)).
        replace (2 * (R + 1) <? P) with true by (symmetry; apply Z.ltb_lt; lia).
        replace (2 * (r + d * R) <? d * P) with true by (symmetry; apply Z.ltb_lt; lia).
        reflexivity.
      * pose proof (frac_above d r R P Hd ltac:(lia) ltac:(lia)).
        replace (2 * (R + 1) <? P) with false by (symmetry; apply Z.ltb_ge; lia).
        replace (2 * (r + d * R) <? d * P) with false by (symmetry; apply Z.ltb_ge; lia).
        replace (P <? 2 * (R + 1)) with true by (symmetry; apply Z.ltb_lt; lia).
        replace (d * P <? 2 * (r + d * R)) with true by (symmetry; apply Z.ltb_lt; lia).
        reflexivity.
    + apply Z.eqb_neq in E5.
      assert (HR : R <> 5 * h).
      { intros HR. apply E5.
        replace q with ((2 * h * Q + h) * 5) by lia. apply Z.mod_mul. lia. }
      unfold rne. fold Q R.
      destruct (Z_lt_le_dec R (5 * h)) as [Lo|Hi].
      * pose proof (frac_below d r R P Hd ltac:(lia) ltac:(lia)).
        replace (2 * R <? P) with true by (symmetry; apply Z.ltb_lt; lia).
        replace (2 * (r + d * R) <? d * P) with true by (symmetry; apply Z.ltb_lt; lia).
        reflexivity.
      * pose proof (frac_above d r R P Hd ltac:(lia) ltac:(lia)).
        replace (2 * R <? P) with false by (symmetry; apply Z.ltb_ge; lia).
        replace (2 * (r + d * R) <? d * P) with false by (symmetry; apply Z.ltb_ge; lia).
        replace (P <? 2 * R) with true by (symmetry; apply Z.ltb_lt; lia).
        replace (d * P <? 2 * (r + d * R)) with true by (symmetry; apply Z.ltb_lt; lia).
        reflexivity.
Qed.

Lemma ndigits_ge (c p : Z) : 0 <= p -> 10 ^ p <= Z.abs c -> p < ndigits c.
Proof.
  intros Hp H. assert (c <> 0).
  { intros ->. pose proof (pow10_pos p Hp). cbn in H. lia. }
  pose proof (ndigits_spec c H0) as [_ Hi]. pose proof (ndigits_pos c).
  destruct (Z_lt_le_dec p (ndigits c)) as [L|G]; [exact L|].
  assert (10 ^ ndigits c <= 10 ^ p) by (apply Z.pow_le_mono_r; lia). lia.
Qed.

Lemma sticky_bounds (n d : Z) :
  0 < d -> n / d <= sticky n d <= n / d + 1.
Proof.
  intros Hd. unfold sticky.
  destruct (_ =? 0); [lia|]. destruct (_ =? 0); lia.
Qed.

Lemma ndigits_sticky (n d : Z) :
  0 < d -> 1 <= n / d -> ndigits (sticky n d) = ndigits (n / d).
Proof.
  intros Hd Hq. set (q := n / d) in *.
  pose proof (ndigits_spec q ltac:(lia)) as [Lo Hi].
  pose proof (ndigits_pos q) as Hm. set (m := ndigits q) in *.
  rewrite Z.abs_eq in Lo, Hi by lia.
  apply ndigits_unique; [|lia].
  assert (S : q <= sticky n d <= q + 1) by (apply sticky_bounds; lia).
  rewrite Z.abs_eq by lia. split; [lia|].
  unfold sticky in *. fold q in S |- *.
  destruct (n mod d =? 0); [lia|].
  destruct (q mod 5 =? 0) eqn:E5; [|lia].
  apply Z.eqb_eq in E5.
  pose proof (Z.div_mod q 5 ltac:(lia)) as D5. rewrite E5 in D5.
  assert (HP : 10 ^ m = 10 * 10 ^ (m - 1)).
  { replace m with (1 + (m - 1)) at 1 by lia. now rewrite pow10_split by lia. }
  lia.
Qed.

Lemma round_sig_sticky (p n d j : Z) :
  1 <= p -> 0 < d -> 10 ^ p * d <= n -> 0 <= j ->
  round_sig p (sticky n d * 10 ^ j) = round_quot p n d * 10 ^ j.
Proof.
  intros Hp Hd Hn Hj.
  assert (Hq : 10 ^ p <= n / d) by (apply Z.div_le_lower_bound; lia).
  pose proof (pow10_pos p ltac:(lia)) as Hpp.
  pose proof (ndigits_ge (n / d) p ltac:(lia) ltac:(lia)) as Hm.
  pose proof (sticky_bounds n d Hd) as Sb.
  unfold round_sig, round_quot.
  rewrite ndigits_mul_pow10 by lia.
  rewrite ndigits_sticky by lia.
  set (m := ndigits (n / d)) in *.
  replace (m + j <=? p) with false by (symmetry; apply Z.leb_gt; lia).
  replace (m + j - p) with ((m - p) + j) by lia.
  rewrite pow10_split by lia.
  rewrite round_half_even_scale by (apply pow10_pos; lia).
  rewrite round_half_even_nonneg_rne by (try apply pow10_pos; lia).
  rewrite sticky_rne by lia. lia.
Qed.

Lemma strip_zeros_spec (fuel : nat) : forall q e ideal q' e',
  strip_zeros fuel q e ideal = (q', e') -> e <= e' /\ q = q' * 10 ^ (e' - e).
Proof.
  induction fuel as [|k IH]; intros q e ideal q' e'; cbn [strip_zeros].
  - intros [= <- <-]. rewrite Z.sub_diag. cbn. lia.
  - destruct ((e <? ideal) && (q mod 10 =? 0)) eqn:C.
    + apply andb_true_iff in C. destruct C as [_ C]. apply Z.eqb_eq in C.
      intros H. destruct (IH _ _ _ _ _ H) as [Hle Hq]. split; [lia|].
      pose proof (Z.div_mod q 10 ltac:(lia)) as D. rewrite C in D.
      replace (e' - e) with (1 + (e' - (e + 1))) by lia.
      rewrite pow10_split by lia. change (10 ^ 1) with 10. lia.
    + intros [= <- <-]. rewrite Z.sub_diag. cbn. lia.
Qed.

Lemma ndigits_abs (c : Z) : ndigits (Z.abs c) = ndigits c.
Proof. unfold ndigits. now rewrite Z.abs_idemp. Qed.

Lemma div_operands (p : Z) (x y : t) :
  0 <= p -> coef x <> 0 -> coef y <> 0 ->
  0 < div_den p x y /\ 10 ^ p * div_den p x y <= div_num p x y.
Proof.
  intros Hp Hx Hy. unfold div_num, div_den, div_shift. rewrite !ndigits_abs.
  pose proof (ndigits_spec (coef x) Hx) as [Lx Ux].
  pose proof (ndigits_spec (coef y) Hy) as [Ly Uy].
  pose proof (ndigits_pos (coef x)). pose proof (ndigits_pos (coef y)).
  set (a := Z.abs (coef x)) in *. set (b := Z.abs (coef y)) in *.
  set (na := ndigits (coef x)) in *. set (nb := ndigits (coef y)) in *.
  destruct (0 <=? nb - na + p + 1) eqn:E.
  - apply Z.leb_le in E. split; [lia|].
    assert (10 ^ (na - 1) * 10 ^ (nb - na + p + 1) = 10 ^ p * 10 ^ nb).
    { rewrite <- !pow10_split by lia. f_equal. lia. }
    pose proof (pow10_pos (nb - na + p + 1) ltac:(lia)).
    pose proof (pow10_pos p ltac:(lia)). nia.
  - apply Z.leb_gt in E.
    pose proof (pow10_pos (- (nb - na + p + 1)) ltac:(lia)).
    split; [nia|].
    assert (10 ^ p * (10 ^ nb * 10 ^ (- (nb - na + p + 1))) = 10 ^ (na - 1)).
    { rewrite <- !pow10_split by lia. f_equal. lia. }
    pose proof (pow10_pos p ltac:(lia)). nia.
Qed.

Lemma div_prec_eq (p : Z) (x y : t) :
  coef x <> 0 -> coef y <> 0 ->
  div_prec p x y =
  let sg := Z.sgn (coef x) * Z.sgn (coef y) in
  let q := div_num p x y / div_den p x y in
  if div_num p x y mod div_den p x y =? 0 then
    let '(q', e') := strip_zeros (Z.to_nat (expo x - expo y - div_exp p x y)) q
                                 (div_exp p x y) (expo x - expo y) in
    Ok (fix_ p (mk (sg * q') e'))
  else Ok (fix_ p (mk (sg * (if q mod 5 =? 0 then q + 1 else q)) (div_exp p x y))).
Proof.
  intros Hx Hy. unfold div_prec.
  replace (coef y =? 0) with false by (symmetry; now apply Z.eqb_neq).
  replace (coef x =? 0) with false by (symmetry; now apply Z.eqb_neq).
  reflexivity.
Qed.

Lemma round_sig_sign (p sg N : Z) :
  sg = 1 \/ sg = -1 -> round_sig p (sg * N) = sg * round_sig p N.
Proof.
  intros [-> | ->].
  - now rewrite !Z.mul_1_l.
  - replace (-1 * N) with (- N) by lia. rewrite round_sig_opp. lia.
Qed.

Lemma sgn_unit (a b : Z) : a <> 0 -> b <> 0 -> Z.sgn a * Z.sgn b = 1 \/ Z.sgn a * Z.sgn b = -1.
Proof. intros; destruct (Z.sgn_spec a) as [[? ->]|[[? ->]|[? ->]]], (Z.sgn_spec b) as [[? ->]|[[? ->]|[? ->]]]; lia. Qed.

(** What a division returns: the exact quotient rounded to [p] digits. *)
Lemma div_value (p : Z) (x y : t) :
  1 <= p -> coef x <> 0 -> coef y <> 0 ->
  exists r,
    div_prec p x y = Ok r /\ div_exp p x y <= expo r /\
    at_scale (div_exp p x y) r
    = Z.sgn (coef x) * Z.sgn (coef y) * round_quot p (div_num p x y) (div_den p x y).
Proof.
  intros Hp Hx Hy. rewrite div_prec_eq by assumption. cbv zeta.
  destruct (div_operands p x y ltac:(lia) Hx Hy) as [Hd Hn].
  pose proof (sgn_unit _ _ Hx Hy) as Hsg.
  set (sg := Z.sgn (coef x) * Z.sgn (coef y)) in *.
  set (e := div_exp p x y). set (n := div_num p x y) in *. set (d := div_den p x y) in *.
  pose proof (round_sig_sticky p n d 0 Hp Hd Hn ltac:(lia)) as RS.
  change (10 ^ 0) with 1 in RS. rewrite !Z.mul_1_r in RS.
  assert (V : forall q' e', e <= e' -> sticky n d = q' * 10 ^ (e' - e) ->
              e <= expo (fix_ p (mk (sg * q') e')) /\
              at_scale e (fix_ p (mk (sg * q') e')) = sg * round_quot p n d).
  { intros q' e' He Hq'. split.
    - pose proof (fix_expo_ge p (mk (sg * q') e')). cbn [expo] in *. lia.
    - rewrite fix_at_scale by (cbn [expo]; lia).
      unfold at_scale. cbn [coef expo].
      rewrite <- Z.mul_assoc, <- Hq', round_sig_sign by assumption.
      now rewrite RS. }
  unfold sticky in V. fold n d in V.
  destruct (n mod d =? 0) eqn:Er.
  - destruct (strip_zeros _ _ _ _) as [q' e'] eqn:S.
    apply strip_zeros_spec in S. destruct S as [He Hq'].
    eexists. split; [reflexivity|]. apply V; assumption.
  - eexists. split; [reflexivity|]. apply V; [lia|].
    rewrite Z.sub_diag. change (10 ^ 0) with 1. lia.
Qed.

Lemma quot_digits (n d : Z) :
  0 < d -> d <= n ->
  10 ^ (ndigits (n / d) - 1) * d <= n < 10 ^ ndigits (n / d) * d.
Proof.
  intros Hd Hn.
  assert (Hq : 1 <= n / d) by (apply Z.div_le_lower_bound; lia).
  pose proof (ndigits_spec (n / d) ltac:(lia)) as [Lo Hi].
  rewrite Z.abs_eq in Lo, Hi by lia.
  pose proof (Z.mul_div_le n d Hd). pose proof (Z.mul_succ_div_gt n d Hd).
  split; nia.
Qed.

Lemma round_quot_bounds (p n d : Z) :
  1 <= p -> 0 < d -> 10 ^ p * d <= n ->
  10 ^ (ndigits (n / d) - 1) <= round_quot p n d <= 10 ^ ndigits (n / d).
Proof.
  intros Hp Hd Hn.
  pose proof (pow10_pos p ltac:(lia)) as Hpp.
  assert (Hq : 10 ^ p <= n / d) by (apply Z.div_le_lower_bound; lia).
  pose proof (ndigits_ge (n / d) p ltac:(lia) ltac:(lia)) as Hm.
  destruct (quot_digits n d Hd ltac:(nia)) as [Lo Hi].
  unfold round_quot. set (m := ndigits (n / d)) in *. set (k := m - p).
  assert (Hk : 0 < 10 ^ k) by (apply pow10_pos; unfold k; lia).
  assert (E1 : 10 ^ (m - 1) = 10 ^ (p - 1) * 10 ^ k).
  { rewrite <- pow10_split by (unfold k; lia). f_equal. unfold k; lia. }
  assert (E2 : 10 ^ m = 10 ^ p * 10 ^ k).
  { rewrite <- pow10_split by (unfold k; lia). f_equal. unfold k; lia. }
  assert (Hdk : 0 < d * 10 ^ k) by nia.
  pose proof (rne_mono (10 ^ (p - 1) * (d * 10 ^ k)) n (d * 10 ^ k) Hdk ltac:(nia)) as M1.
  pose proof (rne_mono n (10 ^ p * (d * 10 ^ k)) (d * 10 ^ k) Hdk ltac:(nia)) as M2.
  rewrite rne_exact in M1, M2 by lia.
  rewrite E1, E2. split; nia.
Qed.

Lemma round_quot_value_mono (p n1 d1 e1 n2 d2 e2 s : Z) :
  1 <= p -> 0 < d1 -> 0 < d2 -> 10 ^ p * d1 <= n1 -> 10 ^ p * d2 <= n2 ->
  s <= e1 -> s <= e2 ->
  n1 * d2 * 10 ^ (e1 - s) <= n2 * d1 * 10 ^ (e2 - s) ->
  round_quot p n1 d1 * 10 ^ (e1 - s) <= round_quot p n2 d2 * 10 ^ (e2 - s).
Proof.
  intros Hp Hd1 Hd2 Hn1 Hn2 He1 He2 H.
  pose proof (pow10_pos p ltac:(lia)) as Hpp.
  assert (Hq1 : 10 ^ p <= n1 / d1) by (apply Z.div_le_lower_bound; lia).
  assert (Hq2 : 10 ^ p <= n2 / d2) by (apply Z.div_le_lower_bound; lia).
  pose proof (ndigits_ge (n1 / d1) p ltac:(lia) ltac:(lia)) as Hm1.
  pose proof (ndigits_ge (n2 / d2) p ltac:(lia) ltac:(lia)) as Hm2.
  destruct (quot_digits n1 d1 Hd1 ltac:(nia)) as [Lo1 Hi1].
  destruct (quot_digits n2 d2 Hd2 ltac:(nia)) as [Lo2 Hi2].
  pose proof (round_quot_bounds p n1 d1 Hp Hd1 Hn1) as [_ U1].
  pose proof (round_quot_bounds p n2 d2 Hp Hd2 Hn2) as [L2 _].
  set (m1 := ndigits (n1 / d1)) in *. set (m2 := ndigits (n2 / d2)) in *.
  set (A := e1 - s) in *. set (B := e2 - s) in *.
  assert (HA : 0 <= A) by (unfold A; lia). assert (HB : 0 <= B) by (unfold B; lia).
  pose proof (pow10_pos A HA) as PA. pose proof (pow10_pos B HB) as PB.
  (* the magnitudes are ordered *)
  assert (HM : m1 + A <= m2 + B).
  { destruct (Z_le_gt_dec (m1 + A) (m2 + B)) as [L|G]; [exact L|]. exfalso.
    assert (P1 : 10 ^ (m2 + B) <= 10 ^ (m1 - 1 + A)) by (apply Z.pow_le_mono_r; lia).
    rewrite !pow10_split in P1 by lia.
    assert (n2 * d1 * 10 ^ B < 10 ^ m2 * 10 ^ B * (d1 * d2)) by nia.
    assert (10 ^ (m1 - 1) * 10 ^ A * (d1 * d2) <= n1 * d2 * 10 ^ A) by nia.
    assert (10 ^ m2 * 10 ^ B * (d1 * d2) <= 10 ^ (m1 - 1) * 10 ^ A * (d1 * d2))
      by (apply Z.mul_le_mono_nonneg_r; nia).
    lia. }
  destruct (Z.eq_dec (m1 + A) (m2 + B)) as [E|NE].
  - unfold round_quot. fold m1 m2.
    set (k1 := m1 - p). set (k2 := m2 - p).
    assert (Hk1 : 0 < 10 ^ k1) by (apply pow10_pos; unfold k1; lia).
    assert (Hk2 : 0 < 10 ^ k2) by (apply pow10_pos; unfold k2; lia).
    assert (W : 10 ^ k1 * 10 ^ A = 10 ^ k2 * 10 ^ B).
    { rewrite <- !pow10_split by (unfold k1, k2; lia). f_equal. unfold k1, k2; lia. }
    assert (F : rne n1 (d1 * 10 ^ k1) <= rne n2 (d2 * 10 ^ k2)).
    { apply rne_frac_mono; [nia|nia|].
      assert (0 < 10 ^ k1 * 10 ^ A) by nia.
      apply (Z.mul_le_mono_pos_r _ _ (10 ^ k1 * 10 ^ A)); [assumption|].
      replace (n1 * (d2 * 10 ^ k2) * (10 ^ k1 * 10 ^ A))
        with (n1 * d2 * 10 ^ A * (10 ^ k1 * 10 ^ k2)) by ring.
      rewrite W.
      replace (n2 * (d1 * 10 ^ k1) * (10 ^ k2 * 10 ^ B))
        with (n2 * d1 * 10 ^ B * (10 ^ k1 * 10 ^ k2)) by ring.
      apply Z.mul_le_mono_nonneg_r; [nia|exact H]. }
    rewrite <- !Z.mul_assoc, W.
    apply Z.mul_le_mono_nonneg_r; [nia|exact F].
  - assert (P1 : 10 ^ (m1 + A) <= 10 ^ (m2 - 1 + B)) by (apply Z.pow_le_mono_r; lia).
    rewrite !pow10_split in P1 by lia.
    assert (round_quot p n1 d1 * 10 ^ A <= 10 ^ m1 * 10 ^ A)
      by (apply Z.mul_le_mono_nonneg_r; lia).
    assert (10 ^ (m2 - 1) * 10 ^ B <= round_quot p n2 d2 * 10 ^ B)
      by (apply Z.mul_le_mono_nonneg_r; lia).
    lia.
Qed.

Lemma div_operands_form (p : Z) (x y : t) :
  exists sp sn,
    0 <= sp /\ 0 <= sn /\ sp - sn = div_shift p x y /\
    div_num p x y = Z.abs (coef x) * 10 ^ sp /\
    div_den p x y = Z.abs (coef y) * 10 ^ sn.
Proof.
  unfold div_num, div_den. destruct (0 <=? div_shift p x y) eqn:E.
  - apply Z.leb_le in E. exists (div_shift p x y), 0.
    change (10 ^ 0) with 1. repeat split; lia.
  - apply Z.leb_gt in E. exists 0, (- div_shift p x y).
    change (10 ^ 0) with 1. repeat split; lia.
Qed.

Lemma le_pos_r (x y : t) : le x y -> 0 < coef x -> 0 < coef y.
Proof.
  intros Hle Hx. set (s := Z.min (expo x) (expo y)).
  pose proof (proj1 (le_at_scale s x y ltac:(lia) ltac:(lia)) Hle) as H.
  unfold at_scale in H.
  pose proof (pow10_pos (expo x - s) ltac:(lia)).
  pose proof (pow10_pos (expo y - s) ltac:(lia)). nia.
Qed.

Lemma div_mono_pos (p : Z) (x1 x2 y r1 r2 : t) :
  1 <= p -> 0 < coef x1 -> 0 < coef y -> le x1 x2 ->
  div_prec p x1 y = Ok r1 -> div_prec p x2 y = Ok r2 -> le r1 r2.
Proof.
  intros Hp Hx1 Hy Hle D1 D2.
  pose proof (le_pos_r x1 x2 Hle Hx1) as Hx2.
  destruct (div_value p x1 y Hp ltac:(lia) ltac:(lia)) as (r1' & E1 & G1 & V1).
  destruct (div_value p x2 y Hp ltac:(lia) ltac:(lia)) as (r2' & E2 & G2 & V2).
  rewrite D1 in E1. rewrite D2 in E2. injection E1 as <-. injection E2 as <-.
  rewrite !Z.sgn_pos, !Z.mul_1_l in V1, V2 by lia.
  destruct (div_operands p x1 y ltac:(lia) ltac:(lia) ltac:(lia)) as [Hd1 Hn1].
  destruct (div_operands p x2 y ltac:(lia) ltac:(lia) ltac:(lia)) as [Hd2 Hn2].
  destruct (div_operands_form p x1 y) as (sp1 & sn1 & P1 & N1 & S1 & Fn1 & Fd1).
  destruct (div_operands_form p x2 y) as (sp2 & sn2 & P2 & N2 & S2 & Fn2 & Fd2).
  set (e1 := div_exp p x1 y) in *. set (e2 := div_exp p x2 y) in *.
  set (s := Z.min e1 e2).
  apply (le_at_scale s); [lia|lia|].
  rewrite (at_scale_shift s e1 r1), (at_scale_shift s e2 r2) by lia.
  rewrite V1, V2.
  apply round_quot_value_mono; try assumption; try lia.
  rewrite Fn1, Fn2, Fd1, Fd2. rewrite !Z.abs_eq by lia.
  (* the order of the dividends, at an exponent below everything in sight *)
  set (s0 := s + expo y - sn1 - sn2).
  assert (X1 : expo x1 - s0 = sp1 + sn2 + (e1 - s)) by (unfold s0, e1, div_exp; lia).
  assert (X2 : expo x2 - s0 = sp2 + sn1 + (e2 - s)) by (unfold s0, e2, div_exp; lia).
  pose proof (proj1 (le_at_scale s0 x1 x2 ltac:(lia) ltac:(lia)) Hle) as H.
  unfold at_scale in H. rewrite X1, X2 in H.
  rewrite !pow10_split in H by lia.
  pose proof (pow10_pos sp1 P1). pose proof (pow10_pos sn1 N1).
  pose proof (pow10_pos sp2 P2). pose proof (pow10_pos sn2 N2).
  replace (coef x1 * 10 ^ sp1 * (coef y * 10 ^ sn2) * 10 ^ (e1 - s))
    with (coef y * (coef x1 * (10 ^ sp1 * 10 ^ sn2 * 10 ^ (e1 - s)))) by ring.
  replace (coef x2 * 10 ^ sp2 * (coef y * 10 ^ sn1) * 10 ^ (e2 - s))
    with (coef y * (coef x2 * (10 ^ sp2 * 10 ^ sn1 * 10 ^ (e2 - s)))) by ring.
  apply Z.mul_le_mono_nonneg_l; [lia|exact H].
Qed.

Lemma div_opp (p : Z) (x y : t) :
  1 <= p ->
  div_prec p (opp x) y
  = match div_prec p x y with Ok r => Ok (opp r) | Raise e => Raise e end.
Proof.
  intros Hp. destruct x as [cx ex]. unfold div_prec. cbn [opp coef expo].
  rewrite Z.abs_opp, Z.sgn_opp. set (x := mk cx ex).
  change cx with (coef x). change ex with (expo x).
  replace (- coef x =? 0) with (coef x =? 0)
    by (destruct (Z.eqb_spec (coef x) 0), (Z.eqb_spec (- coef x) 0); lia || reflexivity).
  destruct (coef y =? 0); [destruct (coef x =? 0); reflexivity|].
  destruct (coef x =? 0); [reflexivity|].
  cbv zeta.
  destruct (_ =? 0).
  - destruct (strip_zeros _ _ _ _) as [q' e'].
    rewrite <- fix_opp by exact Hp. unfold opp. cbn [coef expo].
    do 3 f_equal. lia.
  - rewrite <- fix_opp by exact Hp. unfold opp. cbn [coef expo].
    do 3 f_equal. lia.
Qed.

Lemma le_opp (x y : t) : le x y -> le (opp y) (opp x).
Proof.
  intros H. set (s := Z.min (expo x) (expo y)).
  apply (le_at_scale s); cbn [opp expo]; [lia|lia|].
  pose proof (proj1 (le_at_scale s x y ltac:(lia) ltac:(lia)) H) as H'.
  unfold at_scale in *. cbn [opp coef expo]. lia.
Qed.

Lemma opp_involutive (x : t) : opp (opp x) = x.
Proof. destruct x. unfold opp. cbn. f_equal. lia. Qed.

Lemma div_sign (p : Z) (x y r : t) :
  1 <= p -> 0 < coef y -> div_prec p x y = Ok r ->
  (0 <= coef x -> 0 <= coef r) /\ (coef x <= 0 -> coef r <= 0).
Proof.
  intros Hp Hy. unfold div_prec.
  replace (coef y =? 0) with false by (symmetry; apply Z.eqb_neq; lia).
  destruct (coef x =? 0) eqn:Ex; [intros [= <-]; cbn; lia|].
  apply Z.eqb_neq in Ex. cbv zeta. rewrite (Z.sgn_pos (coef y)), Z.mul_1_r by lia.
  assert (F : forall q e, 0 <= q ->
              (0 <= coef x -> 0 <= coef (fix_ p (mk (Z.sgn (coef x) * q) e))) /\
              (coef x <= 0 -> coef (fix_ p (mk (Z.sgn (coef x) * q) e)) <= 0)).
  { intros q e Hq. split; intros Hs.
    - apply fix_nonneg. cbn [coef]. rewrite Z.sgn_pos by lia. lia.
    - rewrite Z.sgn_neg by lia.
      replace (mk (-1 * q) e) with (opp (mk q e)) by (unfold opp; cbn; f_equal; lia).
      rewrite fix_opp by exact Hp. cbn [opp coef].
      pose proof (fix_nonneg p (mk q e) Hq). lia. }
  destruct (div_operands p x y ltac:(lia) Ex ltac:(lia)) as [Hd Hn].
  assert (Hn0 : 0 <= div_num p x y).
  { pose proof (pow10_pos p ltac:(lia)). nia. }
  assert (Hq : 0 <= div_num p x y / div_den p x y) by (apply Z.div_pos; lia).
  fold (div_shift p x y). fold (div_num p x y). fold (div_den p x y).
  destruct (_ =? 0).
  - destruct (strip_zeros _ _ _ _) as [q' e'] eqn:S.
    apply strip_zeros_spec in S. destruct S as [He Hq'].
    intros [= <-]. apply F.
    pose proof (pow10_pos (e' - (expo x - expo y - div_shift p x y)) ltac:(lia)). nia.
  - intros [= <-]. apply F. destruct (_ =? 0); lia.
Qed.

(** Dividing by a positive number respects the order. *)
Lemma div_mono (p : Z) (x1 x2 y r1 r2 : t) :
  1 <= p -> 0 < coef y -> le x1 x2 ->
  div_prec p x1 y = Ok r1 -> div_prec p x2 y = Ok r2 -> le r1 r2.
Proof.
  intros Hp Hy Hle D1 D2.
  destruct (Z_lt_le_dec 0 (coef x1)) as [P1|N1].
  - exact (div_mono_pos p x1 x2 y r1 r2 Hp P1 Hy Hle D1 D2).
  - destruct (Z_le_gt_dec 0 (coef x2)) as [P2|N2].
    + apply le_of_signs.
      * now apply (div_sign p x1 y r1 Hp Hy D1).
      * now apply (div_sign p x2 y r2 Hp Hy D2).
    + rewrite <- (opp_involutive r1), <- (opp_involutive r2).
      apply le_opp.
      apply (div_mono_pos p (opp x2) (opp x1) y); try assumption.
      * cbn [opp coef]. lia.
      * now apply le_opp.
      * rewrite div_opp, D2 by exact Hp. reflexivity.
      * rewrite div_opp, D1 by exact Hp. reflexivity.
Qed.

(** *** Values of at least one *)

Lemma fix_one (p : Z) : 1 <= p -> fix_ p (of_Z 1) = of_Z 1.
Proof.
  intros Hp. apply fix_small; [|exact Hp]. cbn [of_Z coef Z.abs].
  replace p with (1 + (p - 1)) by lia. rewrite pow10_split by lia.
  pose proof (pow10_pos (p - 1) ltac:(lia)). change (10 ^ 1) with 10. lia.
Qed.

Lemma fix_ge_one (p : Z) (x : t) : 1 <= p -> le (of_Z 1) x -> le (of_Z 1) (fix_ p x).
Proof.
  intros Hp H. rewrite <- (fix_one p Hp). now apply fix_mono.
Qed.

Lemma mul_ge_one (p : Z) (x y : t) :
  1 <= p -> le (of_Z 1) x -> le (of_Z 1) y -> le (of_Z 1) (mul_prec p x y).
Proof.
  intros Hp Hx Hy. unfold mul_prec. apply fix_ge_one; [exact Hp|].
  set (sx := Z.min 0 (expo x)). set (sy := Z.min 0 (expo y)).
  pose proof (proj1 (le_at_scale sx (of_Z 1) x ltac:(unfold of_Z; cbn [expo]; lia) ltac:(lia)) Hx) as Ax.
  pose proof (proj1 (le_at_scale sy (of_Z 1) y ltac:(unfold of_Z; cbn [expo]; lia) ltac:(lia)) Hy) as Ay.
  apply (le_at_scale (sx + sy)); cbn [of_Z expo]; [lia|lia|].
  unfold at_scale in *. cbn [of_Z coef expo] in *.
  rewrite Z.mul_1_l in *.
  replace (0 - (sx + sy)) with ((0 - sx) + (0 - sy)) by lia.
  replace (expo x + expo y - (sx + sy)) with ((expo x - sx) + (expo y - sy)) by lia.
  rewrite !pow10_split by lia.
  pose proof (pow10_pos (0 - sx) ltac:(lia)). pose proof (pow10_pos (0 - sy) ltac:(lia)).
  pose proof (pow10_pos (expo x - sx) ltac:(lia)).
  pose proof (pow10_pos (expo y - sy) ltac:(lia)).
  replace (coef x * coef y * (10 ^ (expo x - sx) * 10 ^ (expo y - sy)))
    with ((coef x * 10 ^ (expo x - sx)) * (coef y * 10 ^ (expo y - sy))) by ring.
  apply Z.mul_le_mono_nonneg; lia.
Qed.

Lemma pow_uint_ge_one (w : Z) (x : t) (n : positive) :
  1 <= w -> le (of_Z 1) x -> le (of_Z 1) (pow_uint w x n).
Proof.
  intros Hw Hx. induction n as [n IH|n IH|]; cbn [pow_uint].
  - apply mul_ge_one; [exact Hw| |exact Hx]. now apply mul_ge_one.
  - now apply mul_ge_one.
  - exact Hx.
Qed.

Lemma add_one_ge_one (p : Z) (m : t) :
  1 <= p -> 0 <= coef m -> le (of_Z 1) (add_prec p (of_Z 1) m).
Proof.
  intros Hp Hm. unfold add_prec. apply fix_ge_one; [exact Hp|].
  unfold add_exact. cbn [of_Z coef expo].
  set (e := Z.min 0 (expo m)).
  apply (le_at_scale e); cbn [of_Z expo]; [lia|lia|].
  unfold at_scale. cbn [of_Z coef expo]. rewrite Z.sub_diag. change (10 ^ 0) with 1.
  pose proof (pow10_pos (expo m - e) ltac:(lia)).
  pose proof (pow10_pos (0 - e) ltac:(lia)). nia.
Qed.

Lemma sub_one_nonneg (p : Z) (f : t) :
  le (of_Z 1) f -> 0 <= coef (sub_prec p f (of_Z 1)).
Proof.
  intros Hf. unfold sub_prec, add_prec. apply fix_nonneg.
  unfold add_exact. cbn [opp of_Z coef expo].
  set (e := Z.min (expo f) 0).
  pose proof (proj1 (le_at_scale e (of_Z 1) f ltac:(unfold of_Z; cbn [expo]; lia) ltac:(lia)) Hf) as H.
  unfold at_scale in *. cbn [opp of_Z coef expo] in *. lia.
Qed.

Lemma pow_ge_one (x f : t) (n : Z) :
  0 < n -> le (of_Z 1) x -> pow x n = Ok f -> le (of_Z 1) f.
Proof.
  intros Hn Hx. unfold pow.
  assert (Hb : 0 < coef x) by (apply (le_pos_r _ _ Hx); unfold of_Z; cbn [coef]; lia).
  replace (coef x =? 0) with false by (symmetry; apply Z.eqb_neq; lia).
  destruct n as [|k|k]; try lia. cbv zeta.
  pose proof (ndigits_pos (Z.pos k)) as Hd.
  assert (Hw : 1 <= prec + ndigits (Z.pos k) + 2) by (unfold prec; lia).
  revert Hw. generalize (prec + ndigits (Z.pos k) + 2). intros w Hw [= <-].
  apply fix_ge_one; [unfold prec; lia|]. now apply pow_uint_ge_one.
Qed.

(** *** When the operations return *)

Lemma div_returns (p : Z) (x y : t) :
  coef y <> 0 -> exists r, div_prec p x y = Ok r.
Proof.
  intros Hy. unfold div_prec.
  replace (coef y =? 0) with false by (symmetry; now apply Z.eqb_neq).
  destruct (coef x =? 0); [eauto|]. cbv zeta.
  destruct (_ =? 0); [destruct (strip_zeros _ _ _ _)|]; eauto.
Qed.

Lemma pow_returns (x : t) (n : Z) : 0 < n -> exists f, pow x n = Ok f.
Proof.
  intros Hn. unfold pow. replace (0 <? n) with true by (symmetry; now apply Z.ltb_lt).
  destruct (coef x =? 0); [eauto|]. destruct n; try lia. eauto.
Qed.

Lemma abs_round_half_even (c p : Z) :
  0 < p -> Z.abs (round_half_even c p) = rne (Z.abs c) p.
Proof.
  intros Hp. rewrite round_half_even_rne.
  pose proof (rne_nonneg (Z.abs c) p ltac:(lia) Hp).
  destruct (Z.eq_dec c 0) as [->|Hc].
  - cbn [Z.sgn Z.abs Z.mul]. unfold rne. rewrite Zmod_0_l, Zdiv_0_l.
    replace (2 * 0 <? p) with true by (symmetry; apply Z.ltb_lt; lia). reflexivity.
  - destruct (Z.sgn_spec c) as [[? ->]|[[? ->]|[? ->]]]; lia.
Qed.

(** A quantization returns when the value is below [10^(prec + e - 1)]:
    for cents and 28 digits, below [10^25]. *)
Lemma quantize_returns (d : t) (e : Z) :
  coef d = 0 \/ expo d + ndigits (coef d) - e < prec ->
  exists r, quantize d e = Ok r.
Proof.
  intros H. unfold quantize.
  destruct (coef d =? 0) eqn:Z0; [eauto|]. apply Z.eqb_neq in Z0.
  destruct H as [H|H]; [contradiction|].
  replace (prec <? expo d + ndigits (coef d) - e) with false
    by (symmetry; apply Z.ltb_ge; lia).
  pose proof (ndigits_pos (coef d)) as Hn.
  pose proof (ndigits_spec (coef d) Z0) as [_ Hi].
  set (nd := ndigits (coef d)) in *.
  match goal with |- context [prec <? ndigits ?c] => assert (B : ndigits c <= prec) end.
  { destruct (e <=? expo d) eqn:E.
    - apply Z.leb_le in E. rewrite ndigits_mul_pow10 by lia. fold nd. lia.
    - apply Z.leb_gt in E. set (k := e - expo d).
      assert (Hk : 0 < 10 ^ k) by (apply pow10_pos; unfold k; lia).
      set (j := Z.max (nd - k) 0).
      assert (Hj : 10 ^ nd <= 10 ^ j * 10 ^ k).
      { rewrite <- pow10_split by (unfold j, k; lia).
        apply Z.pow_le_mono_r; unfold j, k; lia. }
      pose proof (rne_mono (Z.abs (coef d)) (10 ^ j * 10 ^ k) (10 ^ k) Hk ltac:(lia)) as M.
      rewrite rne_exact in M by lia.
      apply (Z.le_trans _ (j + 1)); [|unfold j, k, prec in *; lia].
      apply ndigits_le; [|unfold j; lia].
      rewrite abs_round_half_even by exact Hk.
      rewrite pow10_split by (unfold j; lia). change (10 ^ 1) with 10.
      pose proof (pow10_pos j ltac:(unfold j; lia)). lia. }
  replace (prec <? ndigits _) with false by (symmetry; apply Z.ltb_ge; exact B).
  eauto.
Qed.

Lemma lt_at_scale (s : Z) (x y : t) :
  s <= expo x -> s <= expo y -> (ltb x y = true <-> at_scale s x < at_scale s y).
Proof.
  intros Hx Hy. pose proof (le_at_scale s y x Hy Hx) as L.
  unfold le, leb in L. destruct (ltb x y); cbn [negb] in L; split; intros H.
  - destruct (Z_lt_le_dec (at_scale s x) (at_scale s y)) as [A|A]; [exact A|].
    apply L in A. discriminate.
  - reflexivity.
  - discriminate.
  - exfalso. assert (at_scale s y <= at_scale s x) by (apply L; reflexivity). lia.
Qed.

(** Half of a positive decimal of fewer than [prec] digits is exact. *)
Lemma half_exact (x : t) :
  0 < coef x -> ndigits (coef x) < prec ->
  exists h,
    Decimal.div x (of_Z 2) = Ok h /\
    div_exp prec x (of_Z 2) <= expo h /\
    div_exp prec x (of_Z 2) <= expo x /\
    2 * at_scale (div_exp prec x (of_Z 2)) h = at_scale (div_exp prec x (of_Z 2)) x.
Proof.
  intros Hx Hn.
  assert (Hp : 1 <= prec) by (unfold prec; lia).
  destruct (div_value prec x (of_Z 2) Hp ltac:(lia) ltac:(unfold of_Z; cbn [coef]; lia))
    as (h & D & G & V).
  exists h. split; [exact D|]. split; [exact G|].
  pose proof (ndigits_pos (coef x)) as Hn1.
  assert (Hs : div_shift prec x (of_Z 2) = 30 - ndigits (coef x)).
  { unfold div_shift, of_Z. cbn [coef]. rewrite !ndigits_abs.
    change (ndigits 2) with 1. unfold prec. lia. }
  assert (He : div_exp prec x (of_Z 2) = expo x - (30 - ndigits (coef x))).
  { unfold div_exp. rewrite Hs. unfold of_Z. cbn [expo]. lia. }
  split; [unfold prec in Hn; lia|].
  rewrite V. rewrite (Z.sgn_pos (coef x)) by lia.
  change (Z.sgn (coef (of_Z 2))) with 1. rewrite !Z.mul_1_l.
  unfold at_scale. rewrite He.
  replace (expo x - (expo x - (30 - ndigits (coef x)))) with (30 - ndigits (coef x)) by lia.
  assert (Hnum : div_num prec x (of_Z 2) = coef x * 10 ^ (30 - ndigits (coef x))).
  { unfold div_num. rewrite Hs.
    replace (0 <=? 30 - ndigits (coef x)) with true
      by (symmetry; apply Z.leb_le; unfold prec in Hn; lia).
    rewrite Z.abs_eq by lia. reflexivity. }
  assert (Hden : div_den prec x (of_Z 2) = 2).
  { unfold div_den. rewrite Hs.
    replace (0 <=? 30 - ndigits (coef x)) with true
      by (symmetry; apply Z.leb_le; unfold prec in Hn; lia).
    reflexivity. }
  rewrite Hnum, Hden.
  set (sh := 30 - ndigits (coef x)). set (N := coef x * 10 ^ sh).
  assert (Hsh : 3 <= sh) by (unfold sh, prec in *; lia).
  (* N has 30 digits and is even *)
  pose proof (ndigits_spec (coef x) ltac:(lia)) as [Lo Hi].
  rewrite Z.abs_eq in Lo, Hi by lia.
  assert (E29 : 10 ^ (ndigits (coef x) - 1) * 10 ^ sh = 10 ^ 29).
  { rewrite <- pow10_split by lia. f_equal. unfold sh. lia. }
  assert (E30 : 10 ^ ndigits (coef x) * 10 ^ sh = 10 ^ 30).
  { rewrite <- pow10_split by lia. f_equal. unfold sh. lia. }
  pose proof (pow10_pos sh ltac:(lia)) as Psh.
  assert (BN : 10 ^ 29 <= N < 10 ^ 30) by (unfold N; nia).
  assert (EN : N = 2 * (coef x * 5 * 10 ^ (sh - 1))).
  { unfold N. replace sh with (1 + (sh - 1)) at 1 by lia.
    rewrite pow10_split by lia. change (10 ^ 1) with 10. ring. }
  assert (Q : N / 2 = coef x * 5 * 10 ^ (sh - 1)).
  { rewrite EN at 1. rewrite Z.mul_comm, Z.div_mul by lia. reflexivity. }
  unfold round_quot. rewrite Q. set (H5 := coef x * 5 * 10 ^ (sh - 1)) in *.
  assert (BH : 10 ^ 28 <= H5 < 10 ^ 30).
  { change (10 ^ 29) with (10 * 10 ^ 28) in BN. lia. }
  assert (K1 : prec < ndigits H5).
  { apply ndigits_ge; [unfold prec; lia|]. rewrite Z.abs_eq by lia. exact (proj1 BH). }
  assert (K2 : ndigits H5 <= 30).
  { apply ndigits_le; [|lia]. rewrite Z.abs_eq by lia. exact (proj2 BH). }
  set (k := ndigits H5 - prec).
  assert (Hk : 1 <= k <= 2) by (unfold k, prec in *; lia).
  assert (EH : N = (coef x * 5 * 10 ^ (sh - 1 - k)) * (2 * 10 ^ k)).
  { rewrite EN. unfold H5. replace (sh - 1) with ((sh - 1 - k) + k) at 1 by lia.
    rewrite pow10_split by lia. ring. }
  pose proof (pow10_pos k ltac:(lia)).
  rewrite EH at 1. rewrite rne_exact by lia.
  rewrite <- Z.mul_assoc, <- pow10_split by lia.
  replace (sh - 1 - k + k) with (sh - 1) by lia. fold H5. lia.
Qed.

End RoundingFacts.

(** ** Loan issuance *)

(** *** Columns *)

(** Halves away from zero: half a unit at most, and away from zero on a
    tie. *)
Lemma round_half_away_spec (c p : Z) :
  0 < p ->
  2 * Z.abs (round_half_away c p * p - c) <= p /\
  (2 * Z.abs (round_half_away c p * p - c) = p ->
   Z.abs c < Z.abs (round_half_away c p * p)).
Proof.
  intros Hp. unfold round_half_away.
  pose proof (Z.div_mod (2 * Z.abs c + p) (2 * p) ltac:(lia)) as D.
  pose proof (Z.mod_pos_bound (2 * Z.abs c + p) (2 * p) ltac:(lia)) as B.
  set (q := (2 * Z.abs c + p) / (2 * p)) in *.
  set (m := (2 * Z.abs c + p) mod (2 * p)) in *.
  assert (Hq : 0 <= q) by (apply Z.div_pos; lia).
  assert (E : 2 * (q * p) = 2 * Z.abs c + p - m) by lia.
  destruct (Z.sgn_spec c) as [[Hc Hs]|[[Hc Hs]|[Hc Hs]]]; rewrite Hs.
  - rewrite Z.abs_eq in * by lia. split; [lia|]. intros T.
    rewrite Z.abs_eq by nia. lia.
  - subst c. change (Z.abs 0) with 0 in *.
    assert (q = 0) by nia. subst q. rewrite H. cbn. lia.
  - rewrite (Z.abs_neq c) in * by lia. split; [lia|]. intros T.
    rewrite Z.abs_neq by nia. lia.
Qed.

Section ColumnFacts.

Variable backend : Backend.

(** A column refuses a value in one way. *)
Lemma to_column_raises (md dp : Z) (v : decimal) (e : exn) :
  to_column backend md dp v = Raise e -> e = column_error backend.
Proof.
  unfold to_column. destruct (10 ^ md <=? _); [|discriminate].
  intros [= <-]. reflexivity.
Qed.

(** What a column holds has the places of the column and fits its digits. *)
Lemma to_column_format (md dp : Z) (v r : decimal) :
  to_column backend md dp v = Ok r ->
  Decimal.expo r = - dp /\ Z.abs (Decimal.coef r) < 10 ^ md.
Proof.
  unfold to_column. destruct (10 ^ md <=? _) eqn:E; [discriminate|].
  intros [= <-]. cbn [Decimal.expo Decimal.coef]. apply Z.leb_gt in E.
  split; [reflexivity | exact E].
Qed.

(** A value that has the places of the column is stored as it is, when it
    fits. *)
Lemma to_column_fits (md dp : Z) (v : decimal) :
  Decimal.expo v = - dp -> Z.abs (Decimal.coef v) < 10 ^ md ->
  to_column backend md dp v = Ok v.
Proof.
  intros He Hc. unfold to_column. rewrite He, Z.leb_refl, Z.sub_diag.
  change (10 ^ 0) with 1. rewrite Z.mul_1_r.
  apply Z.leb_gt in Hc. rewrite Hc.
  destruct v as [c e]. cbn [Decimal.expo Decimal.coef] in *. now subst e.
Qed.

Lemma to_column_same (md dp : Z) (v r : decimal) :
  Decimal.expo v = - dp -> to_column backend md dp v = Ok r -> r = v.
Proof.
  intros He. unfold to_column. rewrite He, Z.leb_refl, Z.sub_diag.
  change (10 ^ 0) with 1. rewrite Z.mul_1_r.
  destruct (10 ^ md <=? _); [discriminate|]. intros [= <-].
  destruct v as [c e]. cbn [Decimal.expo Decimal.coef] in *. now subst e.
Qed.

Lemma to_column_cents (md c : Z) :
  Z.abs c < 10 ^ md -> to_column backend md 2 (cents c) = Ok (cents c).
Proof. intros H. apply to_column_fits; [reflexivity | exact H]. Qed.

(** A value of no more places than the column is stored without a change of
    value. *)
Lemma to_column_exact (md dp : Z) (v r : decimal) :
  - dp <= Decimal.expo v -> to_column backend md dp v = Ok r ->
  Decimal.eqb r v = true.
Proof.
  intros He. unfold to_column.
  replace (- dp <=? Decimal.expo v) with true by (symmetry; apply Z.leb_le; exact He).
  destruct (10 ^ md <=? _); [discriminate|]. intros [= <-].
  unfold Decimal.eqb, Decimal.compare, Decimal.at_scale.
  cbn [Decimal.expo Decimal.coef].
  rewrite (Z.min_l (- dp) (Decimal.expo v) He), Z.sub_diag.
  change (10 ^ 0) with 1. rewrite Z.mul_1_r, Z.compare_refl. reflexivity.
Qed.

(** A value of more places than the column is stored at the nearest value
    the column has. *)
Lemma to_column_nearest (md dp : Z) (v r : decimal) :
  Decimal.expo v < - dp -> to_column backend md dp v = Ok r ->
  2 * Z.abs (Decimal.coef r * 10 ^ (- dp - Decimal.expo v) - Decimal.coef v)
  <= 10 ^ (- dp - Decimal.expo v).
Proof.
  intros He. unfold to_column.
  replace (- dp <=? Decimal.expo v) with false by (symmetry; apply Z.leb_gt; exact He).
  assert (Hp : 0 < 10 ^ (- dp - Decimal.expo v)) by (apply Z.pow_pos_nonneg; lia).
  destruct (10 ^ md <=? _); [discriminate|]. intros [= <-]. cbn [Decimal.coef].
  destruct backend.
  - apply RoundingFacts.round_half_even_spec. exact Hp.
  - apply round_half_away_spec. exact Hp.
Qed.

End ColumnFacts.

(** The calculator quantizes its result to two places, except where it
    divides the amount by the tenure. *)
Lemma calculate_emi_places (amount rate : decimal) (n : Z) (emi : decimal) :
  calculate_emi amount rate n = Ok emi ->
  Decimal.expo emi = -2 \/ Decimal.div amount (Decimal.of_Z n) = Ok emi.
Proof.
  unfold calculate_emi.
  destruct (Decimal.eqb rate (Decimal.of_Z 0)); [intros H; right; exact H|].
  destruct (Decimal.div rate (Decimal.of_Z 12)) as [pm|]; cbn [bind]; [|discriminate].
  destruct (Decimal.div pm (Decimal.of_Z 100)) as [mr|]; cbn [bind]; [|discriminate].
  destruct (Decimal.pow _ n) as [f|]; cbn [bind]; [|discriminate].
  destruct (Decimal.eqb _ (Decimal.of_Z 0)); [intros H; right; exact H|].
  destruct (Decimal.div _ _) as [q|]; cbn [bind]; [|discriminate].
  unfold Decimal.quantize.
  destruct (Decimal.coef q =? 0); [intros [= <-]; left; reflexivity|].
  destruct (Decimal.prec <? _); [discriminate|].
  destruct (Decimal.prec <? _); [discriminate|].
  intros [= <-]. left. reflexivity.
Qed.

Section IssuanceFacts.

Variable backend : Backend.
Variable today : date.
Variable yr : Z.
Variable db : Ledger.
Variable cust : Customer.

(** What an approved issuance has written when it returns: every step before
    the transaction has returned, and each column has taken its value. *)
Lemma issue_returns (amount : decimal) (n : Z) (r : EligibilityResult)
    (db' : Ledger) (resp : LoanResponse) :
  approval r = true ->
  issue backend today db cust amount n r = Ok (db', resp) ->
  exists (end_d : date) (emi amount_c rate_c emi_c debt_c : decimal),
    add_months today n = Ok end_d /\
    calculate_emi amount (corrected_interest_rate r) n = Ok emi /\
    to_column backend 12 2 amount = Ok amount_c /\
    to_column backend 5 2 (corrected_interest_rate r) = Ok rate_c /\
    to_column backend 12 2 emi = Ok emi_c /\
    to_column backend 12 2 (Decimal.add (current_debt cust) amount) = Ok debt_c /\
    db' = mkLedger (save (with_debt cust debt_c) (customers db))
                   (loans db ++ [mkLoan (loan_seq db) (customer_id cust) amount_c n
                                        rate_c emi_c 0 today end_d "active"])
                   (loan_seq db + 1) /\
    resp = mkResponse (Some (loan_seq db)) (customer_id cust) true
                      "Loan approved successfully" emi.
Proof.
  intros Hyes. unfold issue. rewrite Hyes.
  destruct (add_months today n) as [end_d|] eqn:H1; cbn [bind]; [|discriminate].
  destruct (calculate_emi amount (corrected_interest_rate r) n) as [emi|] eqn:H2;
    cbn [bind]; [|discriminate].
  destruct (to_column backend 12 2 amount) as [amount_c|] eqn:H3;
    cbn [bind]; [|discriminate].
  destruct (to_column backend 5 2 (corrected_interest_rate r)) as [rate_c|] eqn:H4;
    cbn [bind]; [|discriminate].
  destruct (to_column backend 12 2 emi) as [emi_c|] eqn:H5; cbn [bind]; [|discriminate].
  destruct (to_column backend 12 2 (Decimal.add (current_debt cust) amount))
    as [debt_c|] eqn:H6; cbn [bind]; [|discriminate].
  intros [= <- <-].
  exists end_d, emi, amount_c, rate_c, emi_c, debt_c.
  do 6 (split; [first [assumption | reflexivity]|]).
  split; reflexivity.
Qed.

(** The converse: when every step returns, so does the issuance. *)
Lemma issue_writes (amount : decimal) (n : Z) (r : EligibilityResult)
    (end_d : date) (emi amount_c rate_c emi_c debt_c : decimal) :
  approval r = true ->
  add_months today n = Ok end_d ->
  calculate_emi amount (corrected_interest_rate r) n = Ok emi ->
  to_column backend 12 2 amount = Ok amount_c ->
  to_column backend 5 2 (corrected_interest_rate r) = Ok rate_c ->
  to_column backend 12 2 emi = Ok emi_c ->
  to_column backend 12 2 (Decimal.add (current_debt cust) amount) = Ok debt_c ->
  issue backend today db cust amount n r
  = Ok (mkLedger (save (with_debt cust debt_c) (customers db))
                 (loans db ++ [mkLoan (loan_seq db) (customer_id cust) amount_c n
                                      rate_c emi_c 0 today end_d "active"])
                 (loan_seq db + 1),
        mkResponse (Some (loan_seq db)) (customer_id cust) true
                   "Loan approved successfully" emi).
Proof.
  intros Hyes H1 H2 H3 H4 H5 H6. unfold issue.
  rewrite Hyes, H1. cbn [bind]. rewrite H2. cbn [bind]. rewrite H3. cbn [bind].
  rewrite H4. cbn [bind]. rewrite H5. cbn [bind]. rewrite H6. reflexivity.
Qed.

(** A step that raises ends the issuance with nothing written. *)
Lemma issue_raises (amount : decimal) (n : Z) (r : EligibilityResult) :
  approval r = true ->
  (forall e, add_months today n = Raise e ->
     issue backend today db cust amount n r = Raise e) /\
  (forall end_d e, add_months today n = Ok end_d ->
     calculate_emi amount (corrected_interest_rate r) n = Raise e ->
     issue backend today db cust amount n r = Raise e) /\
  (forall end_d emi e, add_months today n = Ok end_d ->
     calculate_emi amount (corrected_interest_rate r) n = Ok emi ->
     to_column backend 12 2 amount = Raise e \/
     to_column backend 5 2 (corrected_interest_rate r) = Raise e \/
     to_column backend 12 2 emi = Raise e \/
     to_column backend 12 2 (Decimal.add (current_debt cust) amount) = Raise e ->
     issue backend today db cust amount n r = Raise (column_error backend)).
Proof.
  intros Hyes. unfold issue. rewrite Hyes. split; [|split].
  - intros e ->. reflexivity.
  - intros end_d e -> H. cbn [bind]. rewrite H. reflexivity.
  - intros end_d emi e -> ->. cbn [bind].
    destruct (to_column backend 12 2 amount) as [amount_c|e1] eqn:E1; cbn [bind];
      [|intros _; now rewrite (to_column_raises _ _ _ _ _ E1)].
    destruct (to_column backend 5 2 (corrected_interest_rate r)) as [rate_c|e2] eqn:E2;
      cbn [bind]; [|intros _; now rewrite (to_column_raises _ _ _ _ _ E2)].
    destruct (to_column backend 12 2 emi) as [emi_c|e3] eqn:E3; cbn [bind];
      [|intros _; now rewrite (to_column_raises _ _ _ _ _ E3)].
    destruct (to_column backend 12 2 (Decimal.add (current_debt cust) amount))
      as [debt_c|e4] eqn:E4; cbn [bind];
      [|intros _; now rewrite (to_column_raises _ _ _ _ _ E4)].
    intros [H|[H|[H|H]]]; discriminate.
Qed.

(** C7: a refused request writes nothing and answers with no loan id.  An
    approved one appends exactly one loan row (active, no EMI paid, starting
    today, ending [tenure] months later) and raises the debt of the customer
    by exactly the amount, provided the end date is a date of the calendar,
    the installment can be computed again and the values fit their columns:
    these are exactly the cases in which [create] returns; in the others it
    raises, and nothing is written. *)
Theorem loan_creation (amount rate : decimal) (n : Z) (r : EligibilityResult) :
  get_eligibility_result cust (loans db) yr amount rate n = Ok r ->
  (approval r = false ->
   create backend today yr db cust amount rate n
   = Ok (db, mkResponse None (customer_id cust) false
                        "Loan not approved based on eligibility criteria" (cents 0))) /\
  (approval r = true ->
   (* every step returns: one row, the debt raised *)
   (forall (end_d : date) (emi amount_c rate_c emi_c debt_c : decimal),
      add_months today n = Ok end_d ->
      calculate_emi amount (corrected_interest_rate r) n = Ok emi ->
      to_column backend 12 2 amount = Ok amount_c ->
      to_column backend 5 2 (corrected_interest_rate r) = Ok rate_c ->
      to_column backend 12 2 emi = Ok emi_c ->
      to_column backend 12 2 (Decimal.add (current_debt cust) amount) = Ok debt_c ->
      let new := mkLoan (loan_seq db) (customer_id cust) amount_c n
                        rate_c emi_c 0 today end_d "active" in
      let cust' := with_debt cust debt_c in
      let db' := mkLedger (save cust' (customers db)) (loans db ++ [new])
                          (loan_seq db + 1) in
      create backend today yr db cust amount rate n
      = Ok (db', mkResponse (Some (loan_seq db)) (customer_id cust) true
                            "Loan approved successfully" emi) /\
      (validate db (customer_id cust) = Some cust ->
       validate db' (customer_id cust) = Some cust') /\
      (1 <= month today <= 12 ->
       12 * year end_d + month end_d = 12 * year today + month today + n /\
       day end_d = Z.min (days_in_month (year end_d) (month end_d)) (day today)) /\
      (forall debt a : Z,
         current_debt cust = cents debt -> Z.abs debt < 10 ^ 12 ->
         amount = cents a ->
         amount_c = cents a /\ debt_c = cents (debt + a))) /\
   (* the call returns in these cases only *)
   (forall (db' : Ledger) (resp : LoanResponse),
      create backend today yr db cust amount rate n = Ok (db', resp) ->
      exists (end_d : date) (emi amount_c rate_c emi_c debt_c : decimal),
        add_months today n = Ok end_d /\
        calculate_emi amount (corrected_interest_rate r) n = Ok emi /\
        to_column backend 12 2 amount = Ok amount_c /\
        to_column backend 5 2 (corrected_interest_rate r) = Ok rate_c /\
        to_column backend 12 2 emi = Ok emi_c /\
        to_column backend 12 2 (Decimal.add (current_debt cust) amount) = Ok debt_c) /\
   (* and raises in the others *)
   (forall e, add_months today n = Raise e ->
      create backend today yr db cust amount rate n = Raise e) /\
   (forall end_d e, add_months today n = Ok end_d ->
      calculate_emi amount (corrected_interest_rate r) n = Raise e ->
      create backend today yr db cust amount rate n = Raise e) /\
   (forall end_d emi e, add_months today n = Ok end_d ->
      calculate_emi amount (corrected_interest_rate r) n = Ok emi ->
      to_column backend 12 2 amount = Raise e \/
      to_column backend 5 2 (corrected_interest_rate r) = Raise e \/
      to_column backend 12 2 emi = Raise e \/
      to_column backend 12 2 (Decimal.add (current_debt cust) amount) = Raise e ->
      create backend today yr db cust amount rate n = Raise (column_error backend))).
Proof.
  intros Hr.
  assert (Hc : create backend today yr db cust amount rate n
               = issue backend today db cust amount n r)
    by (unfold create; rewrite Hr; reflexivity).
  rewrite Hc. split.
  - intros Hno. unfold issue. rewrite Hno. reflexivity.
  - intros Hyes. split; [|split].
    + intros end_d emi amount_c rate_c emi_c debt_c Hend Hemi Ha Hrt He Hd. cbv zeta.
      split; [|split; [|split]].
      * now apply issue_writes.
      * unfold validate. cbn [customers]. apply save_lookup. reflexivity.
      * intros Hm.
        destruct (add_months_spec today end_d n Hm Hend) as (H1 & _ & _ & H4).
        split; assumption.
      * intros debt a Hdebt Hdb ->.
        pose proof (to_column_same backend 12 2 (cents a) amount_c eq_refl Ha) as ->.
        destruct (to_column_format backend 12 2 _ _ Ha) as [_ Hab].
        cbn [Decimal.coef cents] in Hab.
        split; [reflexivity|].
        rewrite Hdebt in Hd. unfold cents at 1 2 in Hd.
        rewrite DecimalFacts.add_cents in Hd.
        -- exact (to_column_same backend 12 2 (Decimal.mk (debt + a) (-2)) debt_c eq_refl Hd).
        -- assert (10 ^ 12 + 10 ^ 12 < 10 ^ 28) by (vm_compute; reflexivity). lia.
    + intros db' resp Hi.
      destruct (issue_returns _ _ _ _ _ Hyes Hi)
        as (end_d & emi & amount_c & rate_c & emi_c & debt_c
            & H1 & H2 & H3 & H4 & H5 & H6 & _).
      exists end_d, emi, amount_c, rate_c, emi_c, debt_c. auto 10.
    + exact (issue_raises amount n r Hyes).
Qed.

(** What an approved issuance writes. *)
Lemma issue_approved (amount : decimal) (n : Z) (r : EligibilityResult)
    (db' : Ledger) (resp : LoanResponse) :
  issue backend today db cust amount n r = Ok (db', resp) ->
  loan_approved resp = true ->
  approval r = true /\
  exists new emi,
    loans db' = loans db ++ [new] /\
    to_column backend 5 2 (corrected_interest_rate r) = Ok (interest_rate new) /\
    calculate_emi amount (corrected_interest_rate r) n = Ok emi /\
    to_column backend 12 2 emi = Ok (monthly_repayment new) /\
    resp_monthly_installment resp = emi.
Proof.
  intros Hi Ha.
  assert (Hyes : approval r = true).
  { unfold issue in Hi. destruct (approval r); [reflexivity|].
    injection Hi as _ <-. discriminate. }
  split; [exact Hyes|].
  destruct (issue_returns _ _ _ _ _ Hyes Hi)
    as (end_d & emi & amount_c & rate_c & emi_c & debt_c
        & H1 & H2 & H3 & H4 & H5 & H6 & -> & ->).
  eexists; exists emi. cbn [loans]. split; [reflexivity|].
  cbn [interest_rate monthly_repayment resp_monthly_installment]. auto.
Qed.

(** C10: the row written by an approved issuance stores the corrected rate
    of the eligibility result (the tier's rate, which is the floor when the
    requested rate was below it) and, as repayment, the EMI computed from that
    corrected rate, each as its column keeps it: the rate in two places
    (unchanged in value when it has no more), the EMI rounded to the nearest
    value of two places.  The EMI already has two places unless the
    calculator divided the amount by the tenure; the response carries it as
    computed. *)
Theorem stored_rate_is_corrected (score : Z) (amount rate : decimal) (n : Z)
    (r : EligibilityResult) (db' : Ledger) (resp : LoanResponse) :
  eligibility_for_score cust (loans db) score amount rate n = Ok r ->
  issue backend today db cust amount n r = Ok (db', resp) ->
  loan_approved resp = true ->
  exists new emi,
    loans db' = loans db ++ [new] /\
    corrected_interest_rate r = tier_rate score rate /\
    to_column backend 5 2 (tier_rate score rate) = Ok (interest_rate new) /\
    (-2 <= Decimal.expo (tier_rate score rate) ->
     Decimal.eqb (interest_rate new) (tier_rate score rate) = true) /\
    (Decimal.expo (tier_rate score rate) = -2 ->
     interest_rate new = tier_rate score rate) /\
    calculate_emi amount (tier_rate score rate) n = Ok emi /\
    to_column backend 12 2 emi = Ok (monthly_repayment new) /\
    (Decimal.expo emi = -2 \/ Decimal.div amount (Decimal.of_Z n) = Ok emi) /\
    (Decimal.expo emi = -2 -> monthly_repayment new = emi) /\
    (Decimal.expo emi < -2 ->
     2 * Z.abs (Decimal.coef (monthly_repayment new) * 10 ^ (-2 - Decimal.expo emi)
                - Decimal.coef emi)
     <= 10 ^ (-2 - Decimal.expo emi)) /\
    resp_monthly_installment resp = emi.
Proof.
  intros Hr Hi Ha.
  destruct (issue_approved _ _ _ _ _ Hi Ha)
    as (Hyes & new & emi & H1 & H2 & H3 & H4 & H5).
  pose proof (approved_rate_is_tier_rate _ _ _ _ _ _ _ Hr Hyes) as Hc.
  rewrite Hc in H2, H3.
  exists new, emi.
  split; [exact H1|]. split; [exact Hc|]. split; [exact H2|].
  split; [intros He; exact (to_column_exact _ 5 2 _ _ He H2)|].
  split; [intros He; exact (to_column_same _ 5 2 _ _ He H2)|].
  split; [exact H3|]. split; [exact H4|].
  split; [exact (calculate_emi_places _ _ _ _ H3)|].
  split; [intros He; exact (to_column_same _ 12 2 _ _ He H4)|].
  split; [intros He; exact (to_column_nearest _ 12 2 _ _ He H4)|].
  exact H5.
Qed.

(** The same for [create], whose score is the one just computed. *)
Corollary create_stores_corrected_rate (amount rate : decimal) (n : Z)
    (db' : Ledger) (resp : LoanResponse) :
  create backend today yr db cust amount rate n = Ok (db', resp) ->
  loan_approved resp = true ->
  exists r new emi,
    get_eligibility_result cust (loans db) yr amount rate n = Ok r /\
    loans db' = loans db ++ [new] /\
    to_column backend 5 2 (corrected_interest_rate r) = Ok (interest_rate new) /\
    calculate_emi amount (corrected_interest_rate r) n = Ok emi /\
    to_column backend 12 2 emi = Ok (monthly_repayment new).
Proof.
  unfold create.
  destruct (get_eligibility_result _ _ _ _ _ _) as [r|] eqn:Hr; cbn [bind]; [|discriminate].
  intros Hi Ha.
  destruct (issue_approved _ _ _ _ _ Hi Ha) as (_ & new & emi & H1 & H2 & H3 & H4 & _).
  exists r, new, emi. auto.
Qed.

End IssuanceFacts.

(** ** The operations against their exact values *)

Module ExactFacts.
Import Decimal DecimalFacts Rounding RoundingFacts Exact.

(** *** Powers of ten and the value of a decimal *)

Lemma p10_pos (k : Z) : (0 < powerRZ 10 k)%R.
Proof. apply powerRZ_lt. lra. Qed.

Lemma IZR_pow10 (k : Z) : 0 <= k -> IZR (10 ^ k) = powerRZ 10 k.
Proof.
  intros Hk. rewrite <- (Z2Nat.id k Hk) at 1 2.
  rewrite <- pow_IZR, <- pow_powerRZ. reflexivity.
Qed.

Lemma p10_add (a b : Z) : (powerRZ 10 (a + b) = powerRZ 10 a * powerRZ 10 b)%R.
Proof. apply powerRZ_add. lra. Qed.

Lemma p10_neg (a : Z) : (powerRZ 10 (- a) * powerRZ 10 a = 1)%R.
Proof. rewrite <- p10_add. replace (- a + a) with 0 by lia. reflexivity. Qed.

Lemma p10_opp (a : Z) : (powerRZ 10 (- a) = / powerRZ 10 a)%R.
Proof.
  pose proof (p10_neg a). pose proof (p10_pos a).
  apply (Rmult_eq_reg_r (powerRZ 10 a)); [|lra].
  rewrite p10_neg. field. lra.
Qed.

Lemma val_at_scale (s : Z) (d : t) :
  s <= expo d -> IZR (at_scale s d) = (val d * powerRZ 10 (- s))%R.
Proof.
  intros Hs. unfold at_scale, val. rewrite mult_IZR, IZR_pow10 by lia.
  replace (expo d - s) with (expo d + - s) by lia. rewrite p10_add. ring.
Qed.

(** The order of decimals is the order of their values. *)
Lemma le_val (x y : t) : le x y <-> (val x <= val y)%R.
Proof.
  set (s := Z.min (expo x) (expo y)).
  rewrite (le_at_scale s x y) by lia.
  pose proof (val_at_scale s x ltac:(lia)) as Vx.
  pose proof (val_at_scale s y ltac:(lia)) as Vy.
  pose proof (p10_pos (- s)) as P.
  split; intros H.
  - apply IZR_le in H. rewrite Vx, Vy in H. nra.
  - apply le_IZR. rewrite Vx, Vy. nra.
Qed.

Lemma val_sign (x : t) : (0 <= val x)%R <-> 0 <= coef x.
Proof.
  unfold val. pose proof (p10_pos (expo x)) as P. split; intros H.
  - apply le_IZR. nra.
  - apply IZR_le in H. nra.
Qed.

Lemma val_pos (x : t) : (0 < val x)%R <-> 0 < coef x.
Proof.
  unfold val. pose proof (p10_pos (expo x)) as P. split; intros H.
  - apply lt_IZR. nra.
  - apply IZR_lt in H. nra.
Qed.

(** *** One rounding *)

(** Rounding to [p] digits moves a coefficient by at most half a unit of
    its last kept digit: 5 * 10^-p of its magnitude. *)
Lemma round_sig_err (p c : Z) :
  1 <= p -> 2 * 10 ^ p * Z.abs (round_sig p c - c) <= 10 * Z.abs c.
Proof.
  intros Hp. unfold round_sig.
  destruct (ndigits c <=? p) eqn:E.
  - rewrite Z.sub_diag. cbn [Z.abs]. lia.
  - apply Z.leb_gt in E.
    assert (Hc : c <> 0).
    { intros ->. change (ndigits 0) with 1 in E. lia. }
    pose proof (ndigits_spec c Hc) as [Lo _].
    set (n := ndigits c) in *. set (k := n - p) in *.
    assert (Hk : 0 < 10 ^ k) by (apply pow10_pos; unfold k; lia).
    destruct (round_half_even_spec c (10 ^ k) Hk) as [S _].
    assert (E1 : 10 ^ (n - 1) = 10 ^ (p - 1) * 10 ^ k).
    { rewrite <- pow10_split by (unfold k; lia). f_equal. unfold k. lia. }
    assert (E2 : 10 ^ p = 10 * 10 ^ (p - 1)).
    { replace p with (1 + (p - 1)) at 1 by lia. now rewrite pow10_split by lia. }
    pose proof (pow10_pos (p - 1) ltac:(lia)).
    rewrite E1 in Lo. rewrite E2.
    set (D := Z.abs (round_half_even c (10 ^ k) * 10 ^ k - c)) in *.
    assert (0 <= D) by (unfold D; lia).
    nia.
Qed.

Lemma fix_err (p : Z) (d : t) :
  1 <= p ->
  (Rabs (val (fix_ p d) - val d) <= unit_roundoff p * Rabs (val d))%R.
Proof.
  intros Hp.
  pose proof (fix_expo_ge p d) as G.
  pose proof (val_at_scale (expo d) (fix_ p d) G) as V1.
  rewrite fix_at_scale in V1 by lia.
  pose proof (val_at_scale (expo d) d ltac:(lia)) as V2.
  assert (A : at_scale (expo d) d = coef d).
  { unfold at_scale. rewrite Z.sub_diag. change (10 ^ 0) with 1. lia. }
  rewrite A in V1, V2.
  pose proof (round_sig_err p (coef d) Hp) as H.
  apply IZR_le in H. rewrite !mult_IZR, !abs_IZR, minus_IZR, IZR_pow10 in H by lia.
  rewrite V1, V2 in H.
  pose proof (p10_pos (- expo d)) as P1. pose proof (p10_pos p) as P2.
  pose proof (p10_neg p) as N.
  unfold unit_roundoff.
  replace (val (fix_ p d) * powerRZ 10 (- expo d) - val d * powerRZ 10 (- expo d))%R
    with ((val (fix_ p d) - val d) * powerRZ 10 (- expo d))%R in H by ring.
  rewrite !Rabs_mult, (Rabs_pos_eq (powerRZ 10 (- expo d))) in H by lra.
  set (X := Rabs (val (fix_ p d) - val d)) in *. set (Y := Rabs (val d)) in *.
  assert (0 <= X)%R by apply Rabs_pos. assert (0 <= Y)%R by apply Rabs_pos.
  assert (H' : (2 * powerRZ 10 p * X <= 10 * Y)%R).
  { apply (Rmult_le_reg_r (powerRZ 10 (- expo d))); [exact P1|]. lra. }
  assert (X = powerRZ 10 (- p) * (powerRZ 10 p * X))%R.
  { rewrite <- Rmult_assoc, N. ring. }
  pose proof (p10_pos (- p)) as P3. nra.
Qed.

(** [fix_] on a value that is not negative. *)
Lemma fix_within (p : Z) (d : t) :
  1 <= p -> 0 <= coef d -> within (unit_roundoff p) (val (fix_ p d)) (val d).
Proof.
  intros Hp Hc. pose proof (fix_err p d Hp) as H.
  apply val_sign in Hc. rewrite (Rabs_pos_eq (val d)) in H by exact Hc.
  unfold within. revert H. unfold Rabs at 1.
  destruct (Rcase_abs (val (fix_ p d) - val d)); intros H; lra.
Qed.

(** *** One operation *)

Lemma within_nonneg (u x X : R) : (0 <= u <= 1)%R -> (0 <= X)%R -> within u x X -> (0 <= x)%R.
Proof. unfold within. intros. nra. Qed.

Lemma val_mk_mul (x y : t) :
  val (mk (coef x * coef y) (expo x + expo y)) = (val x * val y)%R.
Proof. unfold val. cbn [coef expo]. rewrite mult_IZR, p10_add. ring. Qed.

Lemma val_add_exact (x y : t) : val (add_exact x y) = (val x + val y)%R.
Proof.
  unfold add_exact. set (e := Z.min (expo x) (expo y)).
  unfold val at 1. cbn [coef expo].
  rewrite plus_IZR, !val_at_scale by lia.
  pose proof (p10_neg e) as N.
  replace ((val x * powerRZ 10 (- e) + val y * powerRZ 10 (- e)) * powerRZ 10 e)%R
    with ((val x + val y) * (powerRZ 10 (- e) * powerRZ 10 e))%R by ring.
  rewrite N. ring.
Qed.

Lemma val_opp (x : t) : val (opp x) = (- val x)%R.
Proof. unfold val, opp. cbn [coef expo]. rewrite opp_IZR. ring. Qed.

Lemma val_of_Z (n : Z) : val (of_Z n) = IZR n.
Proof. unfold val, of_Z. cbn [coef expo powerRZ]. ring. Qed.

Lemma mul_within (p : Z) (x y : t) :
  1 <= p -> 0 <= coef x -> 0 <= coef y ->
  within (unit_roundoff p) (val (mul_prec p x y)) (val x * val y).
Proof.
  intros Hp Hx Hy. unfold mul_prec. rewrite <- val_mk_mul.
  apply fix_within; [exact Hp|]. cbn [coef]. nia.
Qed.

Lemma add_within (p : Z) (x y : t) :
  1 <= p -> (0 <= val x + val y)%R ->
  within (unit_roundoff p) (val (add_prec p x y)) (val x + val y).
Proof.
  intros Hp H. unfold add_prec. rewrite <- val_add_exact in *.
  apply fix_within; [exact Hp|]. now apply val_sign.
Qed.

Lemma sub_within (p : Z) (x y : t) :
  1 <= p -> (val y <= val x)%R ->
  within (unit_roundoff p) (val (sub_prec p x y)) (val x - val y).
Proof.
  intros Hp H. unfold sub_prec.
  replace (val x - val y)%R with (val x + val (opp y))%R by (rewrite val_opp; ring).
  apply add_within; [exact Hp|]. rewrite val_opp. lra.
Qed.

(** The rounded quotient, times the divisor, against the dividend. *)
Lemma round_quot_err (p n d : Z) :
  1 <= p -> 0 < d -> 10 ^ p * d <= n ->
  2 * 10 ^ p * Z.abs (round_quot p n d * d - n) <= 10 * n.
Proof.
  intros Hp Hd Hn.
  pose proof (pow10_pos p ltac:(lia)) as Hpp.
  assert (Hq : 10 ^ p <= n / d) by (apply Z.div_le_lower_bound; lia).
  pose proof (ndigits_ge (n / d) p ltac:(lia) ltac:(lia)) as Hm.
  destruct (quot_digits n d Hd ltac:(nia)) as [Lo _].
  unfold round_quot. set (m := ndigits (n / d)) in *. set (k := m - p).
  assert (Hk : 0 < 10 ^ k) by (apply pow10_pos; unfold k; lia).
  assert (E1 : 10 ^ (m - 1) = 10 ^ (p - 1) * 10 ^ k).
  { rewrite <- pow10_split by (unfold k; lia). f_equal. unfold k; lia. }
  assert (E2 : 10 ^ p = 10 * 10 ^ (p - 1)).
  { replace p with (1 + (p - 1)) at 1 by lia. now rewrite pow10_split by lia. }
  pose proof (pow10_pos (p - 1) ltac:(lia)).
  destruct (rne_spec n (d * 10 ^ k) ltac:(nia)) as [S _].
  replace (rne n (d * 10 ^ k) * 10 ^ k * d) with (rne n (d * 10 ^ k) * (d * 10 ^ k)) by ring.
  set (D := Z.abs (rne n (d * 10 ^ k) * (d * 10 ^ k) - n)) in *.
  assert (0 <= D) by (unfold D; lia).
  rewrite E1 in Lo. rewrite E2.
  assert (10 * 10 ^ (p - 1) * (d * 10 ^ k) <= 10 * n) by nia.
  assert (2 * (10 * 10 ^ (p - 1)) * D <= 10 * 10 ^ (p - 1) * (d * 10 ^ k)).
  { replace (2 * (10 * 10 ^ (p - 1)) * D) with ((10 * 10 ^ (p - 1)) * (2 * D)) by ring.
    apply Z.mul_le_mono_nonneg_l; lia. }
  lia.
Qed.

(** Division of positive operands. *)
Lemma div_within (p : Z) (x y r : t) :
  1 <= p -> 0 < coef x -> 0 < coef y -> div_prec p x y = Ok r ->
  within (unit_roundoff p) (val r) (val x / val y).
Proof.
  intros Hp Hx Hy D.
  destruct (div_value p x y Hp ltac:(lia) ltac:(lia)) as (r' & E & G & V).
  rewrite D in E. injection E as <-.
  rewrite !Z.sgn_pos, !Z.mul_1_l in V by lia.
  destruct (div_operands p x y ltac:(lia) ltac:(lia) ltac:(lia)) as [Hd Hn].
  destruct (div_operands_form p x y) as (sp & sn & P1 & N1 & S1 & Fn & Fd).
  pose proof (round_quot_err p _ _ Hp Hd Hn) as Err.
  set (e := div_exp p x y) in *. set (n := div_num p x y) in *.
  set (d := div_den p x y) in *. set (rq := round_quot p n d) in *.
  pose proof (val_at_scale e r G) as Vr. rewrite V in Vr.
  (* the exact quotient, at the exponent of the result *)
  assert (Q : (val x / val y * powerRZ 10 (- e) = IZR n / IZR d)%R).
  { rewrite Fn, Fd, !mult_IZR, !IZR_pow10, !Z.abs_eq by lia.
    unfold val. unfold e, div_exp. rewrite <- S1.
    replace (- (expo x - expo y - (sp - sn))) with (- expo x + expo y + sp + - sn) by lia.
    rewrite !p10_add.
    rewrite (p10_opp (expo x)), (p10_opp sn).
    pose proof (p10_pos (expo x)). pose proof (p10_pos (expo y)).
    pose proof (p10_pos sn). pose proof (p10_pos sp).
    assert (IZR (coef y) <> 0)%R by (apply not_0_IZR; lia).
    field. repeat split; lra. }
  apply IZR_le in Err.
  rewrite !mult_IZR, abs_IZR, minus_IZR, mult_IZR, IZR_pow10 in Err by lia.
  assert (Dpos : (0 < IZR d)%R) by (apply IZR_lt; lia).
  assert (Npos : (0 < IZR n)%R).
  { apply IZR_lt. pose proof (pow10_pos p ltac:(lia)). nia. }
  pose proof (p10_pos p) as Pp. pose proof (p10_neg p) as Np.
  pose proof (p10_pos (- p)) as Pnp. pose proof (p10_pos (- e)) as Pe.
  (* |rq - n/d| <= u * n/d *)
  assert (B : (Rabs (IZR rq - IZR n / IZR d) <= unit_roundoff p * (IZR n / IZR d))%R).
  { unfold unit_roundoff.
    replace (IZR rq - IZR n / IZR d)%R with ((IZR rq * IZR d - IZR n) * / IZR d)%R
      by (field; lra).
    rewrite Rabs_mult, (Rabs_pos_eq (/ IZR d)) by (left; now apply Rinv_0_lt_compat).
    set (X := Rabs (IZR rq * IZR d - IZR n)) in *.
    assert (0 <= X)%R by apply Rabs_pos.
    assert (X <= 5 * powerRZ 10 (- p) * IZR n)%R.
    { assert (X = powerRZ 10 (- p) * (powerRZ 10 p * X))%R
        by (rewrite <- Rmult_assoc, Np; ring).
      nra. }
    unfold Rdiv. rewrite <- Rmult_assoc.
    apply Rmult_le_compat_r; [left; now apply Rinv_0_lt_compat | assumption]. }
  unfold within. rewrite <- Q in B. rewrite Vr in B.
  replace (val r * powerRZ 10 (- e) - val x / val y * powerRZ 10 (- e))%R
    with ((val r - val x / val y) * powerRZ 10 (- e))%R in B by ring.
  rewrite Rabs_mult, (Rabs_pos_eq (powerRZ 10 (- e))) in B by lra.
  assert (B' : (Rabs (val r - val x / val y) <= unit_roundoff p * (val x / val y))%R).
  { apply (Rmult_le_reg_r (powerRZ 10 (- e))); [exact Pe|]. lra. }
  revert B'. unfold Rabs. destruct (Rcase_abs _); intros B'; lra.
Qed.

(** *** Two-sided bounds *)

Lemma within_bracket (u x X : R) : within u x X <-> bracket (1 - u) (1 + u) x X.
Proof. reflexivity. Qed.

Lemma bracket_mul (lo1 hi1 lo2 hi2 x X y Y : R) :
  (0 <= lo1)%R -> (0 <= lo2)%R -> (0 <= X)%R -> (0 <= Y)%R ->
  bracket lo1 hi1 x X -> bracket lo2 hi2 y Y ->
  bracket (lo1 * lo2) (hi1 * hi2) (x * y) (X * Y).
Proof.
  unfold bracket. intros L1 L2 HX HY [A1 A2] [B1 B2].
  assert (0 <= X * lo1)%R by now apply Rmult_le_pos.
  assert (0 <= Y * lo2)%R by now apply Rmult_le_pos.
  split.
  - replace (X * Y * (lo1 * lo2))%R with ((X * lo1) * (Y * lo2))%R by ring.
    apply Rmult_le_compat; lra.
  - replace (X * Y * (hi1 * hi2))%R with ((X * hi1) * (Y * hi2))%R by ring.
    apply Rmult_le_compat; lra.
Qed.

Lemma bracket_trans (lo1 hi1 lo2 hi2 x y Z : R) :
  (0 <= lo1)%R -> (0 <= hi1)%R ->
  bracket lo1 hi1 x y -> bracket lo2 hi2 y Z ->
  bracket (lo2 * lo1) (hi2 * hi1) x Z.
Proof.
  unfold bracket. intros L1 H1 [A1 A2] [B1 B2]. split.
  - apply Rle_trans with (y * lo1)%R; [|exact A1].
    rewrite <- Rmult_assoc. apply Rmult_le_compat_r; assumption.
  - apply Rle_trans with (y * hi1)%R; [exact A2|].
    rewrite <- Rmult_assoc. apply Rmult_le_compat_r; assumption.
Qed.

Lemma bracket_weaken (lo hi lo' hi' x X : R) :
  (0 <= X)%R -> (lo' <= lo)%R -> (hi <= hi')%R ->
  bracket lo hi x X -> bracket lo' hi' x X.
Proof.
  unfold bracket. intros HX L H [A B]. split.
  - apply Rle_trans with (X * lo)%R; [|exact A]. now apply Rmult_le_compat_l.
  - apply Rle_trans with (X * hi)%R; [exact B|]. now apply Rmult_le_compat_l.
Qed.

(** *** Integer powers *)

Lemma unit_roundoff_pos (p : Z) : (0 < unit_roundoff p)%R.
Proof. unfold unit_roundoff. pose proof (p10_pos (- p)). lra. Qed.

Lemma p10_mono (a b : Z) : a <= b -> (powerRZ 10 a <= powerRZ 10 b)%R.
Proof.
  intros H. replace b with (a + (b - a)) by lia.
  rewrite p10_add, <- (IZR_pow10 (b - a)) by lia.
  pose proof (pow10_pos (b - a) ltac:(lia)) as P.
  assert (1 <= IZR (10 ^ (b - a)))%R by (apply IZR_le; lia).
  pose proof (p10_pos a). nra.
Qed.

Lemma unit_roundoff_le_half (p : Z) : 1 <= p -> (unit_roundoff p <= / 2)%R.
Proof.
  intros Hp. unfold unit_roundoff.
  pose proof (p10_mono (- p) (- 1) ltac:(lia)) as M.
  change (powerRZ 10 (- 1)) with (/ (10 * 1))%R in M. lra.
Qed.

Lemma ecount_lt (k : positive) : (ecount k < Pos.to_nat k)%nat.
Proof.
  induction k as [k IH | k IH |]; cbn [ecount].
  - rewrite Pos2Nat.inj_xI. lia.
  - rewrite Pos2Nat.inj_xO. lia.
  - rewrite Pos2Nat.inj_1. lia.
Qed.

Lemma mul_prec_nonneg (p : Z) (x y : t) :
  0 <= coef x -> 0 <= coef y -> 0 <= coef (mul_prec p x y).
Proof. intros; apply fix_nonneg; cbn [coef]; nia. Qed.

Lemma pow_double1 (a : R) (e : nat) : (a ^ (2 * e + 1) = a ^ e * a ^ e * a)%R.
Proof.
  replace (2 * e + 1)%nat with (e + e + 1)%nat by lia.
  rewrite !pow_add, pow_1. ring.
Qed.

Lemma pow_double2 (a : R) (e : nat) : (a ^ (2 * e + 2) = a ^ e * a ^ e * a * 1 * a)%R.
Proof.
  replace (2 * e + 2)%nat with (e + e + 1 + 1)%nat by lia.
  rewrite !pow_add, pow_1. ring.
Qed.

Lemma bracket_refl (x : R) : bracket 1 1 x x.
Proof. unfold bracket. lra. Qed.

(** The integer power, with its [ecount] roundings at precision [w]. *)
Lemma pow_uint_bracket (w : Z) (x : t) (k : positive) :
  1 <= w -> 0 <= coef x ->
  0 <= coef (pow_uint w x k) /\
  bracket ((1 - unit_roundoff w) ^ ecount k) ((1 + unit_roundoff w) ^ ecount k)
          (val (pow_uint w x k)) (val x ^ Pos.to_nat k).
Proof.
  intros Hw Hx.
  pose proof (unit_roundoff_pos w) as U0.
  pose proof (unit_roundoff_le_half w Hw) as U1.
  set (u := unit_roundoff w) in *.
  assert (L0 : (0 <= 1 - u)%R) by lra.
  assert (H0 : (0 <= 1 + u)%R) by lra.
  assert (Vx : (0 <= val x)%R) by now apply val_sign.
  induction k as [k IH | k IH |]; cbn [pow_uint ecount].
  - destruct IH as [C B].
    set (r := pow_uint w x k) in *. set (e := ecount k) in *.
    assert (C2 : 0 <= coef (mul_prec w r r)) by (apply mul_prec_nonneg; assumption).
    split; [apply mul_prec_nonneg; assumption|].
    assert (Xk : (0 <= val x ^ Pos.to_nat k)%R) by now apply pow_le.
    assert (Le : (0 <= (1 - u) ^ e)%R) by now apply pow_le.
    pose proof (bracket_mul _ _ _ _ _ _ _ _ Le Le Xk Xk B B) as B2.
    pose proof (mul_within w r r Hw C C) as M1. apply within_bracket in M1.
    pose proof (bracket_trans _ _ _ _ _ _ _ L0 H0 M1 B2) as B3.
    assert (L3 : (0 <= (1 - u) ^ e * (1 - u) ^ e * (1 - u))%R)
      by (repeat apply Rmult_le_pos; assumption).
    assert (X3 : (0 <= val x ^ Pos.to_nat k * val x ^ Pos.to_nat k)%R)
      by now apply Rmult_le_pos.
    pose proof (bracket_mul _ _ _ _ _ _ _ _ L3 Rle_0_1 X3 Vx B3 (bracket_refl (val x))) as B4.
    pose proof (mul_within w (mul_prec w r r) x Hw C2 Hx) as M2.
    apply within_bracket in M2.
    pose proof (bracket_trans _ _ _ _ _ _ _ L0 H0 M2 B4) as B5.
    rewrite Pos2Nat.inj_xI, !pow_double2.
    replace (S (2 * Pos.to_nat k)) with (2 * Pos.to_nat k + 1)%nat by lia.
    rewrite pow_double1. exact B5.
  - destruct IH as [C B].
    set (r := pow_uint w x k) in *. set (e := ecount k) in *.
    split; [apply mul_prec_nonneg; assumption|].
    assert (Xk : (0 <= val x ^ Pos.to_nat k)%R) by now apply pow_le.
    assert (Le : (0 <= (1 - u) ^ e)%R) by now apply pow_le.
    pose proof (bracket_mul _ _ _ _ _ _ _ _ Le Le Xk Xk B B) as B2.
    pose proof (mul_within w r r Hw C C) as M1. apply within_bracket in M1.
    pose proof (bracket_trans _ _ _ _ _ _ _ L0 H0 M1 B2) as B3.
    rewrite Pos2Nat.inj_xO, !pow_double1.
    replace (2 * Pos.to_nat k)%nat with (Pos.to_nat k + Pos.to_nat k)%nat by lia.
    rewrite pow_add. exact B3.
  - split; [exact Hx|]. rewrite Pos2Nat.inj_1, !pow_1.
    cbn [Rpow_def.pow]. unfold bracket. lra.
Qed.

(** Bernoulli's bounds on the accumulated factor. *)
(** [m] roundings in a row: (1 + u)^m <= 1 + 2mu and 1 - mu <= (1 - u)^m. *)
Lemma pow_upper (u : R) (m : nat) :
  (0 <= u)%R -> (2 * INR m * u <= 1)%R -> ((1 + u) ^ m <= 1 + 2 * INR m * u)%R.
Proof.
  intros Hu. induction m as [|m IH]; intros H.
  - cbn [Rpow_def.pow INR]. lra.
  - rewrite S_INR in *. cbn [Rpow_def.pow].
    assert (I : ((1 + u) ^ m <= 1 + 2 * INR m * u)%R) by (apply IH; pose proof (pos_INR m); nra).
    pose proof (pos_INR m) as Pm.
    apply Rle_trans with ((1 + u) * (1 + 2 * INR m * u))%R.
    + apply Rmult_le_compat_l; lra.
    + assert (2 * INR m * u * u <= u)%R.
      { replace (2 * INR m * u * u)%R with ((2 * INR m * u) * u)%R by ring.
        assert (2 * INR m * u <= 1)%R by nra.
        rewrite <- (Rmult_1_l u) at 3. apply Rmult_le_compat_r; lra. }
      lra.
Qed.

Lemma pow_lower (u : R) (m : nat) :
  (0 <= u <= 1)%R -> (1 - INR m * u <= (1 - u) ^ m)%R.
Proof.
  intros Hu. induction m as [|m IH].
  - cbn [Rpow_def.pow INR]. lra.
  - rewrite S_INR. cbn [Rpow_def.pow].
    pose proof (pos_INR m) as Pm.
    apply Rle_trans with ((1 - u) * (1 - INR m * u))%R.
    + assert (0 <= INR m * u * u)%R by (repeat apply Rmult_le_pos; lra). lra.
    + apply Rmult_le_compat_l; lra.
Qed.

Lemma p10_lit (k : Z) : 0 <= k -> (powerRZ 10 (- k) = / IZR (10 ^ k))%R.
Proof. intros Hk. rewrite p10_opp, IZR_pow10 by exact Hk. reflexivity. Qed.

Lemma unit_roundoff_split (a b : Z) :
  unit_roundoff (a + b) = (unit_roundoff a * powerRZ 10 (- b))%R.
Proof. unfold unit_roundoff. replace (- (a + b)) with (- a + - b) by lia. rewrite p10_add. ring. Qed.

(** The working precision grows with the digits of the exponent, so the
    roundings of the loop add up to less than one unit of precision 30. *)
Lemma ecount_roundoff (k : positive) :
  (INR (ecount k) * unit_roundoff (prec + ndigits (Z.pos k) + 2)
   <= unit_roundoff 30)%R.
Proof.
  set (nd := ndigits (Z.pos k)). set (e := ecount k).
  pose proof (ecount_lt k) as L. fold e in L.
  assert (I1 : (INR e <= INR (Pos.to_nat k))%R) by (apply le_INR; lia).
  rewrite (INR_IZR_INZ (Pos.to_nat k)), positive_nat_Z in I1.
  destruct (ndigits_spec (Z.pos k) ltac:(lia)) as [_ Hi]. fold nd in Hi.
  pose proof (ndigits_pos (Z.pos k)) as Hnd. fold nd in Hnd.
  rewrite Z.abs_eq in Hi by lia.
  apply IZR_lt in Hi. rewrite IZR_pow10 in Hi by lia.
  replace (prec + nd + 2) with (30 + nd) by (unfold prec; lia).
  rewrite unit_roundoff_split.
  unfold unit_roundoff.
  pose proof (p10_neg nd) as N. pose proof (p10_pos nd) as Pn.
  pose proof (p10_pos (- nd)) as Pn'.
  pose proof (pos_INR e) as Pe.
  assert (H1 : (INR e * powerRZ 10 (- nd) <= 1)%R).
  { rewrite <- N, (Rmult_comm (powerRZ 10 (- nd))).
    apply Rmult_le_compat_r; lra. }
  generalize (p10_pos (- (30))). generalize (powerRZ 10 (- (30))). intros a P30.
  set (b := powerRZ 10 (- nd)) in *.
  replace (INR e * (5 * a * b))%R with ((5 * a) * (INR e * b))%R by ring.
  rewrite <- (Rmult_1_r (5 * a)) at 2.
  apply Rmult_le_compat_l; lra.
Qed.

Lemma unit_roundoff_prec : unit_roundoff prec = (5 / 10000000000000000000000000000)%R.
Proof.
  unfold unit_roundoff, prec. rewrite (p10_lit 28) by lia.
  change (10 ^ 28) with 10000000000000000000000000000. reflexivity.
Qed.

Lemma pow_roundoff_lit : pow_roundoff = (6 / 10000000000000000000000000000)%R.
Proof.
  unfold pow_roundoff, prec. rewrite (p10_lit 28) by lia.
  change (10 ^ 28) with 10000000000000000000000000000. reflexivity.
Qed.

Lemma unit_roundoff_30 : unit_roundoff 30 = (5 / 1000000000000000000000000000000)%R.
Proof.
  unfold unit_roundoff. rewrite (p10_lit 30) by lia.
  change (10 ^ 30) with 1000000000000000000000000000000. reflexivity.
Qed.

(** [Decimal.pow] with a positive exponent, against the exact power. *)
Lemma pow_within (x f : t) (k : positive) :
  0 < coef x -> Decimal.pow x (Z.pos k) = Ok f ->
  0 <= coef f /\ within pow_roundoff (val f) (val x ^ Pos.to_nat k).
Proof.
  intros Hx. unfold Decimal.pow.
  replace (coef x =? 0) with false by (symmetry; apply Z.eqb_neq; lia).
  cbv zeta. set (nd := ndigits (Z.pos k)).
  pose proof (ndigits_pos (Z.pos k)) as Hnd. fold nd in Hnd.
  intros [= <-].
  assert (Hw : 1 <= prec + nd + 2) by (unfold prec; lia).
  destruct (pow_uint_bracket (prec + nd + 2) x k Hw ltac:(lia)) as [C B].
  split; [now apply fix_nonneg|].
  set (w := prec + nd + 2) in *. set (r := pow_uint w x k) in *.
  pose proof (fix_within prec r ltac:(unfold prec; lia) C) as F.
  apply within_bracket in F.
  pose proof (unit_roundoff_pos prec) as U0.
  pose proof (unit_roundoff_le_half prec ltac:(unfold prec; lia)) as U1.
  assert (L0 : (0 <= 1 - unit_roundoff prec)%R) by lra.
  assert (H0 : (0 <= 1 + unit_roundoff prec)%R) by lra.
  pose proof (bracket_trans _ _ _ _ _ _ _ L0 H0 F B) as B2.
  assert (Xk : (0 <= val x ^ Pos.to_nat k)%R)
    by (apply pow_le; apply val_sign; lia).
  apply within_bracket. revert B2. apply bracket_weaken; [exact Xk| |].
  all: pose proof (unit_roundoff_pos w) as W0.
  all: pose proof (unit_roundoff_le_half w Hw) as W1.
  all: set (e := ecount k).
  all: pose proof (ecount_roundoff k) as Ek; fold nd w e in Ek.
  - (* the lower factor *)
    pose proof (pow_lower (unit_roundoff w) e ltac:(lra)) as PL.
    rewrite pow_roundoff_lit. rewrite unit_roundoff_prec in *.
    rewrite unit_roundoff_30 in Ek.
    set (A := ((1 - unit_roundoff w) ^ e)%R) in *.
    assert (A <= 1)%R.
    { pose proof (pow_incr (1 - unit_roundoff w) 1 e ltac:(lra)) as I.
      rewrite pow1 in I. exact I. }
    nra.
  - pose proof (pow_upper (unit_roundoff w) e ltac:(lra)) as PU.
    rewrite pow_roundoff_lit. rewrite unit_roundoff_prec in *.
    rewrite unit_roundoff_30 in Ek.
    assert (PU' : ((1 + unit_roundoff w) ^ e <= 1 + 2 * INR e * unit_roundoff w)%R).
    { apply PU. lra. }
    set (A := ((1 + unit_roundoff w) ^ e)%R) in *.
    assert (1 <= A)%R.
    { pose proof (pow_incr 1 (1 + unit_roundoff w) e ltac:(lra)) as I.
      rewrite pow1 in I. exact I. }
    nra.
Qed.

(** *** The annuity over the reals *)

Section Annuity.
Local Open Scope R_scope.

(** (x - 1)(1 + x + ... + x^(n-1)) = x^n - 1. *)
Lemma geo_closed (x : R) (n : nat) : (x - 1) * geo x n = x ^ n - 1.
Proof.
  induction n as [|n IH]; cbn [geo Rpow_def.pow]; [ring|].
  rewrite Rmult_plus_distr_l, IH. ring.
Qed.

Lemma geo_shift (x : R) (n : nat) : geo x (S n) = 1 + x * geo x n.
Proof.
  induction n as [|n IH]; [cbn [geo Rpow_def.pow]; ring|].
  change (geo x (S (S n))) with (geo x (S n) + x ^ S n).
  rewrite IH at 1. change (geo x (S n)) with (geo x n + x ^ n).
  cbn [Rpow_def.pow]. ring.
Qed.

Lemma geo_nonneg (x : R) (n : nat) : 0 <= x -> 0 <= geo x n.
Proof.
  intros Hx. induction n as [|n IH]; cbn [geo]; [lra|].
  pose proof (pow_le x n Hx). lra.
Qed.

Lemma geo_ge_one (x : R) (n : nat) : 0 <= x -> 1 <= geo x (S n).
Proof.
  intros Hx. rewrite geo_shift. pose proof (geo_nonneg x n Hx).
  assert (0 <= x * geo x n) by now apply Rmult_le_pos. lra.
Qed.

(** x1^n * (1 + x2 + ... + x2^n) <= x2^n * (1 + x1 + ... + x1^n). *)
Lemma geo_cross (x1 x2 : R) (n : nat) :
  0 <= x1 <= x2 -> x1 ^ n * geo x2 (S n) <= x2 ^ n * geo x1 (S n).
Proof.
  intros [H1 H2]. induction n as [|n IH].
  - cbn [geo Rpow_def.pow]. lra.
  - change (geo x2 (S (S n))) with (geo x2 (S n) + x2 ^ S n).
    change (geo x1 (S (S n))) with (geo x1 (S n) + x1 ^ S n).
    set (T1 := geo x1 (S n)) in *. set (T2 := geo x2 (S n)) in *.
    assert (P1 : 0 <= x1 ^ n) by now apply pow_le.
    assert (P2 : 0 <= x2 ^ n) by (apply pow_le; lra).
    assert (G1 : 0 <= T1) by (apply geo_nonneg; lra).
    cbn [Rpow_def.pow].
    assert (A : x1 * (x1 ^ n * T2) <= x1 * (x2 ^ n * T1))
      by (apply Rmult_le_compat_l; assumption).
    assert (B : x1 * (x2 ^ n * T1) <= x2 * (x2 ^ n * T1)).
    { apply Rmult_le_compat_r; [|exact H2]. now apply Rmult_le_pos. }
    lra.
Qed.

Lemma annuity_geo (x : R) (n : nat) :
  1 < x -> annuity x (S n) = x ^ S n / geo x (S n).
Proof.
  intros Hx. unfold annuity. rewrite <- geo_closed.
  pose proof (geo_ge_one x n ltac:(lra)). field. split; lra.
Qed.

Lemma annuity_pos (x : R) (n : nat) : 1 < x -> 0 < annuity x (S n).
Proof.
  intros Hx. rewrite annuity_geo by exact Hx.
  pose proof (geo_ge_one x n ltac:(lra)).
  apply Rdiv_lt_0_compat; [apply pow_lt|]; lra.
Qed.

(** The installment per unit, divided by the growth factor, does not decrease
    with the growth factor. *)
Lemma annuity_rate (x1 x2 : R) (n : nat) :
  1 < x1 <= x2 -> annuity x1 (S n) * x2 <= annuity x2 (S n) * x1.
Proof.
  intros [H1 H2]. rewrite !annuity_geo by lra.
  pose proof (geo_ge_one x1 n ltac:(lra)) as G1.
  pose proof (geo_ge_one x2 n ltac:(lra)) as G2.
  pose proof (geo_cross x1 x2 n ltac:(lra)) as C.
  cbn [Rpow_def.pow].
  set (T1 := geo x1 (S n)) in *. set (T2 := geo x2 (S n)) in *.
  apply (Rmult_le_reg_r (T1 * T2)); [apply Rmult_lt_0_compat; lra|].
  replace (x1 * x1 ^ n / T1 * x2 * (T1 * T2)) with (x1 * x2 * (x1 ^ n * T2))
    by (field; lra).
  replace (x2 * x2 ^ n / T2 * x1 * (T1 * T2)) with (x1 * x2 * (x2 ^ n * T1))
    by (field; lra).
  apply Rmult_le_compat_l; [|exact C].
  apply Rmult_le_pos; lra.
Qed.

(** One period more lowers the installment by the factor 1 - 1/geo. *)
Lemma annuity_tenure (x : R) (n : nat) :
  1 < x ->
  annuity x (S (S n)) * geo x (S (S n)) = annuity x (S n) * (geo x (S (S n)) - 1).
Proof.
  intros Hx. rewrite !annuity_geo by exact Hx.
  pose proof (geo_ge_one x n ltac:(lra)) as G1.
  pose proof (geo_ge_one x (S n) ltac:(lra)) as G2.
  rewrite (geo_shift x (S n)).
  set (T := geo x (S n)) in *.
  assert (0 < 1 + x * T) by nra.
  change (x ^ S (S n)) with (x * x ^ S n). field. split; lra.
Qed.

Lemma annuity_decr_step (x : R) (n : nat) :
  1 < x -> annuity x (S (S n)) <= annuity x (S n).
Proof.
  intros Hx. pose proof (annuity_tenure x n Hx) as T.
  pose proof (annuity_pos x n Hx) as A.
  pose proof (geo_ge_one x (S n) ltac:(lra)) as G.
  set (g := geo x (S (S n))) in *.
  apply (Rmult_le_reg_r g); [lra|]. rewrite T.
  apply Rmult_le_compat_l; lra.
Qed.

Lemma annuity_decr (x : R) (n1 n2 : nat) :
  1 < x -> (n1 <= n2)%nat -> annuity x (S n2) <= annuity x (S n1).
Proof.
  intros Hx. induction 1 as [|n2 _ IH]; [lra|].
  apply Rle_trans with (annuity x (S n2)); [now apply annuity_decr_step | exact IH].
Qed.

(** A longer tenure lowers the installment at least by the factor 1 - 1/geo
    of the longer tenure. *)
Lemma annuity_tenure_lt (x : R) (n1 n2 : nat) :
  1 < x -> (n1 < n2)%nat ->
  annuity x (S n2) * geo x (S n2) <= annuity x (S n1) * (geo x (S n2) - 1).
Proof.
  intros Hx Hn. destruct n2 as [|j]; [lia|].
  rewrite (annuity_tenure x j Hx).
  pose proof (geo_ge_one x (S j) ltac:(lra)) as G.
  apply Rmult_le_compat_r; [lra|]. apply annuity_decr; [exact Hx | lia].
Qed.

(** The order of two installments known up to a relative error [th]. *)
Lemma rate_order (th P A1 A2 x1 x2 q1 q2 : R) :
  0 <= th <= 1 -> 0 < P -> 0 < A1 -> 0 < A2 -> 0 < x2 ->
  A1 * x2 <= A2 * x1 -> x1 * (1 + th) <= x2 * (1 - th) ->
  within th q1 (P * A1) -> within th q2 (P * A2) -> q1 <= q2.
Proof.
  unfold within. intros Ht HP H1 H2 Hx C S [_ U] [L _].
  apply Rle_trans with (P * A1 * (1 + th)); [exact U|].
  apply Rle_trans with (P * A2 * (1 - th)); [|exact L].
  rewrite !Rmult_assoc. apply Rmult_le_compat_l; [lra|].
  apply (Rmult_le_reg_r x2); [exact Hx|].
  apply Rle_trans with (A2 * x1 * (1 + th)).
  - replace (A1 * (1 + th) * x2) with (A1 * x2 * (1 + th)) by ring.
    apply Rmult_le_compat_r; lra.
  - replace (A2 * x1 * (1 + th)) with (A2 * (x1 * (1 + th))) by ring.
    replace (A2 * (1 - th) * x2) with (A2 * (x2 * (1 - th))) by ring.
    apply Rmult_le_compat_l; lra.
Qed.

Lemma tenure_order (th P A1 A2 g q1 q2 : R) :
  0 <= th <= 1 -> 0 < P -> 0 < A1 -> 0 < A2 -> 1 <= g -> 2 * g * th <= 1 ->
  A2 * g <= A1 * (g - 1) ->
  within th q1 (P * A1) -> within th q2 (P * A2) -> q2 <= q1.
Proof.
  unfold within. intros Ht HP H1 H2 Hg Hs C [L _] [_ U].
  apply Rle_trans with (P * A2 * (1 + th)); [exact U|].
  apply Rle_trans with (P * A1 * (1 - th)); [|exact L].
  rewrite !Rmult_assoc. apply Rmult_le_compat_l; [lra|].
  apply (Rmult_le_reg_r g); [lra|].
  apply Rle_trans with (A1 * (g - 1) * (1 + th)).
  - replace (A2 * (1 + th) * g) with (A2 * g * (1 + th)) by ring.
    apply Rmult_le_compat_r; lra.
  - replace (A1 * (g - 1) * (1 + th)) with (A1 * ((g - 1) * (1 + th))) by ring.
    replace (A1 * (1 - th) * g) with (A1 * (g * (1 - th))) by ring.
    apply Rmult_le_compat_l; [lra|].
    assert (0 <= th * 1 <= th * g).
    { split; [lra|]. apply Rmult_le_compat_l; lra. }
    lra.
Qed.

(** The error of a quotient of two approximations, and of the installment
    as the code composes it. *)

Lemma within_scale (a k x X : R) : 0 <= k -> within a x X -> within a (k * x) (k * X).
Proof.
  unfold within. intros Hk [A B]. split.
  - rewrite Rmult_assoc. now apply Rmult_le_compat_l.
  - rewrite Rmult_assoc. now apply Rmult_le_compat_l.
Qed.

Lemma within_div (a b c n N d D : R) :
  0 <= N -> 0 < D -> 0 <= a <= 1 -> 0 <= b < 1 ->
  1 + a <= (1 + c) * (1 - b) -> (1 - c) * (1 + b) <= 1 - a ->
  within a n N -> within b d D -> within c (n / d) (N / D).
Proof.
  unfold within. intros HN HD Ha Hb C1 C2 [N1 N2] [D1 D2].
  assert (Hd : 0 < d).
  { apply Rlt_le_trans with (D * (1 - b)); [apply Rmult_lt_0_compat; lra | exact D1]. }
  assert (ND : 0 <= N * D) by (apply Rmult_le_pos; lra).
  split.
  - apply (Rmult_le_reg_r (d * D)); [apply Rmult_lt_0_compat; lra|].
    replace (N / D * (1 - c) * (d * D)) with (N * (1 - c) * d) by (field; lra).
    replace (n / d * (d * D)) with (n * D) by (field; lra).
    apply Rle_trans with (N * (1 - a) * D).
    + destruct (Rle_dec 0 (1 - c)) as [Hc|Hc].
      * apply Rle_trans with (N * (1 - c) * (D * (1 + b))).
        { apply Rmult_le_compat_l; [apply Rmult_le_pos; lra | exact D2]. }
        replace (N * (1 - c) * (D * (1 + b))) with (N * D * ((1 - c) * (1 + b))) by ring.
        replace (N * (1 - a) * D) with (N * D * (1 - a)) by ring.
        now apply Rmult_le_compat_l.
      * assert (N * (1 - c) * d <= 0).
        { replace (N * (1 - c) * d) with (- (N * d * (c - 1))) by ring.
          assert (0 <= N * d * (c - 1)) by (repeat apply Rmult_le_pos; lra). lra. }
        assert (0 <= N * (1 - a) * D).
        { repeat apply Rmult_le_pos; lra. }
        lra.
    + apply Rmult_le_compat_r; lra.
  - apply (Rmult_le_reg_r (d * D)); [apply Rmult_lt_0_compat; lra|].
    replace (N / D * (1 + c) * (d * D)) with (N * (1 + c) * d) by (field; lra).
    replace (n / d * (d * D)) with (n * D) by (field; lra).
    apply Rle_trans with (N * (1 + a) * D).
    + apply Rmult_le_compat_r; lra.
    + assert (0 <= 1 + c) by nra.
      apply Rle_trans with (N * (1 + c) * (D * (1 - b))).
      * replace (N * (1 + c) * (D * (1 - b))) with (N * D * ((1 + c) * (1 - b))) by ring.
        replace (N * (1 + a) * D) with (N * D * (1 + a)) by ring.
        now apply Rmult_le_compat_l.
      * apply Rmult_le_compat_l; [apply Rmult_le_pos; lra | exact D1].
Qed.

Lemma pow_ge_self (x : R) (n : nat) : 1 <= x -> x <= x ^ S n.
Proof.
  intros Hx. cbn [Rpow_def.pow]. pose proof (pow_R1_Rle x n Hx).
  rewrite <- (Rmult_1_r x) at 1. apply Rmult_le_compat_l; lra.
Qed.

(** The growth factor 1 + r, rounded once. *)
Lemma growth_error (r x : R) :
  8 / 1000000 <= r -> within (unit_roundoff prec) x (1 + r) ->
  1 + 79 / 10000000 <= x /\ within (1 / 10000000000000000000000) (x - 1) r.
Proof.
  rewrite unit_roundoff_prec. unfold within. intros Hr [A B]. repeat split; lra.
Qed.

(** The compounding factor, and the denominator's exact value. *)
Lemma factor_error (x f : R) (n : nat) :
  1 + 79 / 10000000 <= x -> within pow_roundoff f (x ^ S n) ->
  1 + 78 / 10000000 <= f /\
  within (1 / 10000000000000000000000) (f - 1) (x ^ S n - 1).
Proof.
  rewrite pow_roundoff_lit. unfold within. intros Hx [A B].
  pose proof (pow_ge_self x n ltac:(lra)) as Y.
  set (y := x ^ S n) in *. repeat split; lra.
Qed.

(** The installment before it is rounded to cents, against the exact annuity. *)
Lemma annuity_error (P r x f M N D q : R) (n : nat) :
  0 < P -> 8 / 1000000 <= r ->
  within (unit_roundoff prec) x (1 + r) ->
  within pow_roundoff f (x ^ S n) ->
  within (unit_roundoff prec) M (P * r) ->
  within (unit_roundoff prec) N (M * f) ->
  within (unit_roundoff prec) D (f - 1) ->
  within (unit_roundoff prec) q (N / D) ->
  within emi_roundoff q (P * annuity x (S n)).
Proof.
  intros HP Hr Hx Hf HM HN HD Hq.
  destruct (growth_error r x Hr Hx) as [X1 X2].
  destruct (factor_error x f n X1 Hf) as [F1 F2].
  pose proof (pow_ge_self x n ltac:(lra)) as Y.
  set (y := x ^ S n) in *.
  (* the numerator *)
  pose proof (within_scale _ P _ _ ltac:(lra) X2) as S1.
  set (s := P * (x - 1)) in *. set (t := P * r) in *.
  assert (Hs : 0 < s) by (apply Rmult_lt_0_compat; lra).
  assert (M1 : bracket (1 - 2 / 10000000000000000000000)
                       (1 + 2 / 10000000000000000000000) M s).
  { revert HM S1. rewrite unit_roundoff_prec. unfold within, bracket.
    intros [A B] [A' B']. split; lra. }
  assert (F3 : bracket (1 - 6 / 10000000000000000000000000000)
                       (1 + 6 / 10000000000000000000000000000) f y).
  { revert Hf. rewrite pow_roundoff_lit. unfold within, bracket. tauto. }
  assert (MF : bracket ((1 - 2 / 10000000000000000000000)
                        * (1 - 6 / 10000000000000000000000000000))
                       ((1 + 2 / 10000000000000000000000)
                        * (1 + 6 / 10000000000000000000000000000))
                       (M * f) (s * y))
    by (apply bracket_mul; [lra|lra|lra|lra|exact M1|exact F3]).
  assert (Zp : 0 < s * y) by (apply Rmult_lt_0_compat; lra).
  assert (N1 : within (3 / 10000000000000000000000) N (s * y)).
  { revert HN MF. rewrite unit_roundoff_prec. unfold within, bracket.
    set (Z := s * y) in *. set (mf := M * f) in *.
    intros [A B] [A' B']. split; lra. }
  (* the denominator *)
  assert (D1 : within (2 / 10000000000000000000000) D (y - 1)).
  { revert HD F2. rewrite unit_roundoff_prec. unfold within.
    intros [A B] [A' B']. split; lra. }
  pose proof (within_div (3 / 10000000000000000000000) (2 / 10000000000000000000000)
                (6 / 10000000000000000000000) N (s * y) D (y - 1)
                ltac:(lra) ltac:(lra) ltac:(lra) ltac:(lra) ltac:(lra) ltac:(lra)
                N1 D1) as Q1.
  replace (P * annuity x (S n)) with (s * y / (y - 1))
    by (unfold annuity, s; fold y; field; lra).
  assert (0 < s * y / (y - 1)) by (apply Rdiv_lt_0_compat; lra).
  revert Hq Q1. rewrite unit_roundoff_prec. unfold within, emi_roundoff.
  set (a := N / D). set (b := s * y / (y - 1)) in *.
  intros [A B] [A' B']. split; lra.
Qed.

End Annuity.

(** *** The installment against the exact annuity *)

Lemma val_cents (a : Z) : val (cents a) = (IZR a / 100)%R.
Proof.
  unfold val, cents. cbn [coef expo].
  change (powerRZ 10 (-2)) with (/ (10 * (10 * 1)))%R. field.
Qed.

Lemma within_pos (u x X : R) : (0 <= u < 1)%R -> (0 < X)%R -> within u x X -> (0 < x)%R.
Proof.
  unfold within. intros Hu HX [A _].
  apply Rlt_le_trans with (X * (1 - u))%R; [apply Rmult_lt_0_compat; lra | exact A].
Qed.

Lemma unit_roundoff_small : (0 <= unit_roundoff prec < 1)%R.
Proof. rewrite unit_roundoff_prec. lra. Qed.

(** The monthly rate of a rate of [a] hundredths of a percent. *)
Lemma monthly_rate_within (a : Z) (pm m : t) :
  0 < a ->
  Decimal.div (cents a) (of_Z 12) = Ok pm -> Decimal.div pm (of_Z 100) = Ok m ->
  0 < coef m /\
  within (11 / 10000000000000000000000000000) (val m) (IZR a / 120000).
Proof.
  intros Ha. unfold Decimal.div. intros D1 D2.
  assert (Hp : 1 <= prec) by (unfold prec; lia).
  pose proof (div_within prec (cents a) (of_Z 12) pm Hp ltac:(unfold cents; cbn [coef]; lia)
                ltac:(unfold of_Z; cbn [coef]; lia) D1) as W1.
  rewrite val_cents, val_of_Z in W1.
  assert (Ar : (0 < IZR a)%R) by (apply IZR_lt; lia).
  assert (Vpm : (0 < val pm)%R).
  { apply (within_pos _ _ _ unit_roundoff_small) in W1; [exact W1|].
    apply Rdiv_lt_0_compat; lra. }
  assert (Cpm : 0 < coef pm) by now apply val_pos.
  pose proof (div_within prec pm (of_Z 100) m Hp Cpm ltac:(unfold of_Z; cbn [coef]; lia) D2) as W2.
  rewrite val_of_Z in W2.
  assert (Vm : (0 < val m)%R).
  { apply (within_pos _ _ _ unit_roundoff_small) in W2; [exact W2|].
    apply Rdiv_lt_0_compat; lra. }
  split; [now apply val_pos|].
  revert W1 W2; rewrite unit_roundoff_prec; unfold within.
  replace (IZR a / 100 / 12)%R with (IZR a / 1200)%R by (field; lra).
  set (A := IZR a) in *; intros [L1 U1] [L2 U2]; split; lra.
Qed.

Lemma monthly_rate_returns (a : Z) :
  exists pm m,
    Decimal.div (cents a) (of_Z 12) = Ok pm /\ Decimal.div pm (of_Z 100) = Ok m.
Proof.
  unfold Decimal.div.
  destruct (div_returns prec (cents a) (of_Z 12) ltac:(unfold of_Z; cbn [coef]; lia)) as [pm D1].
  destruct (div_returns prec pm (of_Z 100) ltac:(unfold of_Z; cbn [coef]; lia)) as [m D2].
  eauto.
Qed.

Lemma monthly_rate_ge (a : Z) (r : R) :
  0 < a -> within (11 / 10000000000000000000000000000) r (IZR a / 120000) ->
  (8 / 1000000 <= r)%R.
Proof.
  intros Ha [L _]. assert (1 <= IZR a)%R by (apply IZR_le; lia). lra.
Qed.

(** The growth factor 1 + r. *)
Lemma growth_within (m : t) :
  0 < coef m ->
  within (unit_roundoff prec) (val (Decimal.add (of_Z 1) m)) (1 + val m).
Proof.
  intros Hm. apply val_pos in Hm.
  rewrite <- (val_of_Z 1). apply add_within; [unfold prec; lia|].
  rewrite val_of_Z. lra.
Qed.

(** What [calculate_emi] computes for a positive rate: the compounding
    factor, and the quotient that is rounded to cents. *)
Lemma emi_parts (P : t) (a : Z) (k : positive) (pm m : t) :
  0 < a ->
  Decimal.div (cents a) (of_Z 12) = Ok pm -> Decimal.div pm (of_Z 100) = Ok m ->
  exists f n,
    Pos.to_nat k = S n /\
    Decimal.pow (Decimal.add (of_Z 1) m) (Z.pos k) = Ok f /\
    within pow_roundoff (val f) (val (Decimal.add (of_Z 1) m) ^ S n) /\
    (1 + 78 / 10000000 <= val f)%R /\
    0 < coef (Decimal.sub f (of_Z 1)) /\
    within (unit_roundoff prec) (val (Decimal.sub f (of_Z 1))) (val f - 1) /\
    calculate_emi P (cents a) (Z.pos k)
    = (q <- Decimal.div (Decimal.mul (Decimal.mul P m) f) (Decimal.sub f (of_Z 1)) ;;
       Decimal.quantize q (-2)).
Proof.
  intros Ha D1 D2.
  destruct (monthly_rate_within a pm m Ha D1 D2) as [Cm Wm].
  pose proof (monthly_rate_ge a _ Ha Wm) as Rm.
  pose proof (growth_within m Cm) as Wx.
  set (x := Decimal.add (of_Z 1) m) in *.
  destruct (growth_error _ _ Rm Wx) as [X1 X2].
  assert (Cx : 0 < coef x) by (apply val_pos; lra).
  destruct (pow_returns x (Z.pos k) ltac:(lia)) as [f Ef].
  destruct (pow_within x f k Cx Ef) as [Cf Wf].
  destruct (Pos2Nat.is_succ k) as [n En]. rewrite En in Wf.
  destruct (factor_error _ _ n X1 Wf) as [F1 F2].
  assert (Wd : within (unit_roundoff prec) (val (Decimal.sub f (of_Z 1))) (val f - 1)).
  { rewrite <- (val_of_Z 1). apply sub_within; [unfold prec; lia|].
    rewrite val_of_Z. lra. }
  assert (Cd : 0 < coef (Decimal.sub f (of_Z 1))).
  { apply val_pos. apply (within_pos _ _ _ unit_roundoff_small) in Wd; [exact Wd|lra]. }
  refine (ex_intro _ f (ex_intro _ n
            (conj En (conj Ef (conj Wf (conj F1 (conj Cd (conj Wd _)))))))).
  unfold calculate_emi.
  rewrite (eqb_zero _ (of_Z 0) eq_refl).
  replace (coef (cents a) =? 0) with false
    by (symmetry; apply Z.eqb_neq; unfold cents; cbn [coef]; lia).
  rewrite D1. cbn [bind]. rewrite D2. cbn [bind]. fold x. rewrite Ef. cbn [bind].
  rewrite (eqb_zero _ (of_Z 0) eq_refl).
  replace (coef (Decimal.sub f (of_Z 1)) =? 0) with false
    by (symmetry; apply Z.eqb_neq; lia).
  reflexivity.
Qed.

(** The quotient of a positive principal, against the exact annuity. *)
Lemma emi_quotient (P : t) (a : Z) (k : positive) (pm m e : t) :
  0 < coef P -> 0 < a ->
  Decimal.div (cents a) (of_Z 12) = Ok pm -> Decimal.div pm (of_Z 100) = Ok m ->
  calculate_emi P (cents a) (Z.pos k) = Ok e ->
  exists q,
    Decimal.quantize q (-2) = Ok e /\
    within emi_roundoff (val q)
      (val P * annuity (val (Decimal.add (of_Z 1) m)) (Pos.to_nat k)).
Proof.
  intros HP Ha D1 D2 E.
  destruct (monthly_rate_within a pm m Ha D1 D2) as [Cm Wm].
  pose proof (monthly_rate_ge a _ Ha Wm) as Rm.
  pose proof (growth_within m Cm) as Wx.
  destruct (emi_parts P a k pm m Ha D1 D2) as (f & n & En & Ef & Wf & F1 & Cd & Wd & U).
  rewrite U in E. clear U.
  set (x := Decimal.add (of_Z 1) m) in *.
  assert (Hp : 1 <= prec) by (unfold prec; lia).
  assert (VP : (0 < val P)%R) by now apply val_pos.
  assert (Vm : (0 < val m)%R) by now apply val_pos.
  pose proof (mul_within prec P m Hp ltac:(lia) ltac:(lia)) as WM.
  fold (Decimal.mul P m) in WM. set (M := Decimal.mul P m) in *.
  assert (CM : 0 < coef M).
  { apply val_pos. apply (within_pos _ _ _ unit_roundoff_small) in WM; [exact WM|].
    now apply Rmult_lt_0_compat. }
  assert (Cf : 0 < coef f) by (apply val_pos; lra).
  pose proof (mul_within prec M f Hp ltac:(lia) ltac:(lia)) as WN.
  fold (Decimal.mul M f) in WN. set (N := Decimal.mul M f) in *.
  assert (CN : 0 < coef N).
  { apply val_pos. apply (within_pos _ _ _ unit_roundoff_small) in WN; [exact WN|].
    apply Rmult_lt_0_compat; [now apply val_pos | lra]. }
  set (D := Decimal.sub f (of_Z 1)) in *.
  destruct (Decimal.div N D) as [q|] eqn:Q; cbn [bind] in E; [|discriminate].
  pose proof (div_within prec N D q Hp CN Cd Q) as Wq.
  exists q. split; [exact E|]. rewrite En.
  exact (annuity_error _ _ _ _ _ _ _ _ n VP Rm Wx Wf WM WN Wd Wq).
Qed.

(** Nothing to pay on a principal of zero. *)
Lemma emi_zero_principal (P : t) (a : Z) (k : positive) (e : t) :
  coef P = 0 -> 0 < a ->
  calculate_emi P (cents a) (Z.pos k) = Ok e -> coef e = 0.
Proof.
  intros HP Ha E.
  destruct (monthly_rate_returns a) as (pm & m & D1 & D2).
  destruct (emi_parts P a k pm m Ha D1 D2) as (f & n & _ & _ & _ & _ & Cd & _ & U).
  rewrite U in E. clear U.
  assert (C0 : coef (Decimal.mul (Decimal.mul P m) f) = 0).
  { unfold Decimal.mul, mul_prec. rewrite HP. cbn [coef expo].
    rewrite Z.mul_0_l. unfold fix_ at 2. cbn [coef expo ndigits].
    replace (ndigits 0 <=? prec) with true by reflexivity. cbn [coef expo].
    rewrite Z.mul_0_l. unfold fix_. cbn [coef].
    replace (ndigits 0 <=? prec) with true by reflexivity. reflexivity. }
  unfold Decimal.div, div_prec in E.
  replace (coef (Decimal.sub f (of_Z 1)) =? 0) with false in E
    by (symmetry; apply Z.eqb_neq; lia).
  rewrite C0 in E. cbn [Z.eqb bind] in E.
  unfold quantize in E. cbn [coef Z.eqb] in E. injection E as <-. reflexivity.
Qed.

Lemma le_reflexive (x : t) : le x x.
Proof. apply le_val. lra. Qed.

Lemma emi_roundoff_small : (0 <= emi_roundoff <= 1)%R.
Proof. unfold emi_roundoff. lra. Qed.

Lemma growth_gt_one (a : Z) (pm m : t) :
  0 < a ->
  Decimal.div (cents a) (of_Z 12) = Ok pm -> Decimal.div pm (of_Z 100) = Ok m ->
  (1 + 79 / 10000000 <= val (Decimal.add (of_Z 1) m))%R.
Proof.
  intros Ha D1 D2.
  destruct (monthly_rate_within a pm m Ha D1 D2) as [Cm Wm].
  pose proof (monthly_rate_ge a _ Ha Wm) as Rm.
  exact (proj1 (growth_error _ _ Rm (growth_within m Cm))).
Qed.

Lemma val_pow10 (k : Z) : 0 <= k -> val (mk 1 k) = IZR (10 ^ k).
Proof. intros Hk. unfold val. cbn [coef expo]. rewrite IZR_pow10 by exact Hk. ring. Qed.

End ExactFacts.

(** ** The salary rule *)

Section SalaryRule.
Import Decimal DecimalFacts Rounding RoundingFacts.

Variable c : Customer.
Variable tbl : list Loan.

(** C2: when the monthly salary is positive and twice the repayments of the
    active loans exceed it (the repayments are strictly more than half the
    salary, in exact arithmetic), the check answers at once: not approved,
    the requested rate unchanged, installment 0.00; neither the score, nor
    the amount, nor the limit is looked at.  The salary is a column value,
    of fewer than 28 digits, so that its decimal half is exact. *)
Theorem emi_gate_rejects (amount rate : decimal) (n : Z) :
  0 < coef (monthly_salary c) ->
  ndigits (coef (monthly_salary c)) < prec ->
  Decimal.ltb (monthly_salary c)
              (add_exact (total_current_emis c tbl) (total_current_emis c tbl)) = true ->
  (forall score,
      eligibility_for_score c tbl score amount rate n
      = Ok (mkResult (customer_id c) false rate rate n (cents 0))) /\
  (forall yr,
      get_eligibility_result c tbl yr amount rate n
      = Ok (mkResult (customer_id c) false rate rate n (cents 0))).
Proof.
  intros Hpos Hdig Hlt.
  destruct (half_exact (monthly_salary c) Hpos Hdig) as (h & D & G & Gx & V).
  apply (emi_gate_rejects_on_half c tbl h); [exact Hpos|exact D|].
  set (x := monthly_salary c) in *. set (T := total_current_emis c tbl) in *.
  set (e := div_exp prec x (of_Z 2)) in *.
  set (s := Z.min e (expo T)).
  unfold gtb. apply (lt_at_scale s); [lia|lia|].
  assert (HT : at_scale s (add_exact T T) = 2 * at_scale s T).
  { unfold add_exact, at_scale. cbn [coef expo]. rewrite Z.min_id, Z.sub_diag.
    change (10 ^ 0) with 1. lia. }
  pose proof (proj1 (lt_at_scale s x (add_exact T T) ltac:(lia)
                       ltac:(unfold add_exact; cbn [expo]; lia)) Hlt) as L.
  rewrite HT in L.
  rewrite (at_scale_shift s e x) in L by lia.
  rewrite (at_scale_shift s e h) by lia.
  rewrite <- V in L. lia.
Qed.

End SalaryRule.

(** ** The EMI calculator *)

Section EmiFacts.
Import Decimal DecimalFacts Rounding RoundingFacts Exact ExactFacts.

(** C3, as the code has it: for a positive rate and a positive tenure the
    monthly rate [m = (a / 12) / 100] and the factor [f = (1 + m) ** n] exist
    as 28-digit decimals; when [f - 1] is not zero the installment is the
    28-digit quotient [q] of [P * m * f] by [f - 1], quantized to cents with
    the rounding of the context: the result is within half a cent of [q], and
    on an exact half it is the even amount in cents.  The quantization
    returns whenever [q] is below [10^25]. *)
Theorem emi_rounds_half_even (P a : decimal) (n : Z) :
  0 < coef a -> 0 < n ->
  exists pm m f,
    Decimal.div a (of_Z 12) = Ok pm /\
    Decimal.div pm (of_Z 100) = Ok m /\
    Decimal.pow (Decimal.add (of_Z 1) m) n = Ok f /\
    (Decimal.eqb (Decimal.sub f (of_Z 1)) (of_Z 0) = false ->
     exists q,
       Decimal.div (Decimal.mul (Decimal.mul P m) f) (Decimal.sub f (of_Z 1)) = Ok q /\
       calculate_emi P a n = quantize q (-2) /\
       (coef q = 0 \/ expo q + ndigits (coef q) + 2 < prec ->
        exists r,
          calculate_emi P a n = Ok r /\ expo r = -2 /\
          let s := Z.min (-2) (expo q) in
          let u := 10 ^ (-2 - s) in
          2 * Z.abs (coef r * u - at_scale s q) <= u /\
          (2 * Z.abs (coef r * u - at_scale s q) = u -> Z.even (coef r) = true))).
Proof.
  intros Ha Hn.
  destruct (div_returns prec a (of_Z 12) ltac:(unfold of_Z; cbn [coef]; lia)) as [pm D12].
  destruct (div_returns prec pm (of_Z 100) ltac:(unfold of_Z; cbn [coef]; lia)) as [m D100].
  destruct (pow_returns (Decimal.add (of_Z 1) m) n Hn) as [f Dpow].
  exists pm, m, f. repeat split; try assumption.
  intros Hden.
  assert (Hd : coef (Decimal.sub f (of_Z 1)) <> 0).
  { rewrite (eqb_zero _ (of_Z 0) eq_refl) in Hden. now apply Z.eqb_neq. }
  destruct (div_returns prec (Decimal.mul (Decimal.mul P m) f) _ Hd) as [q Dq].
  assert (E : calculate_emi P a n = quantize q (-2)).
  { unfold calculate_emi. rewrite (eqb_zero a (of_Z 0) eq_refl).
    replace (coef a =? 0) with false by (symmetry; apply Z.eqb_neq; lia).
    unfold Decimal.div in *. rewrite D12. cbn [bind]. rewrite D100. cbn [bind].
    rewrite Dpow. cbn [bind]. rewrite Hden. rewrite Dq. reflexivity. }
  exists q. repeat split; try assumption.
  intros Hfit.
  destruct (quantize_returns q (-2)) as [r Hr]; [destruct Hfit; [left|right]; lia|].
  exists r. rewrite E. split; [exact Hr|].
  exact (quantize_nearest q r Hr).
Qed.

(** For a rate that is not negative and a positive tenure, a larger
    principal never gets a smaller installment (whenever the calculator
    returns for both principals). *)
Lemma emi_mono_principal (P1 P2 rate : decimal) (n : Z) (e1 e2 : decimal) :
  Decimal.le P1 P2 -> 0 <= Decimal.coef rate -> 0 < n ->
  calculate_emi P1 rate n = Ok e1 ->
  calculate_emi P2 rate n = Ok e2 ->
  Decimal.le e1 e2.
Proof.
  intros Hle Hrate Hn. unfold calculate_emi, Decimal.div, Decimal.mul, Decimal.sub, Decimal.add.
  assert (Hp : 1 <= prec) by (unfold prec; lia).
  assert (Fallback : forall r1 r2,
             div_prec prec P1 (of_Z n) = Ok r1 -> div_prec prec P2 (of_Z n) = Ok r2 ->
             le r1 r2).
  { intros r1 r2. apply div_mono; [exact Hp | unfold of_Z; cbn [coef]; lia | exact Hle]. }
  destruct (Decimal.eqb rate (of_Z 0)); [apply Fallback|].
  destruct (div_prec prec rate (of_Z 12)) as [pm|] eqn:D12; cbn [bind]; [|discriminate].
  destruct (div_prec prec pm (of_Z 100)) as [m|] eqn:D100; cbn [bind]; [|discriminate].
  assert (Hpm : 0 <= coef pm)
    by (apply (div_sign prec rate (of_Z 12) pm Hp ltac:(unfold of_Z; cbn [coef]; lia) D12); exact Hrate).
  assert (Hm : 0 <= coef m)
    by (apply (div_sign prec pm (of_Z 100) m Hp ltac:(unfold of_Z; cbn [coef]; lia) D100); exact Hpm).
  pose proof (add_one_ge_one prec m Hp Hm) as Hbase.
  destruct (pow (add_prec prec (of_Z 1) m) n) as [f|] eqn:Dpow; cbn [bind]; [|discriminate].
  assert (Hf : le (of_Z 1) f) by exact (pow_ge_one _ f n Hn Hbase Dpow).
  assert (Hfpos : 0 < coef f) by (apply (le_pos_r _ _ Hf); unfold of_Z; cbn [coef]; lia).
  pose proof (sub_one_nonneg prec f Hf) as Hden.
  rewrite (eqb_zero _ (of_Z 0) eq_refl).
  destruct (coef (sub_prec prec f (of_Z 1)) =? 0) eqn:Ez; [apply Fallback|].
  apply Z.eqb_neq in Ez.
  destruct (div_prec prec (mul_prec prec (mul_prec prec P1 m) f) _) as [q1|] eqn:Q1;
    cbn [bind]; [|discriminate].
  destruct (div_prec prec (mul_prec prec (mul_prec prec P2 m) f) _) as [q2|] eqn:Q2;
    cbn [bind]; [|discriminate].
  intros Z1 Z2. apply (quantize_mono q1 q2 e1 e2 (-2)); [|exact Z1|exact Z2].
  assert (Hdpos : 0 < coef (sub_prec prec f (of_Z 1))) by lia.
  refine (div_mono prec _ _ _ q1 q2 Hp Hdpos _ Q1 Q2).
  apply mul_mono_l; [exact Hp|lia|]. apply mul_mono_l; [exact Hp|lia|exact Hle].
Qed.

(** The installment does not decrease with the rate, over the positive rates
    of the request field (two decimal places, at most 999.99). *)
Lemma emi_mono_rate (P : decimal) (a b n : Z) (e1 e2 : decimal) :
  0 <= coef P -> 0 < a <= b -> b <= 99999 -> 0 < n ->
  calculate_emi P (cents a) n = Ok e1 ->
  calculate_emi P (cents b) n = Ok e2 ->
  Decimal.le e1 e2.
Proof.
  intros HP [Ha Hab] Hb Hn E1 E2.
  destruct n as [|k|k]; try lia.
  destruct (Z.eq_dec a b) as [<-|Hne].
  { rewrite E1 in E2. injection E2 as <-. apply le_reflexive. }
  destruct (Z.eq_dec (coef P) 0) as [P0|P0].
  { apply le_of_signs.
    - rewrite (emi_zero_principal P a k e1 P0 Ha E1). lia.
    - rewrite (emi_zero_principal P b k e2 P0 ltac:(lia) E2). lia. }
  destruct (monthly_rate_returns a) as (pm1 & m1 & D1 & D1').
  destruct (monthly_rate_returns b) as (pm2 & m2 & D2 & D2').
  destruct (emi_quotient P a k pm1 m1 e1 ltac:(lia) Ha D1 D1' E1) as (q1 & Z1 & W1).
  destruct (emi_quotient P b k pm2 m2 e2 ltac:(lia) ltac:(lia) D2 D2' E2) as (q2 & Z2 & W2).
  apply (quantize_mono q1 q2 e1 e2 (-2)); [|exact Z1|exact Z2].
  apply le_val.
  destruct (monthly_rate_within a pm1 m1 Ha D1 D1') as [C1 R1].
  destruct (monthly_rate_within b pm2 m2 ltac:(lia) D2 D2') as [C2 R2].
  pose proof (growth_within m1 C1) as X1. pose proof (growth_within m2 C2) as X2.
  pose proof (growth_gt_one a pm1 m1 Ha D1 D1') as G1.
  pose proof (growth_gt_one b pm2 m2 ltac:(lia) D2 D2') as G2.
  set (x1 := val (Decimal.add (of_Z 1) m1)) in *.
  set (x2 := val (Decimal.add (of_Z 1) m2)) in *.
  destruct (Pos2Nat.is_succ k) as [j Ej]. rewrite Ej in W1, W2.
  assert (Sep : (x1 * (1 + emi_roundoff) <= x2 * (1 - emi_roundoff))%R).
  { assert (A1 : (1 <= IZR a)%R) by (apply IZR_le; lia).
    assert (A2 : (IZR a + 1 <= IZR b)%R) by (rewrite <- plus_IZR; apply IZR_le; lia).
    assert (A3 : (IZR b <= 99999)%R) by (apply IZR_le; lia).
    revert R1 R2 X1 X2. rewrite unit_roundoff_prec. unfold within, emi_roundoff.
    generalize (val m1) (val m2) (IZR a) (IZR b) A1 A2 A3. clear.
    intros r1 r2 A B A1 A2 A3 [L1 U1] [L2 U2] [L3 U3] [L4 U4]. lra. }
  apply (rate_order emi_roundoff (val P) (annuity x1 (S j)) (annuity x2 (S j)) x1 x2).
  - exact emi_roundoff_small.
  - apply val_pos. lia.
  - apply annuity_pos. lra.
  - apply annuity_pos. lra.
  - lra.
  - apply annuity_rate. split; [lra|].
    unfold emi_roundoff in Sep. lra.
  - exact Sep.
  - exact W1.
  - exact W2.
Qed.

(** The installment does not increase with the tenure, while the compounding
    factor of the longer tenure stays within 10^14. *)
Lemma emi_mono_tenure (P : decimal) (a n1 n2 : Z) (f2 e1 e2 : decimal) :
  0 <= coef P -> 0 < a -> 0 < n1 <= n2 ->
  pow_factor (cents a) n2 = Ok f2 -> Decimal.le f2 (mk 1 14) ->
  calculate_emi P (cents a) n1 = Ok e1 ->
  calculate_emi P (cents a) n2 = Ok e2 ->
  Decimal.le e2 e1.
Proof.
  intros HP Ha [Hn1 Hn] F2 Cap E1 E2.
  destruct n1 as [|k1|k1]; try lia. destruct n2 as [|k2|k2]; try lia.
  destruct (Pos.eq_dec k1 k2) as [<-|Hne].
  { rewrite E1 in E2. injection E2 as <-. apply le_reflexive. }
  destruct (Z.eq_dec (coef P) 0) as [P0|P0].
  { apply le_of_signs.
    - rewrite (emi_zero_principal P a k2 e2 P0 Ha E2). lia.
    - rewrite (emi_zero_principal P a k1 e1 P0 Ha E1). lia. }
  destruct (monthly_rate_returns a) as (pm & m & D1 & D2).
  destruct (emi_quotient P a k1 pm m e1 ltac:(lia) Ha D1 D2 E1) as (q1 & Z1 & W1).
  destruct (emi_quotient P a k2 pm m e2 ltac:(lia) Ha D1 D2 E2) as (q2 & Z2 & W2).
  apply (quantize_mono q2 q1 e2 e1 (-2)); [|exact Z2|exact Z1].
  apply le_val.
  pose proof (growth_gt_one a pm m Ha D1 D2) as G.
  destruct (emi_parts P a k2 pm m Ha D1 D2) as (f & j2 & Ej2 & Ef & Wf & _).
  unfold pow_factor in F2. rewrite D1 in F2. cbn [bind] in F2.
  rewrite D2 in F2. cbn [bind] in F2. rewrite Ef in F2. injection F2 as ->.
  apply le_val in Cap. rewrite val_pow10 in Cap by lia.
  change (10 ^ 14) with 100000000000000 in Cap.
  set (x := val (Decimal.add (of_Z 1) m)) in *.
  destruct (Pos2Nat.is_succ k1) as [j1 Ej1].
  rewrite Ej1 in W1. rewrite Ej2 in W2.
  assert (Hj : (j1 < j2)%nat).
  { assert (Pos.to_nat k1 <> Pos.to_nat k2) by (intros H; apply Hne, Pos2Nat.inj, H).
    assert (Pos.to_nat k1 <= Pos.to_nat k2)%nat by (apply Pos2Nat.inj_le; lia).
    lia. }
  pose proof (geo_ge_one x j2 ltac:(lra)) as Gg.
  assert (Gcap : (geo x (S j2) <= 100000000000000000000)%R).
  { pose proof (geo_closed x (S j2)) as Cl.
    revert Wf. rewrite pow_roundoff_lit. unfold within. intros [Lf _].
    set (g := geo x (S j2)) in *. set (y := (x ^ S j2)%R) in *.
    assert ((79 / 10000000) * g <= (x - 1) * g)%R
      by (apply Rmult_le_compat_r; lra).
    lra. }
  apply (tenure_order emi_roundoff (val P) (annuity x (S j1)) (annuity x (S j2))
           (geo x (S j2))).
  - exact emi_roundoff_small.
  - apply val_pos. lia.
  - apply annuity_pos. lra.
  - apply annuity_pos. lra.
  - exact Gg.
  - unfold emi_roundoff. lra.
  - apply annuity_tenure_lt; [lra | exact Hj].
  - exact W1.
  - exact W2.
Qed.

(** C8, the part the code keeps.  Whenever the calculator returns for both
    requests: a larger principal never gets a smaller installment (rate not
    negative, tenure positive); a higher rate never gets a smaller
    installment, over the positive rates of the request field (two decimal
    places, 0.01 to 999.99); and a longer tenure never gets a larger
    installment at such a positive rate, as long as the compounding factor
    [pow_factor] of the longer tenure is at most 10^14. *)
Theorem emi_monotone :
  (forall (P1 P2 rate : decimal) (n : Z) (e1 e2 : decimal),
     Decimal.le P1 P2 -> 0 <= Decimal.coef rate -> 0 < n ->
     calculate_emi P1 rate n = Ok e1 ->
     calculate_emi P2 rate n = Ok e2 ->
     Decimal.le e1 e2) /\
  (forall (P : decimal) (a b n : Z) (e1 e2 : decimal),
     0 <= Decimal.coef P -> 0 < a <= b -> b <= 99999 -> 0 < n ->
     calculate_emi P (cents a) n = Ok e1 ->
     calculate_emi P (cents b) n = Ok e2 ->
     Decimal.le e1 e2) /\
  (forall (P : decimal) (a n1 n2 : Z) (f2 e1 e2 : decimal),
     0 <= Decimal.coef P -> 0 < a -> 0 < n1 <= n2 ->
     pow_factor (cents a) n2 = Ok f2 -> Decimal.le f2 (Decimal.mk 1 14) ->
     calculate_emi P (cents a) n1 = Ok e1 ->
     calculate_emi P (cents a) n2 = Ok e2 ->
     Decimal.le e2 e1).
Proof.
  split; [exact emi_mono_principal | split; [exact emi_mono_rate | exact emi_mono_tenure]].
Qed.

End EmiFacts.

(** * The other endpoints *)

(** ** Registration *)

Section RegistrationFacts.
Import Decimal DecimalFacts Rounding RoundingFacts.

Lemma ndigits_pow10 (j : Z) : 0 <= j -> ndigits (10 ^ j) = j + 1.
Proof.
  intros Hj. rewrite <- (Z.mul_1_l (10 ^ j)).
  rewrite ndigits_mul_pow10 by lia. change (ndigits 1) with 1. lia.
Qed.

(** Dividing a number of at most [prec] digits by a power of ten is exact. *)
Lemma div_pow10_exact (x h : t) (j : Z) :
  coef x <> 0 -> ndigits (coef x) <= prec -> 0 <= j ->
  Decimal.div x (of_Z (10 ^ j)) = Ok h ->
  let e := expo x - j - (30 - ndigits (coef x)) in
  e <= expo h /\ at_scale e h = coef x * 10 ^ (30 - ndigits (coef x)).
Proof.
  intros Hx Hn Hj D. cbv zeta.
  assert (Hp : 1 <= prec) by (unfold prec; lia).
  pose proof (pow10_pos j Hj) as Pj.
  destruct (div_value prec x (of_Z (10 ^ j)) Hp Hx ltac:(unfold of_Z; cbn [coef]; lia))
    as (h' & D' & G & V).
  unfold Decimal.div in D. rewrite D in D'. injection D' as <-.
  pose proof (ndigits_pos (coef x)) as Hn1.
  set (nd := ndigits (coef x)) in *.
  assert (Hs : div_shift prec x (of_Z (10 ^ j)) = j + (30 - nd)).
  { unfold div_shift, of_Z. cbn [coef]. rewrite !ndigits_abs.
    rewrite ndigits_pow10 by lia. fold nd. unfold prec. lia. }
  assert (He : div_exp prec x (of_Z (10 ^ j)) = expo x - j - (30 - nd)).
  { unfold div_exp. rewrite Hs. unfold of_Z. cbn [expo]. lia. }
  rewrite He in G, V. split; [exact G|]. rewrite V.
  change (coef (of_Z (10 ^ j))) with (10 ^ j).
  rewrite (Z.sgn_pos (10 ^ j)), Z.mul_1_r by lia.
  assert (Hnum : div_num prec x (of_Z (10 ^ j)) = Z.abs (coef x) * 10 ^ (j + (30 - nd))).
  { unfold div_num. rewrite Hs.
    replace (0 <=? j + (30 - nd)) with true
      by (symmetry; apply Z.leb_le; unfold prec in Hn; lia).
    reflexivity. }
  assert (Hden : div_den prec x (of_Z (10 ^ j)) = 10 ^ j).
  { unfold div_den. rewrite Hs.
    replace (0 <=? j + (30 - nd)) with true
      by (symmetry; apply Z.leb_le; unfold prec in Hn; lia).
    unfold of_Z. cbn [coef]. apply Z.abs_eq. lia. }
  rewrite Hnum, Hden. unfold round_quot.
  set (a := Z.abs (coef x)).
  assert (Ha : 0 < a) by (unfold a; lia).
  assert (Hq : a * 10 ^ (j + (30 - nd)) / 10 ^ j = a * 10 ^ (30 - nd)).
  { rewrite (Z.add_comm j), pow10_split by (unfold prec in Hn; lia).
    rewrite Z.mul_assoc. apply Z.div_mul. lia. }
  rewrite Hq.
  assert (Hd30 : ndigits (a * 10 ^ (30 - nd)) = 30).
  { rewrite ndigits_mul_pow10 by (unfold prec in Hn; lia).
    unfold a. rewrite ndigits_abs. fold nd. lia. }
  rewrite Hd30. replace (30 - prec) with 2 by (unfold prec; lia).
  replace (a * 10 ^ (j + (30 - nd))) with (a * 10 ^ (28 - nd) * (10 ^ j * 10 ^ 2)).
  2:{ replace (j + (30 - nd)) with ((28 - nd) + (j + 2)) by lia.
      rewrite (pow10_split (28 - nd)) by (unfold prec in Hn; lia).
      rewrite (pow10_split j 2) by lia. ring. }
  rewrite rne_exact by (change (10 ^ 2) with 100; lia).
  replace (30 - nd) with ((28 - nd) + 2) by lia.
  rewrite pow10_split by (unfold prec in Hn; lia).
  unfold a. pose proof (Z.abs_sgn (coef x)). nia.
Qed.

(** [round] sees only the value of its argument. *)
Lemma round_to_int_at_scale (d : t) (s : Z) :
  s <= expo d -> s <= 0 ->
  round_to_int d = round_half_even (at_scale s d) (10 ^ (- s)).
Proof.
  intros Hs H0. unfold round_to_int, at_scale.
  destruct (Z.leb_spec 0 (expo d)) as [P|N].
  - replace (expo d - s) with (expo d + - s) by lia.
    rewrite pow10_split, Z.mul_assoc by lia.
    rewrite round_half_even_exact by (apply pow10_pos; lia). reflexivity.
  - replace (- s) with (- expo d + (expo d - s)) by lia.
    rewrite pow10_split by lia.
    rewrite round_half_even_scale by (apply pow10_pos; lia). reflexivity.
Qed.

(** The limit of a registration, on the coefficient of the income. *)
Lemma registration_limit_value (pk : Z) (db : Ledger) (data : RegistrationData) (c e : Z) :
  reg_monthly_salary data = mk c e -> e <= 0 -> Z.abs (36 * c) < 10 ^ 28 ->
  exists db' cu,
    CustomerRegistrationSerializer.create pk db data = Ok (db', cu) /\
    approved_limit cu
    = Some (of_Z (round_half_even (36 * c) (10 ^ (5 - e)) * 100000)).
Proof.
  intros Hs He Hc. unfold CustomerRegistrationSerializer.create. rewrite Hs.
  assert (Hm : Decimal.mul (of_Z 36) (mk c e) = mk (36 * c) e).
  { unfold Decimal.mul, mul_prec. cbn [of_Z coef expo]. rewrite Z.add_0_l.
    apply fix_small; [exact Hc | unfold prec; lia]. }
  rewrite Hm.
  destruct (div_returns prec (mk (36 * c) e) (of_Z 100000)
              ltac:(unfold of_Z; cbn [coef]; lia)) as [h D].
  fold (Decimal.div (mk (36 * c) e) (of_Z 100000)) in D. rewrite D. cbn [bind].
  eexists. eexists. split; [reflexivity|]. cbn [approved_limit].
  do 3 f_equal.
  destruct (Z.eq_dec c 0) as [->|Hc0].
  - unfold Decimal.div, div_prec in D. cbn [coef of_Z Z.eqb Z.mul] in D.
    injection D as <-. unfold round_to_int. cbn [coef expo].
    assert (R0 : forall p, round_half_even 0 p = 0) by reflexivity.
    change (36 * 0) with 0. rewrite !R0.
    destruct (0 <=? e - 0); reflexivity.
  - change 100000 with (10 ^ 5) in D.
    destruct (div_pow10_exact (mk (36 * c) e) h 5 ltac:(cbn [coef]; lia)
                ltac:(cbn [coef]; apply ndigits_le; [exact Hc | unfold prec; lia])
                ltac:(lia) D) as [G V].
    cbn [coef expo] in G, V.
    pose proof (ndigits_pos (36 * c)) as N1.
    assert (N2 : ndigits (36 * c) <= 28) by (apply ndigits_le; [exact Hc | lia]).
    set (nd := ndigits (36 * c)) in *.
    rewrite (round_to_int_at_scale h (e - 5 - (30 - nd)) G ltac:(lia)), V.
    replace (- (e - 5 - (30 - nd))) with ((5 - e) + (30 - nd)) by lia.
    rewrite pow10_split by lia.
    apply round_half_even_scale; apply pow10_pos; lia.
Qed.

End RegistrationFacts.

Section RegistrationClaims.
Import Decimal DecimalFacts Rounding RoundingFacts.

(** X1: a registration sets the approved limit to the multiple of 100000 that
    is nearest to 36 times the monthly income, and to the even multiple when
    the product lies exactly between two.  The income is [c * 10^e] with
    [e <= 0], of so few digits that the product is exact. *)
Theorem registration_limit_nearest_lakh
    (pk : Z) (db : Ledger) (data : RegistrationData) (c e : Z) :
  reg_monthly_salary data = mk c e -> e <= 0 -> Z.abs (36 * c) < 10 ^ 28 ->
  exists db' cu k,
    CustomerRegistrationSerializer.create pk db data = Ok (db', cu) /\
    approved_limit cu = Some (of_Z (k * 100000)) /\
    2 * Z.abs (k * 10 ^ (5 - e) - 36 * c) <= 10 ^ (5 - e) /\
    (2 * Z.abs (k * 10 ^ (5 - e) - 36 * c) = 10 ^ (5 - e) -> Z.even k = true).
Proof.
  intros Hs He Hc.
  destruct (registration_limit_value pk db data c e Hs He Hc) as (db' & cu & E & L).
  exists db', cu, (round_half_even (36 * c) (10 ^ (5 - e))).
  split; [exact E|]. split; [exact L|].
  apply round_half_even_spec. apply pow10_pos. lia.
Qed.

(** X2: a higher income never gets a lower limit (incomes with two places). *)
Theorem registration_limit_monotone
    (pk1 pk2 : Z) (db1 db2 : Ledger) (d1 d2 : RegistrationData) (c1 c2 : Z)
    (db1' db2' : Ledger) (cu1 cu2 : Customer) :
  reg_monthly_salary d1 = cents c1 -> reg_monthly_salary d2 = cents c2 ->
  Z.abs c1 < 10 ^ 10 -> Z.abs c2 < 10 ^ 10 -> c1 <= c2 ->
  CustomerRegistrationSerializer.create pk1 db1 d1 = Ok (db1', cu1) ->
  CustomerRegistrationSerializer.create pk2 db2 d2 = Ok (db2', cu2) ->
  exists l1 l2,
    approved_limit cu1 = Some l1 /\ approved_limit cu2 = Some l2 /\ Decimal.le l1 l2.
Proof.
  intros H1 H2 B1 B2 Hle E1 E2.
  assert (P10 : 36 * 10 ^ 10 < 10 ^ 28) by (vm_compute; reflexivity).
  destruct (registration_limit_value pk1 db1 d1 c1 (-2) H1 ltac:(lia) ltac:(lia))
    as (a1 & b1 & E1' & L1).
  destruct (registration_limit_value pk2 db2 d2 c2 (-2) H2 ltac:(lia) ltac:(lia))
    as (a2 & b2 & E2' & L2).
  rewrite E1 in E1'. injection E1' as <- <-.
  rewrite E2 in E2'. injection E2' as <- <-.
  eexists. eexists. split; [exact L1|]. split; [exact L2|].
  apply (le_at_scale 0); cbn [of_Z expo]; [lia|lia|].
  unfold at_scale. cbn [of_Z coef expo]. change (10 ^ (0 - 0)) with 1.
  pose proof (round_half_even_mono (36 * c1) (36 * c2) (10 ^ (5 - -2))
                ltac:(vm_compute; reflexivity) ltac:(lia)).
  lia.
Qed.

(** Rounding to the nearest gives 0 below half a unit. *)
Lemma round_half_even_small (c p : Z) :
  0 < p -> 2 * Z.abs c <= p -> round_half_even c p = 0.
Proof.
  intros Hp Hc. destruct (round_half_even_spec c p Hp) as [S T].
  set (k := round_half_even c p) in *.
  destruct (Z.eq_dec k 0) as [K|K]; [exact K|exfalso].
  assert (A : 1 <= Z.abs k) by lia.
  assert (B : p <= Z.abs (k * p)) by (rewrite Z.abs_mul, (Z.abs_eq p) by lia; nia).
  assert (C : 2 * Z.abs (k * p - c) = p) by lia.
  assert (D : Z.abs k = 1) by (rewrite Z.abs_mul, (Z.abs_eq p) in B by lia; nia).
  specialize (T C). destruct k as [|[ | |]|[ | |]]; cbn in D, T; try lia; discriminate.
Qed.

End RegistrationClaims.

(** ** What the eligibility check does for every customer *)

Section EligibilityExtras.
Import Decimal DecimalFacts Rounding RoundingFacts.

Variable c : Customer.
Variable tbl : list Loan.
Variable yr : Z.

(** The score of a customer without loans. *)
Lemma score_without_loans :
  loans_of c tbl = [] -> calculate_credit_score c tbl yr = 100.
Proof.
  intros Hnone. unfold calculate_credit_score, limit_is_positive.
  rewrite Hnone. cbn [active filter sum_int sum_dec or_default List.length Z.of_nat].
  cbv zeta. cbn [Z.ltb Z.compare].
  destruct (approved_limit c) as [l|]; [|reflexivity].
  unfold truthy.
  rewrite (gtb_zero l (of_Z 0) eq_refl).
  destruct (0 <? coef l) eqn:Hpos.
  - apply Z.ltb_lt in Hpos.
    replace (coef l =? 0) with false by (symmetry; apply Z.eqb_neq; lia).
    cbn [negb andb].
    unfold gtb at 1 2.
    rewrite !(ltb_zero _ (cents 0) eq_refl).
    assert (H15 : 0 <= coef (Decimal.mul l (mk 15 (-1)))).
    { apply mul_nonneg; cbn; lia. }
    replace (coef (Decimal.mul l _) <? 0) with false
      by (symmetry; apply Z.ltb_ge; exact H15).
    replace (coef l <? 0) with false by (symmetry; apply Z.ltb_ge; lia).
    reflexivity.
  - rewrite andb_false_r. reflexivity.
Qed.

(** Without active loans the salary rule lets the request through. *)
Lemma salary_rule_without_loans :
  active (loans_of c tbl) = [] -> emis_exceed_half_salary c tbl = Ok false.
Proof.
  intros Hnone. unfold emis_exceed_half_salary, total_current_emis.
  rewrite Hnone. cbn [sum_dec or_default].
  destruct (truthy (monthly_salary c) && gtb (monthly_salary c) (of_Z 0)) eqn:G;
    [|reflexivity].
  apply andb_true_iff in G. destruct G as [_ G].
  rewrite (gtb_zero _ (of_Z 0) eq_refl) in G. apply Z.ltb_lt in G.
  destruct (div_returns prec (monthly_salary c) (of_Z 2)
              ltac:(unfold of_Z; cbn [coef]; lia)) as [half D].
  unfold Decimal.div. rewrite D. cbn [bind].
  destruct (div_sign prec (monthly_salary c) (of_Z 2) half ltac:(unfold prec; lia)
              ltac:(unfold of_Z; cbn [coef]; lia) D) as [S _].
  unfold gtb. rewrite (ltb_zero half (cents 0) eq_refl).
  replace (coef half <? 0) with false by (symmetry; apply Z.ltb_ge; lia).
  reflexivity.
Qed.

(** X4: the rate floors of 12% and 16% are never applied: whatever the loans of
    the customer, a check that returns leaves the requested rate as the
    corrected rate, and it approves only with a score of at least 57. *)
Theorem rate_is_never_corrected (amount rate : decimal) (n : Z) (r : EligibilityResult) :
  get_eligibility_result c tbl yr amount rate n = Ok r ->
  corrected_interest_rate r = rate /\
  res_interest_rate r = rate /\
  (approval r = true -> 57 <= calculate_credit_score c tbl yr).
Proof.
  unfold get_eligibility_result, eligibility_for_score.
  destruct (emis_exceed_half_salary c tbl) as [[|]|]; cbn [bind];
    [ intros [= <-]; cbn; repeat split; discriminate | | discriminate ].
  destruct (credit_score_values c tbl yr) as [Z0|Hs].
  - rewrite Z0. cbn [Z.ltb Z.leb Z.compare andb].
    intros [= <-]. cbn. repeat split; discriminate.
  - replace (50 <? calculate_credit_score c tbl yr) with true
      by (symmetry; apply Z.ltb_lt; lia).
    destruct (approved_limit c) as [l|];
      [ destruct (eqb l (cents 0)) | ];
      try destruct (gtb amount (cents 0));
      try destruct (gtb amount l);
      try destruct (calculate_emi amount rate n);
      cbn [bind]; intros [= <-]; cbn; repeat split; lia.
Qed.

(** X5: a customer without loans is judged by the limit alone: with a limit
    that is set and not zero, an amount above it is refused and any other
    amount is approved at the requested rate, with the installment of the
    EMI calculator. *)
Theorem first_request_is_limit_gate (l amount rate : decimal) (n : Z) :
  loans_of c tbl = [] ->
  approved_limit c = Some l -> eqb l (cents 0) = false ->
  get_eligibility_result c tbl yr amount rate n
  = if gtb amount l
    then Ok (mkResult (customer_id c) false rate rate n (cents 0))
    else emi <- calculate_emi amount rate n ;;
         Ok (mkResult (customer_id c) true rate rate n emi).
Proof.
  intros Hnone Hl Hz. unfold get_eligibility_result.
  rewrite (score_without_loans Hnone). unfold eligibility_for_score.
  rewrite salary_rule_without_loans by (rewrite Hnone; reflexivity).
  cbn [bind Z.ltb Z.compare]. rewrite Hl, Hz. reflexivity.
Qed.

(** Without a limit (unset, or zero) no positive amount is ever approved. *)
Lemma no_limit_no_loan (amount rate : decimal) (n : Z) :
  (approved_limit c = None \/ exists l, approved_limit c = Some l /\ coef l = 0) ->
  0 < coef amount ->
  exists r, get_eligibility_result c tbl yr amount rate n = Ok r /\
            approval r = false /\ monthly_installment r = cents 0.
Proof.
  intros Hl Ha. unfold get_eligibility_result, eligibility_for_score.
  destruct (emis_exceed_half_salary_returns c tbl) as [b ->]. cbn [bind].
  destruct b; [eexists; split; [reflexivity|]; split; reflexivity|].
  rewrite (gtb_zero amount (cents 0) eq_refl).
  replace (0 <? coef amount) with true by (symmetry; apply Z.ltb_lt; lia).
  destruct (if 50 <? _ then _ else _) as [[|] cr].
  - destruct Hl as [-> | (l & -> & Hc)].
    + eexists; split; [reflexivity|]; split; reflexivity.
    + rewrite (eqb_zero l (cents 0) eq_refl), Hc. cbn [Z.eqb].
      eexists; split; [reflexivity|]; split; reflexivity.
  - eexists; split; [reflexivity|]; split; reflexivity.
Qed.

End EligibilityExtras.

Section LowIncome.
Import Decimal DecimalFacts Rounding RoundingFacts.

(** X3: an income of at most 1388.88 is registered with the limit 0, and the
    customer is then refused every positive amount, whatever the loan table
    holds. *)
Theorem low_income_is_never_approved
    (pk : Z) (db db' : Ledger) (data : RegistrationData) (cu : Customer) (c : Z) :
  reg_monthly_salary data = cents c -> Z.abs c <= 138888 ->
  CustomerRegistrationSerializer.create pk db data = Ok (db', cu) ->
  approved_limit cu = Some (of_Z 0) /\
  forall (tbl : list Loan) (yr : Z) (amount rate : decimal) (n : Z),
    0 < coef amount ->
    exists r, get_eligibility_result cu tbl yr amount rate n = Ok r /\
              approval r = false /\ monthly_installment r = cents 0.
Proof.
  intros Hs Hc E.
  destruct (registration_limit_value pk db data c (-2) Hs ltac:(lia)
              ltac:(assert (36 * 138888 < 10 ^ 28) by (vm_compute; reflexivity); lia))
    as (a & b & E' & L).
  rewrite E in E'. injection E' as <- <-.
  rewrite round_half_even_small in L
    by (change (10 ^ (5 - -2)) with 10000000; lia).
  change (0 * 100000) with 0 in L.
  split; [exact L|].
  intros tbl yr amount rate n Ha.
  apply no_limit_no_loan; [|exact Ha].
  right. exists (of_Z 0). split; [exact L | reflexivity].
Qed.

End LowIncome.

(** ** The ledger under the views *)

Section LedgerFacts.
Import Decimal DecimalFacts.

Lemma find_app_first {A : Type} (p : A -> bool) (l1 l2 : list A) :
  find p (l1 ++ l2) = match find p l1 with Some x => Some x | None => find p l2 end.
Proof.
  induction l1 as [|a l1 IH]; cbn [find app]; [reflexivity|].
  destruct (p a); [reflexivity | exact IH].
Qed.

Lemma validate_id (db : Ledger) (cid : Z) (cust : Customer) :
  validate db cid = Some cust -> customer_id cust = cid.
Proof.
  unfold validate. intros H. apply find_some in H. destruct H as [_ H].
  now apply Z.eqb_eq in H.
Qed.

(** [save] leaves the rows of other keys alone. *)
Lemma save_other (c' : Customer) (rows : list Customer) (id : Z) :
  id <> customer_id c' ->
  find (fun r => customer_id r =? id) (save c' rows)
  = find (fun r => customer_id r =? id) rows.
Proof.
  intros Hid. induction rows as [|r rows IH]; cbn [find save map]; [reflexivity|].
  destruct (customer_id r =? customer_id c') eqn:E.
  - apply Z.eqb_eq in E.
    replace (customer_id c' =? id) with false by (symmetry; apply Z.eqb_neq; lia).
    replace (customer_id r =? id) with false by (symmetry; apply Z.eqb_neq; lia).
    exact IH.
  - destruct (customer_id r =? id); [reflexivity | exact IH].
Qed.

(** [save] keeps the keys of the table. *)
Lemma save_keeps_keys (c' : Customer) (rows : list Customer) (id : Z) :
  find (fun r => customer_id r =? id) rows <> None ->
  find (fun r => customer_id r =? id) (save c' rows) <> None.
Proof.
  induction rows as [|r rows IH]; cbn [find save map]; [congruence|].
  destruct (customer_id r =? customer_id c') eqn:E.
  - apply Z.eqb_eq in E.
    replace (customer_id c' =? id) with (customer_id r =? id) by (now rewrite E).
    destruct (customer_id r =? id); [discriminate | exact IH].
  - destruct (customer_id r =? id); [discriminate | exact IH].
Qed.

(** The eligibility check reads the loan table through the loans of its
    customer only. *)
Lemma eligibility_reads_own_loans (c : Customer) (t1 t2 : list Loan) (yr : Z)
    (amount rate : decimal) (n : Z) :
  loans_of c t1 = loans_of c t2 ->
  get_eligibility_result c t1 yr amount rate n
  = get_eligibility_result c t2 yr amount rate n.
Proof.
  intros H.
  unfold get_eligibility_result, eligibility_for_score, calculate_credit_score,
    emis_exceed_half_salary, total_current_emis.
  rewrite H. reflexivity.
Qed.

Lemma loans_of_other (c : Customer) (tbl : list Loan) (new : Loan) :
  customer new <> customer_id c -> loans_of c (tbl ++ [new]) = loans_of c tbl.
Proof.
  intros H. unfold loans_of. rewrite filter_app. cbn [filter].
  replace (customer new =? customer_id c) with false by (symmetry; apply Z.eqb_neq; lia).
  apply app_nil_r.
Qed.

(** The three ways in which [CreateLoanView.create] returns. *)
Lemma create_view_cases (backend : Backend) (today : date) (yr : Z) (db db' : Ledger)
    (request : LoanRequest) (resp : Response LoanResponse) :
  CreateLoanView.create backend today yr db request = Ok (db', resp) ->
  (validate db (req_customer_id request) = None /\ db' = db /\ resp = Failure 400) \/
  (exists cust r,
     validate db (req_customer_id request) = Some cust /\
     get_eligibility_result cust (loans db) yr (req_loan_amount request)
       (req_interest_rate request) (req_tenure request) = Ok r /\
     ((approval r = false /\ db' = db /\
       resp = Success 200
                (mkResponse None (customer_id cust) false
                   "Loan not approved based on eligibility criteria" (cents 0))) \/
      (approval r = true /\
       exists (end_d : date) (emi amount_c rate_c emi_c debt_c : decimal),
         add_months today (req_tenure request) = Ok end_d /\
         calculate_emi (req_loan_amount request) (corrected_interest_rate r)
           (req_tenure request) = Ok emi /\
         to_column backend 12 2 (req_loan_amount request) = Ok amount_c /\
         to_column backend 5 2 (corrected_interest_rate r) = Ok rate_c /\
         to_column backend 12 2 emi = Ok emi_c /\
         to_column backend 12 2
           (Decimal.add (current_debt cust) (req_loan_amount request)) = Ok debt_c /\
         db' = mkLedger
                 (save (with_debt cust debt_c) (customers db))
                 (loans db ++
                  [mkLoan (loan_seq db) (customer_id cust) amount_c
                          (req_tenure request) rate_c emi_c 0
                          today end_d "active"])
                 (loan_seq db + 1) /\
         resp = Success 201
                  (mkResponse (Some (loan_seq db)) (customer_id cust) true
                     "Loan approved successfully" emi)))).
Proof.
  unfold CreateLoanView.create.
  destruct (validate db (req_customer_id request)) as [cust|] eqn:V.
  2:{ intros [= <- <-]. left. repeat split. }
  intros H. right. unfold create in H.
  destruct (get_eligibility_result cust (loans db) yr (req_loan_amount request)
              (req_interest_rate request) (req_tenure request)) as [r|] eqn:G;
    cbn [bind] in H; [|discriminate].
  exists cust, r. split; [reflexivity|]. split; [exact G|].
  destruct (issue backend today db cust (req_loan_amount request) (req_tenure request) r)
    as [[db1 data]|] eqn:I; cbn [bind] in H; [|discriminate].
  destruct (approval r) eqn:A.
  - right. split; [reflexivity|].
    destruct (issue_returns _ _ _ _ _ _ _ _ _ A I)
      as (end_d & emi & amount_c & rate_c & emi_c & debt_c
          & H1 & H2 & H3 & H4 & H5 & H6 & -> & ->).
    cbn [loan_approved] in H. injection H as <- <-.
    exists end_d, emi, amount_c, rate_c, emi_c, debt_c. auto 10.
  - left. unfold issue in I. rewrite A in I. injection I as <- <-.
    cbn [loan_approved] in H. injection H as <- <-. repeat split.
Qed.

End LedgerFacts.

Section ViewFacts.
Import Decimal DecimalFacts.

Variable backend : Backend.
Variable today : date.
Variable yr : Z.

(** X6: [/create-loan] answers 201 exactly when it has written one loan row,
    under the key the response carries; with 200 and with 400 the ledger is
    as it was. *)
Theorem create_loan_status (db db' : Ledger) (request : LoanRequest)
    (resp : Response LoanResponse) :
  CreateLoanView.create backend today yr db request = Ok (db', resp) ->
  match resp with
  | Success status data =>
      (status = 201 /\ loan_approved data = true /\
       resp_loan_id data = Some (loan_seq db) /\
       loan_seq db' = loan_seq db + 1 /\
       exists new, loans db' = loans db ++ [new] /\ loan_id new = loan_seq db /\
                   customer new = req_customer_id request) \/
      (status = 200 /\ loan_approved data = false /\
       resp_loan_id data = None /\ db' = db)
  | Failure status =>
      status = 400 /\ db' = db /\ validate db (req_customer_id request) = None
  end.
Proof.
  intros H. destruct (create_view_cases _ _ _ _ _ _ _ H)
    as [(V & -> & ->)
       | (cust & r & V & G &
          [(A & -> & ->)
          | (A & end_d & emi & amount_c & rate_c & emi_c & debt_c
             & _ & _ & _ & _ & _ & _ & -> & ->)])].
  - repeat split. exact V.
  - right. repeat split.
  - left. cbn [loan_approved resp_loan_id loan_seq loans]. repeat split.
    eexists. split; [reflexivity|]. cbn [loan_id customer].
    split; [reflexivity|]. exact (validate_id _ _ _ V).
Qed.

(** X7: what [/check-eligibility] answers is what [/create-loan] does on the
    same ledger: a refusal is answered with 200 and nothing is written, and
    a call that returns answers 201 exactly when the check approves. *)
Theorem endpoints_agree (db : Ledger) (request : LoanRequest) (r : EligibilityResult) :
  CheckEligibilityView.post yr db request = Ok (Success 200 r) ->
  (approval r = false ->
   CreateLoanView.create backend today yr db request
   = Ok (db, Success 200
               (mkResponse None (req_customer_id request) false
                  "Loan not approved based on eligibility criteria" (cents 0)))) /\
  (forall db' resp,
     CreateLoanView.create backend today yr db request = Ok (db', resp) ->
     (approval r = true <-> exists data, resp = Success 201 data)).
Proof.
  unfold CheckEligibilityView.post.
  destruct (validate db (req_customer_id request)) as [cust|] eqn:V; [|discriminate].
  destruct (get_eligibility_result cust (loans db) yr (req_loan_amount request)
              (req_interest_rate request) (req_tenure request)) as [r'|] eqn:G;
    cbn [bind]; [|discriminate].
  intros [= ->]. split.
  - intros A. unfold CreateLoanView.create, create. rewrite V, G. cbn [bind].
    unfold issue. rewrite A. cbn [bind loan_approved].
    rewrite (validate_id _ _ _ V). reflexivity.
  - intros db' resp H.
    destruct (create_view_cases _ _ _ _ _ _ _ H)
      as [(V' & _)
         | (cust' & r' & V' & G' &
            [(A & _ & ->)
            | (A & end_d & emi & amount_c & rate_c & emi_c & debt_c
               & _ & _ & _ & _ & _ & _ & _ & ->)])].
    + congruence.
    + rewrite V in V'. injection V' as <-. rewrite G in G'. injection G' as <-.
      rewrite A. split; [discriminate | intros [data [=]]].
    + rewrite V in V'. injection V' as <-. rewrite G in G'. injection G' as <-.
      rewrite A. split; [eauto | reflexivity].
Qed.

(** Past the last year of the calendar [date.replace] raises: ValueError
    for a year that still is a C int, OverflowError beyond. *)
Lemma add_months_overflow (d : date) (n : Z) :
  1 <= month d <= 12 -> 0 <= n -> 9999 < year d + n / 12 ->
  (year d + n / 12 < 2147483647 -> add_months d n = Raise ValueError) /\
  (2147483648 <= year d + n / 12 -> add_months d n = Raise OverflowError) /\
  (add_months d n = Raise ValueError \/ add_months d n = Raise OverflowError).
Proof.
  intros Hm Hn Hy. unfold add_months.
  pose proof (Z.mod_pos_bound (Z.abs n) 12 ltac:(lia)) as Hr.
  rewrite (Z.abs_eq n) in * by lia.
  set (q := n / 12) in *. set (r := n mod 12) in *.
  assert (S : Z.sgn n * q = q /\ Z.sgn n * r = r).
  { destruct (Z.eq_dec n 0) as [->|N0].
    - unfold q, r. cbn. lia.
    - rewrite Z.sgn_pos by lia. lia. }
  destruct S as [-> ->].
  assert (K : forall y, 9999 < y ->
            (y <= 2147483647 ->
             (if (1 <=? y) && (y <=? 9999)
              then Ok (mkDate y 0 0)
              else if (-2147483648 <=? y) && (y <=? 2147483647)
                   then Raise ValueError else Raise OverflowError)
             = Raise ValueError) /\
            (2147483648 <= y ->
             (if (1 <=? y) && (y <=? 9999)
              then Ok (mkDate y 0 0)
              else if (-2147483648 <=? y) && (y <=? 2147483647)
                   then Raise ValueError else Raise OverflowError)
             = Raise OverflowError)).
  { intros y Hy'.
    replace (y <=? 9999) with false by (symmetry; apply Z.leb_gt; lia).
    rewrite andb_false_r.
    replace (-2147483648 <=? y) with true by (symmetry; apply Z.leb_le; lia).
    cbn [andb]. split; intros H.
    - replace (y <=? 2147483647) with true by (symmetry; apply Z.leb_le; lia).
      reflexivity.
    - replace (y <=? 2147483647) with false by (symmetry; apply Z.leb_gt; lia).
      reflexivity. }
  assert (G : forall y mm dd, 9999 < y ->
            (if (1 <=? y) && (y <=? 9999)
              then Ok (mkDate y mm dd)
              else if (-2147483648 <=? y) && (y <=? 2147483647)
                   then Raise ValueError else Raise OverflowError)
            = (if (1 <=? y) && (y <=? 9999)
              then Ok (mkDate y 0 0)
              else if (-2147483648 <=? y) && (y <=? 2147483647)
                   then Raise ValueError else Raise OverflowError)).
  { intros y mm dd Hy'.
    replace (y <=? 9999) with false by (symmetry; apply Z.leb_gt; lia).
    rewrite andb_false_r. reflexivity. }
  destruct (r =? 0) eqn:E0;
    [| destruct (12 <? month d + r) eqn:E1;
       [| replace (month d + r <? 1) with false by (symmetry; apply Z.ltb_ge; lia) ] ];
    rewrite G by lia;
    match goal with
    | |- context [(1 <=? ?y) && (?y <=? 9999)] =>
        destruct (K y ltac:(lia)) as [K1 K2];
        destruct (Z_le_gt_dec y 2147483647) as [L|L];
        [ rewrite (K1 L) | rewrite (K2 ltac:(lia)) ]
    end;
    (split; [intros; first [reflexivity | lia] |
             split; [intros; first [reflexivity | lia] | auto]]).
Qed.

(** X8: a tenure that carries the end date past the year 9999 makes
    [/create-loan] raise although [/check-eligibility] approves the same
    request, and nothing is written: ValueError while the year fits a C int,
    OverflowError beyond. *)
Theorem end_date_out_of_calendar (db : Ledger) (request : LoanRequest)
    (r : EligibilityResult) :
  CheckEligibilityView.post yr db request = Ok (Success 200 r) ->
  approval r = true ->
  1 <= month today <= 12 -> 0 <= req_tenure request ->
  9999 < year today + req_tenure request / 12 ->
  (year today + req_tenure request / 12 < 2147483647 ->
   CreateLoanView.create backend today yr db request = Raise ValueError) /\
  (2147483648 <= year today + req_tenure request / 12 ->
   CreateLoanView.create backend today yr db request = Raise OverflowError) /\
  (CreateLoanView.create backend today yr db request = Raise ValueError \/
   CreateLoanView.create backend today yr db request = Raise OverflowError).
Proof.
  unfold CheckEligibilityView.post.
  destruct (validate db (req_customer_id request)) as [cust|] eqn:V; [|discriminate].
  destruct (get_eligibility_result cust (loans db) yr (req_loan_amount request)
              (req_interest_rate request) (req_tenure request)) as [r'|] eqn:G;
    cbn [bind]; [|discriminate].
  intros [= ->] A Hm Hn Hy.
  assert (C : forall e, add_months today (req_tenure request) = Raise e ->
              CreateLoanView.create backend today yr db request = Raise e).
  { intros e E. unfold CreateLoanView.create, create. rewrite V, G. cbn [bind].
    unfold issue. rewrite A, E. reflexivity. }
  destruct (add_months_overflow today _ Hm Hn Hy) as (H1 & H2 & H3).
  split; [intros L; exact (C _ (H1 L))|].
  split; [intros L; exact (C _ (H2 L))|].
  destruct H3 as [H3|H3]; [left | right]; exact (C _ H3).
Qed.

(** X9: a loan created for one customer changes nothing in what
    [/check-eligibility] answers for any other customer. *)
Theorem other_customers_unaffected (db db' : Ledger) (request : LoanRequest)
    (resp : Response LoanResponse) :
  CreateLoanView.create backend today yr db request = Ok (db', resp) ->
  forall (yr' : Z) (other : LoanRequest),
    req_customer_id other <> req_customer_id request ->
    CheckEligibilityView.post yr' db' other = CheckEligibilityView.post yr' db other.
Proof.
  intros H yr' other Hid.
  destruct (create_view_cases _ _ _ _ _ _ _ H)
    as [(_ & -> & _)
       | (cust & r & V & _ &
          [(_ & -> & _)
          | (_ & end_d & emi & amount_c & rate_c & emi_c & debt_c
             & _ & _ & _ & _ & _ & _ & -> & _)])];
    try reflexivity.
  pose proof (validate_id _ _ _ V) as Hc.
  unfold CheckEligibilityView.post, validate. cbn [customers loans].
  rewrite save_other by (cbn [with_debt customer_id]; lia).
  destruct (find (fun c => customer_id c =? req_customer_id other) (customers db))
    as [o|] eqn:F; [|reflexivity].
  assert (Ho : customer_id o = req_customer_id other).
  { apply find_some in F. destruct F as [_ F]. now apply Z.eqb_eq in F. }
  rewrite (eligibility_reads_own_loans o (loans db ++ _) (loans db)); [reflexivity|].
  apply loans_of_other. cbn [customer]. lia.
Qed.

End ViewFacts.

Section ReadingViews.
Import Decimal DecimalFacts.

Variable backend : Backend.
Variable today : date.
Variable yr : Z.

Lemma find_fresh_loan (tbl : list Loan) (new : Loan) (seq : Z) :
  Forall (fun l => loan_id l < seq) tbl -> loan_id new = seq ->
  find (fun l => loan_id l =? seq) (tbl ++ [new]) = Some new /\
  forall id, id <> seq ->
    find (fun l => loan_id l =? id) (tbl ++ [new]) = find (fun l => loan_id l =? id) tbl.
Proof.
  intros Hf Hn. split.
  - rewrite find_app_first.
    replace (find (fun l => loan_id l =? seq) tbl) with (@None Loan).
    + cbn [find]. rewrite Hn, Z.eqb_refl. reflexivity.
    + symmetry. induction Hf as [|l tbl Hl _ IH]; cbn [find]; [reflexivity|].
      replace (loan_id l =? seq) with false by (symmetry; apply Z.eqb_neq; lia).
      exact IH.
  - intros id Hid. rewrite find_app_first.
    destruct (find (fun l => loan_id l =? id) tbl); [reflexivity|].
    cbn [find]. rewrite Hn.
    replace (seq =? id) with false by (symmetry; apply Z.eqb_neq; lia).
    reflexivity.
Qed.

(** X10: a loan that [/create-loan] has written is what [/view-loan] returns
    under the key of the response: the tenure and the customer of the
    request, and the amount of the request and the installment of the
    response as their columns keep them, in two places (the same decimal
    when it has two places).  The loans that were there before are returned
    as before. *)
Theorem created_loan_is_retrieved (db db' : Ledger) (request : LoanRequest)
    (data : LoanResponse) :
  loan_ids_fresh db ->
  CreateLoanView.create backend today yr db request = Ok (db', Success 201 data) ->
  exists id detail,
    resp_loan_id data = Some id /\
    ViewLoanDetailView.retrieve db' id = Some (Success 200 detail) /\
    ld_loan_id detail = id /\
    to_column backend 12 2 (req_loan_amount request) = Ok (ld_loan_amount detail) /\
    (expo (req_loan_amount request) = -2 ->
     ld_loan_amount detail = req_loan_amount request) /\
    ld_tenure detail = req_tenure request /\
    to_column backend 12 2 (resp_monthly_installment data)
    = Ok (ld_monthly_repayment detail) /\
    (expo (resp_monthly_installment data) = -2 ->
     ld_monthly_repayment detail = resp_monthly_installment data) /\
    cd_customer_id (ld_customer detail) = req_customer_id request /\
    (forall id', id' <> id ->
       find (fun l => loan_id l =? id') (loans db')
       = find (fun l => loan_id l =? id') (loans db)).
Proof.
  intros Hf H.
  destruct (create_view_cases _ _ _ _ _ _ _ H)
    as [(_ & _ & [=])
       | (cust & r & V & _ &
          [(_ & _ & [=])
          | (_ & end_d & emi & amount_c & rate_c & emi_c & debt_c
             & _ & _ & Ha & _ & He & _ & -> & E)])].
  injection E as ->.
  pose proof (validate_id _ _ _ V) as Hc.
  set (new := mkLoan (loan_seq db) (customer_id cust) amount_c
                     (req_tenure request) rate_c emi_c 0
                     today end_d "active").
  destruct (find_fresh_loan (loans db) new (loan_seq db) Hf eq_refl) as [F1 F2].
  exists (loan_seq db). eexists. split; [reflexivity|].
  unfold ViewLoanDetailView.retrieve. cbn [loans customers]. fold new. rewrite F1.
  cbn [customer new].
  unfold validate in V. rewrite <- Hc in V.
  rewrite (save_lookup cust (with_debt cust debt_c) (customers db) eq_refl V).
  split; [reflexivity|].
  cbn [ld_loan_id ld_loan_amount ld_tenure ld_monthly_repayment ld_customer
       cd_customer_id loan_id loan_amount tenure monthly_repayment new
       with_debt customer_id resp_monthly_installment].
  split; [reflexivity|]. split; [exact Ha|].
  split; [intros K; exact (to_column_same _ 12 2 _ _ K Ha)|].
  split; [reflexivity|]. split; [exact He|].
  split; [intros K; exact (to_column_same _ 12 2 _ _ K He)|].
  split; [exact Hc | exact F2].
Qed.

Lemma queryset_app (db : Ledger) (new : Loan) (cs : list Customer) (seq cid : Z) :
  ViewCustomerLoansView.get_queryset (mkLedger cs (loans db ++ [new]) seq) cid
  = ViewCustomerLoansView.get_queryset db cid
    ++ (if (customer new =? cid) && String.eqb (loan_status new) "active"
        then [new] else []).
Proof.
  unfold ViewCustomerLoansView.get_queryset. cbn [loans].
  rewrite filter_app. cbn [filter].
  destruct ((customer new =? cid) && String.eqb (loan_status new) "active"); reflexivity.
Qed.

(** X11: after [/create-loan] has written a loan, [/view-loans] of that customer
    lists what it listed before and the new loan last, with all of its
    tenure left to repay, and with the amount and the installment as their
    columns keep them, in two places; the lists of the other customers are
    unchanged. *)
Theorem created_loan_is_listed (db db' : Ledger) (request : LoanRequest)
    (data : LoanResponse) :
  CreateLoanView.create backend today yr db request = Ok (db', Success 201 data) ->
  (exists item,
     ViewCustomerLoansView.list_loans db' (req_customer_id request)
     = Success 200
         (map CustomerLoanViewSerializer.to_representation
              (ViewCustomerLoansView.get_queryset db (req_customer_id request))
          ++ [item]) /\
     Some (li_loan_id item) = resp_loan_id data /\
     to_column backend 12 2 (req_loan_amount request) = Ok (li_loan_amount item) /\
     (expo (req_loan_amount request) = -2 ->
      li_loan_amount item = req_loan_amount request) /\
     to_column backend 12 2 (resp_monthly_installment data)
     = Ok (li_monthly_repayment item) /\
     (expo (resp_monthly_installment data) = -2 ->
      li_monthly_repayment item = resp_monthly_installment data) /\
     li_repayments_left item = Z.max 0 (req_tenure request)) /\
  (forall cid, cid <> req_customer_id request ->
     ViewCustomerLoansView.get_queryset db' cid
     = ViewCustomerLoansView.get_queryset db cid).
Proof.
  intros H.
  destruct (create_view_cases _ _ _ _ _ _ _ H)
    as [(_ & _ & [=])
       | (cust & r & V & _ &
          [(_ & _ & [=])
          | (_ & end_d & emi & amount_c & rate_c & emi_c & debt_c
             & _ & _ & Ha & _ & He & _ & -> & E)])].
  injection E as ->.
  pose proof (validate_id _ _ _ V) as Hc.
  split.
  - set (new := mkLoan (loan_seq db) (customer_id cust) amount_c
                       (req_tenure request) rate_c emi_c 0
                       today end_d "active").
    exists (CustomerLoanViewSerializer.to_representation new).
    unfold ViewCustomerLoansView.list_loans.
    rewrite queryset_app. cbn [customer loan_status new].
    rewrite Hc, Z.eqb_refl. cbn [String.eqb Ascii.eqb Bool.eqb andb].
    split.
    + change [CustomerLoanViewSerializer.to_representation new]
        with (map CustomerLoanViewSerializer.to_representation [new]).
      rewrite <- map_app.
      destruct (ViewCustomerLoansView.get_queryset db (req_customer_id request));
        reflexivity.
    + cbn [CustomerLoanViewSerializer.to_representation li_loan_id li_loan_amount
             li_monthly_repayment li_repayments_left new loan_id loan_amount
             monthly_repayment resp_loan_id resp_monthly_installment].
      unfold CustomerLoanViewSerializer.get_repayments_left. cbn [tenure emis_paid_on_time].
      rewrite Z.sub_0_r.
      split; [reflexivity|]. split; [exact Ha|].
      split; [intros K; exact (to_column_same _ 12 2 _ _ K Ha)|].
      split; [exact He|].
      split; [intros K; exact (to_column_same _ 12 2 _ _ K He)|].
      reflexivity.
  - intros cid Hid. rewrite queryset_app. cbn [customer].
    replace (customer_id cust =? cid) with false by (symmetry; apply Z.eqb_neq; lia).
    cbn [andb]. apply app_nil_r.
Qed.

(** X12: with the foreign key in force, [/view-loans] answers 404 exactly for a
    customer id that no row has; every other id is answered with 200 and
    one item for each active loan of the customer, none of them with a
    negative number of repayments left. *)
Theorem list_loans_not_found (db : Ledger) (cid : Z) :
  referential db ->
  (validate db cid = None ->
   ViewCustomerLoansView.list_loans db cid = Failure 404) /\
  (validate db cid <> None ->
   exists items,
     ViewCustomerLoansView.list_loans db cid = Success 200 items /\
     items = map CustomerLoanViewSerializer.to_representation
                 (ViewCustomerLoansView.get_queryset db cid) /\
     Forall (fun i => 0 <= li_repayments_left i) items).
Proof.
  intros Hr. unfold ViewCustomerLoansView.list_loans.
  assert (Q : ViewCustomerLoansView.get_queryset db cid <> [] -> validate db cid <> None).
  { unfold ViewCustomerLoansView.get_queryset.
    destruct (filter _ (loans db)) as [|l ls] eqn:F; [congruence|]. intros _.
    assert (In l (filter (fun l => (customer l =? cid)
                                   && String.eqb (loan_status l) "active") (loans db)))
      by (rewrite F; left; reflexivity).
    apply filter_In in H. destruct H as [Hin Hp].
    apply andb_true_iff in Hp. destruct Hp as [Hp _]. apply Z.eqb_eq in Hp.
    unfold referential in Hr. rewrite Forall_forall in Hr.
    specialize (Hr l Hin). now rewrite Hp in Hr. }
  assert (P : Forall (fun i => 0 <= li_repayments_left i)
                (map CustomerLoanViewSerializer.to_representation
                     (ViewCustomerLoansView.get_queryset db cid))).
  { apply Forall_forall. intros i Hi. apply in_map_iff in Hi.
    destruct Hi as (l & <- & _). cbn. unfold CustomerLoanViewSerializer.get_repayments_left. lia. }
  split.
  - intros V. destruct (ViewCustomerLoansView.get_queryset db cid) as [|l ls].
    + unfold validate in V. rewrite V. reflexivity.
    + exfalso. apply Q; [discriminate | exact V].
  - intros V. eexists. split; [|split; [reflexivity | exact P]].
    destruct (ViewCustomerLoansView.get_queryset db cid) as [|l ls]; [|reflexivity].
    unfold validate in V.
    destruct (find _ (customers db)); [reflexivity | congruence].
Qed.

End ReadingViews.

Section WellFormed.
Import Decimal DecimalFacts.

Lemma register_view_cases (pk : Z) (db db' : Ledger) (data : RegistrationData)
    (resp : Response RegistrationResponse) :
  RegisterCustomerView.create pk db data = Ok (db', resp) ->
  exists cu,
    CustomerRegistrationSerializer.create pk db data = Ok (db', cu) /\
    db' = mkLedger (customers db ++ [cu]) (loans db) (loan_seq db) /\
    customer_id cu = pk /\
    monthly_salary cu = reg_monthly_salary data /\
    current_debt cu = cents 0 /\
    resp = Success 201
             (mkRegistered pk (reg_first_name data ++ " " ++ reg_last_name data)
                (reg_age data) (reg_monthly_salary data) (approved_limit cu)
                (reg_phone_number data)).
Proof.
  unfold RegisterCustomerView.create.
  destruct (CustomerRegistrationSerializer.create pk db data) as [[d cu]|] eqn:E;
    cbn [bind]; [|discriminate].
  intros [= <- <-]. exists cu. split; [reflexivity|].
  unfold CustomerRegistrationSerializer.create in E.
  destruct (Decimal.div _ _); cbn [bind] in E; [|discriminate].
  injection E as <- <-. cbn. repeat split.
Qed.

(** X13: a registration is found again under its key, with no debt and the
    income of the request, as the response says; the other customers and
    the loans are as they were. *)
Theorem registered_customer_is_found (pk : Z) (db db' : Ledger)
    (data : RegistrationData) (resp : Response RegistrationResponse) :
  validate db pk = None ->
  RegisterCustomerView.create pk db data = Ok (db', resp) ->
  exists cu rdata,
    resp = Success 201 rdata /\
    validate db' pk = Some cu /\
    rr_customer_id rdata = pk /\
    rr_approved_limit rdata = approved_limit cu /\
    rr_monthly_income rdata = monthly_salary cu /\
    monthly_salary cu = reg_monthly_salary data /\
    current_debt cu = cents 0 /\
    (forall id, id <> pk -> validate db' id = validate db id) /\
    loans db' = loans db.
Proof.
  intros Hfresh H.
  destruct (register_view_cases _ _ _ _ _ H) as (cu & _ & -> & Hid & Hs & Hd & ->).
  exists cu. eexists. split; [reflexivity|].
  unfold validate in *. cbn [customers loans].
  rewrite find_app_first, Hfresh. cbn [find]. rewrite Hid, Z.eqb_refl.
  cbn [rr_customer_id rr_approved_limit rr_monthly_income].
  repeat split; try congruence.
  intros id Hne. rewrite find_app_first.
  destruct (find (fun c => customer_id c =? id) (customers db)); [reflexivity|].
  cbn [find]. rewrite Hid.
  replace (pk =? id) with false by (symmetry; apply Z.eqb_neq; lia).
  reflexivity.
Qed.

(** X14: the two views that write keep the ledger well formed: the key sequence
    stays ahead of the loan keys, and every loan keeps an owner. *)
Theorem ledger_stays_well_formed (db : Ledger) :
  loan_ids_fresh db -> referential db ->
  (forall backend today yr request db' resp,
     CreateLoanView.create backend today yr db request = Ok (db', resp) ->
     loan_ids_fresh db' /\ referential db') /\
  (forall pk data db' resp,
     RegisterCustomerView.create pk db data = Ok (db', resp) ->
     loan_ids_fresh db' /\ referential db').
Proof.
  intros Hf Hr. split.
  - intros backend today yr request db' resp H.
    destruct (create_view_cases _ _ _ _ _ _ _ H)
      as [(_ & -> & _)
         | (cust & r & V & _ &
            [(_ & -> & _)
            | (_ & end_d & emi & amount_c & rate_c & emi_c & debt_c
               & _ & _ & _ & _ & _ & _ & -> & _)])];
      try (split; assumption).
    unfold loan_ids_fresh, referential, validate in *. cbn [loans loan_seq customers].
    split.
    + apply Forall_app. split.
      * eapply Forall_impl; [|exact Hf]. cbn. intros; lia.
      * constructor; [cbn [loan_id]; lia | constructor].
    + apply Forall_app. split.
      * eapply Forall_impl; [|exact Hr]. cbn. intros l Hl. now apply save_keeps_keys.
      * constructor; [|constructor]. cbn [customer].
        apply save_keeps_keys. rewrite <- (validate_id _ _ _ V) in V.
        unfold validate in V. congruence.
  - intros pk data db' resp H.
    destruct (register_view_cases _ _ _ _ _ H) as (cu & _ & -> & _).
    unfold loan_ids_fresh, referential, validate in *. cbn [loans loan_seq customers].
    split; [exact Hf|].
    eapply Forall_impl; [|exact Hr]. cbn. intros l Hl.
    rewrite find_app_first.
    destruct (find (fun c => customer_id c =? customer l) (customers db));
      [discriminate | congruence].
Qed.

End WellFormed.

Section CalculatorEdges.
Import Decimal DecimalFacts Rounding RoundingFacts.

(** X15: a tenure of 0 is not refused by the field and never gets through the
    calculator: whatever the rate, the code ends in the division of the
    amount by the tenure, DivisionByZero for an amount that is not zero
    (InvalidOperation is left for the amount 0 and for the rate -1200). *)
Theorem emi_tenure_zero_raises (amount rate : decimal) :
  (calculate_emi amount rate 0 = Raise DivisionByZero \/
   calculate_emi amount rate 0 = Raise InvalidOperation) /\
  (coef amount <> 0 -> 0 <= coef rate ->
   calculate_emi amount rate 0 = Raise DivisionByZero).
Proof.
  assert (D0 : Decimal.div amount (of_Z 0)
               = if coef amount =? 0 then Raise InvalidOperation else Raise DivisionByZero).
  { unfold Decimal.div, div_prec. cbn [of_Z coef Z.eqb]. reflexivity. }
  assert (Hp : 1 <= prec) by (unfold prec; lia).
  unfold calculate_emi. rewrite D0.
  destruct (eqb rate (of_Z 0)) eqn:Er.
  { split; [destruct (coef amount =? 0); auto|].
    intros Ha _. now apply Z.eqb_neq in Ha; rewrite Ha. }
  destruct (div_returns prec rate (of_Z 12) ltac:(unfold of_Z; cbn [coef]; lia)) as [pm D12].
  destruct (div_returns prec pm (of_Z 100) ltac:(unfold of_Z; cbn [coef]; lia)) as [m D100].
  unfold Decimal.div in *. rewrite D12. cbn [bind]. rewrite D100. cbn [bind].
  unfold Decimal.pow.
  destruct (coef (Decimal.add (of_Z 1) m) =? 0) eqn:Ex.
  - cbn [Z.ltb Z.compare bind]. split; [auto|].
    intros _ Hr. exfalso. apply Z.eqb_eq in Ex.
    assert (Hpm : 0 <= coef pm)
      by (apply (div_sign prec rate (of_Z 12) pm Hp ltac:(unfold of_Z; cbn [coef]; lia) D12); exact Hr).
    assert (Hm : 0 <= coef m)
      by (apply (div_sign prec pm (of_Z 100) m Hp ltac:(unfold of_Z; cbn [coef]; lia) D100); exact Hpm).
    pose proof (add_one_ge_one prec m Hp Hm) as G.
    pose proof (le_pos_r _ _ G ltac:(unfold of_Z; cbn [coef]; lia)) as P.
    unfold Decimal.add in Ex. lia.
  - cbv zeta. cbn [bind].
    replace (eqb (Decimal.sub (mk 1 0) (of_Z 1)) (of_Z 0)) with true
      by (vm_compute; reflexivity).
    split; [destruct (coef amount =? 0); auto|].
    intros Ha _. now apply Z.eqb_neq in Ha; rewrite Ha.
Qed.

(** X16: for a principal and a rate that are not negative and a positive
    tenure, the installment is not negative. *)
Theorem emi_not_negative (P rate : decimal) (n : Z) (e : decimal) :
  0 <= coef P -> 0 <= coef rate -> 0 < n ->
  calculate_emi P rate n = Ok e -> 0 <= coef e.
Proof.
  intros HP Hrate Hn. unfold calculate_emi, Decimal.div, Decimal.mul, Decimal.sub, Decimal.add.
  assert (Hp : 1 <= prec) by (unfold prec; lia).
  assert (Fallback : forall r, div_prec prec P (of_Z n) = Ok r -> 0 <= coef r).
  { intros r D.
    apply (div_sign prec P (of_Z n) r Hp ltac:(unfold of_Z; cbn [coef]; lia) D); exact HP. }
  destruct (eqb rate (of_Z 0)); [apply Fallback|].
  destruct (div_prec prec rate (of_Z 12)) as [pm|] eqn:D12; cbn [bind]; [|discriminate].
  destruct (div_prec prec pm (of_Z 100)) as [m|] eqn:D100; cbn [bind]; [|discriminate].
  assert (Hpm : 0 <= coef pm)
    by (apply (div_sign prec rate (of_Z 12) pm Hp ltac:(unfold of_Z; cbn [coef]; lia) D12); exact Hrate).
  assert (Hm : 0 <= coef m)
    by (apply (div_sign prec pm (of_Z 100) m Hp ltac:(unfold of_Z; cbn [coef]; lia) D100); exact Hpm).
  pose proof (add_one_ge_one prec m Hp Hm) as Hbase.
  destruct (Decimal.pow (add_prec prec (of_Z 1) m) n) as [f|] eqn:Dpow; cbn [bind]; [|discriminate].
  assert (Hf : le (of_Z 1) f) by exact (pow_ge_one _ f n Hn Hbase Dpow).
  assert (Hfpos : 0 < coef f) by (apply (le_pos_r _ _ Hf); unfold of_Z; cbn [coef]; lia).
  pose proof (sub_one_nonneg prec f Hf) as Hden.
  rewrite (eqb_zero _ (of_Z 0) eq_refl).
  destruct (coef (sub_prec prec f (of_Z 1)) =? 0) eqn:Ez; [apply Fallback|].
  apply Z.eqb_neq in Ez.
  destruct (div_prec prec (mul_prec prec (mul_prec prec P m) f) _) as [q|] eqn:Q;
    cbn [bind]; [|discriminate].
  intros Hq.
  assert (Hnum : 0 <= coef (mul_prec prec (mul_prec prec P m) f)).
  { apply fix_nonneg. cbn [coef].
    assert (0 <= coef (mul_prec prec P m)) by (apply fix_nonneg; cbn [coef]; nia).
    nia. }
  assert (Hqs : 0 <= coef q).
  { assert (Hd : 0 < coef (sub_prec prec f (of_Z 1))) by lia.
    apply (div_sign prec _ _ q Hp Hd Q); exact Hnum. }
  destruct (quantize_coef q e (-2) (Z.min (-2) (expo q)) Hq ltac:(lia) ltac:(lia)) as [_ C].
  rewrite C. apply round_half_even_nonneg.
  - unfold at_scale.
    assert (0 < 10 ^ (expo q - Z.min (-2) (expo q))) by (apply pow10_pos; lia). nia.
  - apply pow10_pos. lia.
Qed.

End CalculatorEdges.

Section Installments.
Import Decimal DecimalFacts Exact ExactFacts.

Lemma sum_dec_snoc (f : Loan -> decimal) (ls : list Loan) (x : Loan) :
  sum_dec f (ls ++ [x])
  = Some (match sum_dec f ls with
          | None => f x
          | Some s => add_exact s (f x)
          end).
Proof.
  destruct ls as [|l ls]; [reflexivity|].
  cbn [sum_dec app]. rewrite fold_left_app. reflexivity.
Qed.

Lemma val_cents_zero : val (cents 0) = 0%R.
Proof. unfold val, cents. cbn [coef expo]. lra. Qed.

(** X17: the installment of a loan that [/create-loan] has written counts,
    from then on, among the current EMIs of the customer that the salary
    rule adds up, as the column keeps it: the installment of the response
    in two places (the same decimal when it has two places). *)
Theorem installments_add_up (backend : Backend) (today : date) (yr : Z) (db db' : Ledger)
    (request : LoanRequest) (data : LoanResponse) (cust : Customer) :
  validate db (req_customer_id request) = Some cust ->
  CreateLoanView.create backend today yr db request = Ok (db', Success 201 data) ->
  exists stored,
    to_column backend 12 2 (resp_monthly_installment data) = Ok stored /\
    (expo (resp_monthly_installment data) = -2 ->
     stored = resp_monthly_installment data) /\
    val (total_current_emis cust (loans db'))
    = (val (total_current_emis cust (loans db)) + val stored)%R.
Proof.
  intros V H.
  destruct (create_view_cases _ _ _ _ _ _ _ H)
    as [(_ & _ & [=])
       | (cust' & r & V' & _ &
          [(_ & _ & [=])
          | (_ & end_d & emi & amount_c & rate_c & emi_c & debt_c
             & _ & _ & _ & _ & He & _ & -> & E)])].
  injection E as ->. rewrite V in V'. injection V' as <-.
  exists emi_c. cbn [resp_monthly_installment].
  split; [exact He|].
  split; [intros K; exact (to_column_same _ 12 2 _ _ K He)|].
  unfold total_current_emis. cbn [loans].
  unfold loans_of. rewrite filter_app. cbn [filter customer].
  rewrite Z.eqb_refl. unfold active. rewrite filter_app. cbn [filter loan_status].
  cbn [String.eqb Ascii.eqb Bool.eqb]. rewrite sum_dec_snoc. cbn [or_default monthly_repayment].
  destruct (sum_dec monthly_repayment _) as [s|]; cbn [or_default].
  - apply val_add_exact.
  - rewrite val_cents_zero. lra.
Qed.

End Installments.

Section Debt.
Import Decimal DecimalFacts Exact ExactFacts.

Lemma val_cents_add (a b : Z) :
  Z.abs a < 10 ^ 12 -> Z.abs b < 10 ^ 12 ->
  val (Decimal.add (cents a) (cents b)) = (val (cents a) + val (cents b))%R.
Proof.
  intros Ha Hb. unfold cents. rewrite add_cents.
  - unfold val. cbn [coef expo]. rewrite plus_IZR. ring.
  - assert (10 ^ 12 + 10 ^ 12 < 10 ^ 28) by (vm_compute; reflexivity). lia.
Qed.

Lemma in_save (c' r' : Customer) (rows : list Customer) :
  In r' (save c' rows) ->
  (r' = c' /\ exists r, In r rows /\ customer_id r = customer_id c') \/
  (In r' rows /\ customer_id r' <> customer_id c').
Proof.
  unfold save. intros H. apply in_map_iff in H. destruct H as (r & E & Hin).
  destruct (customer_id r =? customer_id c') eqn:K.
  - left. apply Z.eqb_eq in K. split; [now symmetry | eauto].
  - right. apply Z.eqb_neq in K. subst r'. split; assumption.
Qed.

Lemma loans_of_same_key (c1 c2 : Customer) (tbl : list Loan) :
  customer_id c1 = customer_id c2 -> loans_of c1 tbl = loans_of c2 tbl.
Proof. intros H. unfold loans_of. now rewrite H. Qed.

(** X18: [/create-loan] keeps the debt of every customer equal to the principal
    of the customer's loans, when it was so before; the debt and the amount
    are column values of at most 12 digits with 2 places. *)
Theorem debt_tracks_principal (backend : Backend) (today : date) (yr : Z)
    (db db' : Ledger) (request : LoanRequest) (resp : Response LoanResponse) (a : Z) :
  Forall (debt_is_principal db) (customers db) ->
  (forall cust, validate db (req_customer_id request) = Some cust ->
     exists d, current_debt cust = cents d /\ Z.abs d < 10 ^ 12) ->
  req_loan_amount request = cents a -> Z.abs a < 10 ^ 12 ->
  CreateLoanView.create backend today yr db request = Ok (db', resp) ->
  Forall (debt_is_principal db') (customers db').
Proof.
  intros Hinv Hcol Ha Hb H.
  destruct (create_view_cases _ _ _ _ _ _ _ H)
    as [(_ & -> & _)
       | (cust & r & V & _ &
          [(_ & -> & _)
          | (_ & end_d & emi & amount_c & rate_c & emi_c & debt_c
             & _ & _ & Hac & _ & _ & Hdc & -> & _)])];
    try exact Hinv.
  destruct (Hcol cust V) as (d & Hd & Hdb).
  rewrite Ha in Hac.
  pose proof (to_column_same backend 12 2 (cents a) amount_c eq_refl Hac) as ->.
  assert (Hsum : val debt_c = (val (current_debt cust) + val (cents a))%R).
  { rewrite Hd, Ha in Hdc. rewrite Hd, <- val_cents_add by assumption.
    unfold cents in Hdc |- *. rewrite add_cents in Hdc |- *
      by (assert (10 ^ 12 + 10 ^ 12 < 10 ^ 28) by (vm_compute; reflexivity); lia).
    now rewrite (to_column_same backend 12 2 (mk (d + a) (-2)) debt_c eq_refl Hdc). }
  pose proof (validate_id _ _ _ V) as Hc.
  rewrite Forall_forall in Hinv |- *. cbn [customers].
  intros r' Hin. unfold debt_is_principal. cbn [loans].
  destruct (in_save _ _ _ Hin) as [(-> & _) | (Hin' & Hne)].
  - cbn [with_debt current_debt].
    unfold loans_of. rewrite filter_app. cbn [filter customer with_debt customer_id].
    rewrite Z.eqb_refl. rewrite sum_dec_snoc. cbn [or_default loan_amount].
    assert (I : debt_is_principal db cust).
    { apply Hinv. unfold validate in V. apply find_some in V. tauto. }
    unfold debt_is_principal, loans_of in I.
    rewrite Hsum, I.
    destruct (sum_dec loan_amount _) as [s|]; cbn [or_default].
    + symmetry. apply val_add_exact.
    + rewrite val_cents_zero. lra.
  - rewrite loans_of_other by (cbn [customer with_debt customer_id] in *; lia).
    apply Hinv. exact Hin'.
Qed.

End Debt.

(** * Worked cases *)

Section Cases.
Import Decimal.

(** The EMI example of the specification: 100000 at 12% over 12 months. *)
Example emi_example :
  calculate_emi (cents 10000000) (cents 1200) 12 = Ok (cents 888488).
Proof. vm_compute. reflexivity. Qed.

Lemma credit_score_range_witness :
  loans_of sample_customer [] = [] /\
  calculate_credit_score sample_customer [] 2025 = 100.
Proof.
  split; [reflexivity|].
  apply (proj2 (credit_score_range sample_customer [] 2025)). reflexivity.
Defined.

Lemma credit_score_override_witness :
  calculate_credit_score sample_customer [big_loan] 2025 = 0.
Proof.
  apply (credit_score_override sample_customer [big_loan] 2025 (cents 180000000)).
  - reflexivity.
  - cbn. lia.
  - vm_compute. reflexivity.
Defined.

Lemma emi_gate_rejects_witness :
  get_eligibility_result salaried_customer [running_loan] 2025
                         (cents 1000000) (cents 1000) 12
  = Ok (mkResult 3 false (cents 1000) (cents 1000) 12 (cents 0)).
Proof.
  apply (emi_gate_rejects salaried_customer [running_loan]
                          (cents 1000000) (cents 1000) 12).
  - cbn. lia.
  - vm_compute. reflexivity.
  - vm_compute. reflexivity.
Defined.

(** The case of the specification: score 45, requested rate 8%. *)
Lemma score_tiers_witness :
  exists r,
    eligibility_for_score sample_customer [] 45 (cents 10000000) (cents 800) 12 = Ok r /\
    corrected_interest_rate r = cents 1200 /\ approval r = true.
Proof.
  pose proof (score_tiers sample_customer [] 45 (cents 10000000) (cents 800) 12
                          ltac:(vm_compute; reflexivity)) as T.
  destruct (eligibility_for_score sample_customer [] 45 (cents 10000000) (cents 800) 12)
    as [r|e].
  - exists r. split; [reflexivity|].
    destruct T as (_ & _ & T30 & _ & _ & Tap). split.
    + rewrite T30 by lia. vm_compute. reflexivity.
    + rewrite Tap by lia. vm_compute. reflexivity.
  - exfalso. destruct T as (_ & _ & T). vm_compute in T. discriminate.
Defined.

Lemma limit_gate_witness :
  eligibility_for_score sample_customer [] 100 (cents 10000000) (cents 1200) 12
  = Ok (mkResult 1 true (cents 1200) (cents 1200) 12 (cents 888488)).
Proof.
  pose proof (limit_gate sample_customer [] 100 (cents 10000000) (cents 1200) 12) as L.
  cbv zeta in L. destruct L as [A _].
  destruct (A ltac:(vm_compute; reflexivity) ltac:(lia)) as [_ B].
  destruct (B (cents 180000000) eq_refl ltac:(vm_compute; reflexivity)) as [_ C].
  rewrite (C ltac:(vm_compute; reflexivity)). vm_compute. reflexivity.
Defined.

(** C5 as stated fails where there is no limit and the amount is not
    positive: the approval stands, but the installment is the initial 0.00
    and not what the EMI calculator gives, which is -8.79 for an amount of
    -100.00, and an exception for an amount of 0.00 over 0 months. *)
Lemma limit_gate_counterexample :
  approved_limit small_customer = Some (cents 0) /\
  Decimal.gtb (cents (-10000)) (cents 0) = false /\
  get_eligibility_result small_customer [] 2025 (cents (-10000)) (cents 1000) 12
  = Ok (mkResult 2 true (cents 1000) (cents 1000) 12 (cents 0)) /\
  calculate_emi (cents (-10000)) (cents 1000) 12 = Ok (cents (-879)) /\
  get_eligibility_result small_customer [] 2025 (cents 0) (cents 1000) 0
  = Ok (mkResult 2 true (cents 1000) (cents 1000) 0 (cents 0)) /\
  calculate_emi (cents 0) (cents 1000) 0 = Raise InvalidOperation.
Proof. vm_compute. repeat split; reflexivity. Qed.

(** C9 fails on the same branch: the check of a request for -100.00 by a
    customer without limit is approved with the installment 0.00, and the
    issuance that follows computes, stores and returns -8.79. *)
Theorem recomputed_installment_differs :
  get_eligibility_result small_customer (loans sample_ledger) 2025
                         (cents (-10000)) (cents 1000) 12
  = Ok (mkResult 2 true (cents 1000) (cents 1000) 12 (cents 0)) /\
  forall backend, exists db',
    create backend a_day 2025 sample_ledger small_customer
           (cents (-10000)) (cents 1000) 12
    = Ok (db', mkResponse (Some 1) 2 true "Loan approved successfully" (cents (-879))) /\
    loans db'
    = [mkLoan 1 2 (cents (-10000)) 12 (cents 1000) (cents (-879)) 0
              a_day (mkDate 2026 1 31) "active"].
Proof.
  split; [vm_compute; reflexivity|].
  intros [|]; eexists; split; vm_compute; reflexivity.
Qed.

Lemma loan_creation_witness :
  create PostgreSQL a_day 2025 sample_ledger sample_customer
         (cents 10000000) (cents 1200) 12
  = Ok (mkLedger [with_debt sample_customer (cents 10000000); small_customer]
                 [mkLoan 1 1 (cents 10000000) 12 (cents 1200) (cents 888488) 0
                         a_day (mkDate 2026 1 31) "active"]
                 2,
        mkResponse (Some 1) 1 true "Loan approved successfully" (cents 888488)).
Proof.
  pose proof (loan_creation PostgreSQL a_day 2025 sample_ledger sample_customer
                (cents 10000000) (cents 1200) 12
                (mkResult 1 true (cents 1200) (cents 1200) 12 (cents 888488))
                ltac:(vm_compute; reflexivity)) as [_ A].
  destruct (A eq_refl) as [B _].
  destruct (B (mkDate 2026 1 31) (cents 888488)
              (cents 10000000) (cents 1200) (cents 888488) (cents 10000000)
              ltac:(vm_compute; reflexivity) ltac:(vm_compute; reflexivity)
              ltac:(vm_compute; reflexivity) ltac:(vm_compute; reflexivity)
              ltac:(vm_compute; reflexivity) ltac:(vm_compute; reflexivity))
    as [C _].
  exact C.
Defined.

(** C7 as stated fails where the check approves and the issuance cannot be
    completed: over 120000 months the end date would lie in the year 12025,
    and for a customer without limit a request of 0.00 over 0 months is
    approved without the calculator, which then divides by the tenure.
    [create] raises, whatever the database, and no row is written. *)
Lemma loan_creation_counterexample :
  get_eligibility_result sample_customer (loans sample_ledger) 2025
                         (cents 10000000) (cents 1200) 120000
  = Ok (mkResult 1 true (cents 1200) (cents 1200) 120000 (cents 100000)) /\
  (forall backend,
     create backend a_day 2025 sample_ledger sample_customer
            (cents 10000000) (cents 1200) 120000
     = Raise ValueError) /\
  get_eligibility_result small_customer (loans sample_ledger) 2025
                         (cents 0) (cents 1000) 0
  = Ok (mkResult 2 true (cents 1000) (cents 1000) 0 (cents 0)) /\
  (forall backend,
     create backend a_day 2025 sample_ledger small_customer (cents 0) (cents 1000) 0
     = Raise InvalidOperation).
Proof.
  split; [vm_compute; reflexivity|].
  split; [intros [|]; vm_compute; reflexivity|].
  split; [vm_compute; reflexivity|].
  intros [|]; vm_compute; reflexivity.
Qed.

(** A column that refuses its value: a debt of 9999999999.99 cannot take
    1.00 more; the transaction is undone. *)
Example debt_column_overflow :
  let cust := mkCustomer 4 "Nila" "Bose" "9000000004" (cents 5000000)
                         (Some (cents 180000000)) (cents 999999999999) 30 in
  let db := mkLedger [cust] [] 1 in
  get_eligibility_result cust (loans db) 2025 (cents 100) (cents 1200) 12
  = Ok (mkResult 4 true (cents 1200) (cents 1200) 12 (cents 9)) /\
  create BaseOperations a_day 2025 db cust (cents 100) (cents 1200) 12
  = Raise InvalidOperation /\
  create PostgreSQL a_day 2025 db cust (cents 100) (cents 1200) 12
  = Raise DataError.
Proof. vm_compute. repeat split; reflexivity. Qed.

(** A floor at work: requested 8%, stored 12.00. *)
Lemma stored_rate_is_corrected_witness :
  exists db' resp new,
    issue PostgreSQL a_day sample_ledger sample_customer (cents 10000000) 12
          (mkResult 1 true (cents 800) (cents 1200) 12 (cents 888488))
    = Ok (db', resp) /\
    loans db' = loans sample_ledger ++ [new] /\
    interest_rate new = cents 1200 /\ monthly_repayment new = cents 888488.
Proof.
  destruct (issue PostgreSQL a_day sample_ledger sample_customer (cents 10000000) 12
                  (mkResult 1 true (cents 800) (cents 1200) 12 (cents 888488)))
    as [[db' resp]|e] eqn:I.
  - assert (A : loan_approved resp = true)
      by (vm_compute in I; injection I as _ <-; reflexivity).
    destruct (stored_rate_is_corrected PostgreSQL a_day sample_ledger sample_customer 45
                (cents 10000000) (cents 800) 12 _ db' resp
                ltac:(vm_compute; reflexivity) I A)
      as (new & emi & H1 & _ & _ & _ & H2 & H3 & _ & _ & H4 & _).
    assert (E : calculate_emi (cents 10000000) (tier_rate 45 (cents 800)) 12
                = Ok (cents 888488)) by (vm_compute; reflexivity).
    rewrite E in H3. injection H3 as <-.
    exists db', resp, new.
    split; [reflexivity|]. split; [exact H1|].
    split; [exact (H2 eq_refl) | exact (H4 eq_refl)].
  - vm_compute in I. discriminate.
Defined.

(** C10 as stated fails where the calculator does not quantize: at rate 0
    the installment of 100.00 over 3 months is the quotient
    33.33333333333333333333333333, which the response carries, and the row
    keeps 33.33. *)
Lemma stored_rate_is_corrected_counterexample :
  calculate_emi (cents 10000) (cents 0) 3
  = Ok (mk 3333333333333333333333333333 (-26)) /\
  forall backend, exists db',
    create backend a_day 2025 sample_ledger sample_customer (cents 10000) (cents 0) 3
    = Ok (db', mkResponse (Some 1) 1 true "Loan approved successfully"
                          (mk 3333333333333333333333333333 (-26))) /\
    loans db'
    = [mkLoan 1 1 (cents 10000) 3 (cents 0) (cents 3333) 0
              a_day (mkDate 2025 4 30) "active"].
Proof.
  split; [vm_compute; reflexivity|].
  intros [|]; eexists; split; vm_compute; reflexivity.
Qed.

Lemma emi_rounds_half_even_witness :
  exists r, calculate_emi (cents 10000000) (cents 1200) 12 = Ok r /\ expo r = -2.
Proof.
  destruct (emi_rounds_half_even (cents 10000000) (cents 1200) 12
              ltac:(cbn; lia) ltac:(lia)) as (pm & m & f & D12 & D100 & Dpow & H).
  vm_compute in D12. injection D12 as <-.
  vm_compute in D100. injection D100 as <-.
  vm_compute in Dpow. injection Dpow as <-.
  destruct (H ltac:(vm_compute; reflexivity)) as (q & Dq & _ & Hq).
  vm_compute in Dq. injection Dq as <-.
  destruct (Hq ltac:(right; vm_compute; reflexivity)) as (r & Hr & He & _).
  exists r. split; assumption.
Defined.

(** C3 as stated fails on an exact half: 1000.50 at 12% over one month
    gives [m = 0.01], [f = 1.01] and the exact quotient 1010.505, that is
    10105050/100 cents; halves away from zero would give 1010.51, the
    calculator returns 1010.50. *)
Lemma emi_half_away_counterexample :
  Decimal.div (cents 1200) (of_Z 12) = Ok (cents 100) /\
  Decimal.div (cents 100) (of_Z 100) = Ok (mk 1 (-2)) /\
  Decimal.pow (Decimal.add (of_Z 1) (mk 1 (-2))) 1 = Ok (mk 101 (-2)) /\
  Decimal.sub (mk 101 (-2)) (of_Z 1) = mk 1 (-2) /\
  spec_round_half_away (100050 * 1 * 101) (1 * 100) = 101051 /\
  calculate_emi (cents 100050) (cents 1200) 1 = Ok (cents 101050).
Proof. vm_compute. repeat split; reflexivity. Qed.

Lemma emi_monotone_witness :
  Decimal.le (cents 8885) (cents 17770) /\
  Decimal.le (cents 8885) (cents 8932) /\
  Decimal.le (cents 4707) (cents 8885).
Proof.
  split; [|split].
  - apply (proj1 emi_monotone (cents 100000) (cents 200000) (cents 1200) 12).
    + vm_compute. reflexivity.
    + cbn. lia.
    + lia.
    + vm_compute. reflexivity.
    + vm_compute. reflexivity.
  - apply (proj1 (proj2 emi_monotone) (cents 100000) 1200 1300 12).
    + cbn. lia.
    + lia.
    + lia.
    + lia.
    + vm_compute. reflexivity.
    + vm_compute. reflexivity.
  - apply (proj2 (proj2 emi_monotone) (cents 100000) 1200 12 24
             (mk 1269734648531914468903714880 (-27))).
    + cbn. lia.
    + lia.
    + lia.
    + vm_compute. reflexivity.
    + vm_compute. reflexivity.
    + vm_compute. reflexivity.
    + vm_compute. reflexivity.
Defined.

(** C8 as stated fails in the rate and in the tenure.  At rate 0 the
    installment is the unrounded quotient, above the rounded installment of
    the smallest positive rate: 100.00 over 3 months costs 33.33... at 0%
    and 33.33 at 0.01%.  And 1.50 at 12% costs 0.01 over 6678 months and
    0.02 over 6679: the 28-digit quotient falls just below 0.015 for the
    first and on it for the second. *)
Lemma emi_monotone_counterexample :
  (calculate_emi (cents 10000) (cents 0) 3 = Ok (mk 3333333333333333333333333333 (-26)) /\
   calculate_emi (cents 10000) (cents 1) 3 = Ok (cents 3333) /\
   Decimal.ltb (cents 0) (cents 1) = true /\
   Decimal.ltb (cents 3333) (mk 3333333333333333333333333333 (-26)) = true) /\
  (calculate_emi (cents 150) (cents 1200) 6678 = Ok (cents 1) /\
   calculate_emi (cents 150) (cents 1200) 6679 = Ok (cents 2)).
Proof. vm_compute. repeat split; reflexivity. Qed.

End Cases.

(** ** Cases of the other endpoints *)

Section ExtraCases.
Import Decimal.

Lemma registration_limit_nearest_lakh_witness :
  exists db' cu k,
    CustomerRegistrationSerializer.create 3 sample_ledger sample_registration
    = Ok (db', cu) /\
    approved_limit cu = Some (of_Z (k * 100000)) /\
    2 * Z.abs (k * 10 ^ (5 - -2) - 36 * 1250000) <= 10 ^ (5 - -2) /\
    (2 * Z.abs (k * 10 ^ (5 - -2) - 36 * 1250000) = 10 ^ (5 - -2) -> Z.even k = true).
Proof.
  apply (registration_limit_nearest_lakh 3 sample_ledger sample_registration 1250000 (-2)).
  - reflexivity.
  - lia.
  - vm_compute. reflexivity.
Defined.

(** 12500.00 gets 400000, the even multiple; 1000.00 gets 0. *)
Example registration_examples :
  (exists db', CustomerRegistrationSerializer.create 3 sample_ledger sample_registration
     = Ok (db', mkCustomer 3 "Kiran" "Das" "9000000002" (cents 1250000)
                           (Some (of_Z 400000)) (cents 0) 28)) /\
  (exists db', CustomerRegistrationSerializer.create 3 sample_ledger low_registration
     = Ok (db', mkCustomer 3 "Lata" "Sen" "9000000003" (cents 100000)
                           (Some (of_Z 0)) (cents 0) 52)).
Proof. split; eexists; vm_compute; reflexivity. Qed.

Lemma registration_limit_monotone_witness :
  exists l1 l2,
    Some (of_Z 0) = Some l1 /\ Some (of_Z 400000) = Some l2 /\ Decimal.le l1 l2.
Proof.
  apply (registration_limit_monotone 3 3 sample_ledger sample_ledger
           low_registration sample_registration 100000 1250000
           (mkLedger [sample_customer; small_customer;
                      mkCustomer 3 "Lata" "Sen" "9000000003" (cents 100000)
                                 (Some (of_Z 0)) (cents 0) 52] [] 1)
           (mkLedger [sample_customer; small_customer;
                      mkCustomer 3 "Kiran" "Das" "9000000002" (cents 1250000)
                                 (Some (of_Z 400000)) (cents 0) 28] [] 1)
           (mkCustomer 3 "Lata" "Sen" "9000000003" (cents 100000)
                       (Some (of_Z 0)) (cents 0) 52)
           (mkCustomer 3 "Kiran" "Das" "9000000002" (cents 1250000)
                       (Some (of_Z 400000)) (cents 0) 28)).
  - reflexivity.
  - reflexivity.
  - vm_compute. reflexivity.
  - vm_compute. reflexivity.
  - lia.
  - vm_compute. reflexivity.
  - vm_compute. reflexivity.
Defined.

Lemma low_income_is_never_approved_witness :
  Some (of_Z 0) = Some (of_Z 0) /\
  forall (tbl : list Loan) (yr : Z) (amount rate : decimal) (n : Z),
    0 < coef amount ->
    exists r,
      get_eligibility_result
        (mkCustomer 3 "Lata" "Sen" "9000000003" (cents 100000)
                    (Some (of_Z 0)) (cents 0) 52) tbl yr amount rate n = Ok r /\
      approval r = false /\ monthly_installment r = cents 0.
Proof.
  apply (low_income_is_never_approved 3 sample_ledger
           (mkLedger [sample_customer; small_customer;
                      mkCustomer 3 "Lata" "Sen" "9000000003" (cents 100000)
                                 (Some (of_Z 0)) (cents 0) 52] [] 1)
           low_registration
           (mkCustomer 3 "Lata" "Sen" "9000000003" (cents 100000)
                       (Some (of_Z 0)) (cents 0) 52) 100000).
  - reflexivity.
  - cbn. lia.
  - vm_compute. reflexivity.
Defined.

Lemma rate_is_never_corrected_witness :
  cents 800 = cents 800 /\ cents 800 = cents 800 /\
  (true = true -> 57 <= calculate_credit_score sample_customer [] 2025).
Proof.
  apply (rate_is_never_corrected sample_customer [] 2025 (cents 10000000) (cents 800) 12
           (mkResult 1 true (cents 800) (cents 800) 12 (cents 869884))).
  vm_compute. reflexivity.
Defined.

Lemma first_request_is_limit_gate_witness :
  get_eligibility_result sample_customer [] 2025 (cents 10000000) (cents 1200) 12
  = if gtb (cents 10000000) (cents 180000000)
    then Ok (mkResult 1 false (cents 1200) (cents 1200) 12 (cents 0))
    else emi <- calculate_emi (cents 10000000) (cents 1200) 12 ;;
         Ok (mkResult 1 true (cents 1200) (cents 1200) 12 emi).
Proof.
  apply (first_request_is_limit_gate sample_customer [] 2025 (cents 180000000)).
  - reflexivity.
  - reflexivity.
  - vm_compute. reflexivity.
Defined.

End ExtraCases.

Section ExtraViewCases.
Import Decimal.

Example create_loan_example :
  forall backend,
    CreateLoanView.create backend a_day 2025 sample_ledger sample_request
    = Ok (served_ledger, Success 201 served_response).
Proof. intros [|]; vm_compute; reflexivity. Qed.

Lemma create_loan_status_witness :
  (201 = 201 /\ loan_approved served_response = true /\
   resp_loan_id served_response = Some (loan_seq sample_ledger) /\
   loan_seq served_ledger = loan_seq sample_ledger + 1 /\
   exists new, loans served_ledger = loans sample_ledger ++ [new] /\
               loan_id new = loan_seq sample_ledger /\
               customer new = req_customer_id sample_request) \/
  (201 = 200 /\ loan_approved served_response = false /\
   resp_loan_id served_response = None /\ served_ledger = sample_ledger).
Proof.
  apply (create_loan_status PostgreSQL a_day 2025 sample_ledger served_ledger sample_request
           (Success 201 served_response)).
  vm_compute. reflexivity.
Defined.

Lemma endpoints_agree_witness :
  (true = false ->
   CreateLoanView.create PostgreSQL a_day 2025 sample_ledger sample_request
   = Ok (sample_ledger,
         Success 200
           (mkResponse None (req_customer_id sample_request) false
              "Loan not approved based on eligibility criteria" (cents 0)))) /\
  (forall db' resp,
     CreateLoanView.create PostgreSQL a_day 2025 sample_ledger sample_request
     = Ok (db', resp) ->
     (true = true <-> exists data, resp = Success 201 data)).
Proof.
  apply (endpoints_agree PostgreSQL a_day 2025 sample_ledger sample_request
           (mkResult 1 true (cents 1200) (cents 1200) 12 (cents 888488))).
  vm_compute. reflexivity.
Defined.

Lemma end_date_out_of_calendar_witness :
  CreateLoanView.create PostgreSQL a_day 2025 sample_ledger long_request
  = Raise ValueError.
Proof.
  apply (end_date_out_of_calendar PostgreSQL a_day 2025 sample_ledger long_request
           (mkResult 1 true (cents 1200) (cents 1200) 120000 (cents 100000))).
  - vm_compute. reflexivity.
  - reflexivity.
  - cbn. lia.
  - cbn. lia.
  - vm_compute. reflexivity.
  - vm_compute. reflexivity.
Defined.

(** Beyond the C int: 100000.00 at 0% over 30000000000 months. *)
Example end_date_beyond_c_int :
  CheckEligibilityView.post 2025 sample_ledger
    (mkRequest 1 (cents 10000000) (cents 0) 30000000000)
  = Ok (Success 200
          (mkResult 1 true (cents 0) (cents 0) 30000000000
                    (mk 3333333333333333333333333333 (-33)))) /\
  forall backend,
    CreateLoanView.create backend a_day 2025 sample_ledger
      (mkRequest 1 (cents 10000000) (cents 0) 30000000000)
    = Raise OverflowError.
Proof.
  split; [vm_compute; reflexivity|].
  intros [|]; vm_compute; reflexivity.
Qed.

Lemma other_customers_unaffected_witness :
  CheckEligibilityView.post 2026 served_ledger other_request
  = CheckEligibilityView.post 2026 sample_ledger other_request.
Proof.
  apply (other_customers_unaffected PostgreSQL a_day 2025 sample_ledger served_ledger
           sample_request
           (Success 201 served_response)).
  - vm_compute. reflexivity.
  - cbn. lia.
Defined.

Lemma created_loan_is_retrieved_witness :
  exists id detail,
    resp_loan_id served_response = Some id /\
    ViewLoanDetailView.retrieve served_ledger id = Some (Success 200 detail) /\
    ld_loan_id detail = id /\
    to_column PostgreSQL 12 2 (req_loan_amount sample_request)
    = Ok (ld_loan_amount detail) /\
    (expo (req_loan_amount sample_request) = -2 ->
     ld_loan_amount detail = req_loan_amount sample_request) /\
    ld_tenure detail = req_tenure sample_request /\
    to_column PostgreSQL 12 2 (resp_monthly_installment served_response)
    = Ok (ld_monthly_repayment detail) /\
    (expo (resp_monthly_installment served_response) = -2 ->
     ld_monthly_repayment detail = resp_monthly_installment served_response) /\
    cd_customer_id (ld_customer detail) = req_customer_id sample_request /\
    (forall id', id' <> id ->
       find (fun l => loan_id l =? id') (loans served_ledger)
       = find (fun l => loan_id l =? id') (loans sample_ledger)).
Proof.
  apply (created_loan_is_retrieved PostgreSQL a_day 2025 sample_ledger served_ledger
           sample_request served_response).
  - constructor.
  - vm_compute. reflexivity.
Defined.

Lemma created_loan_is_listed_witness :
  (exists item,
     ViewCustomerLoansView.list_loans served_ledger (req_customer_id sample_request)
     = Success 200
         (map CustomerLoanViewSerializer.to_representation
              (ViewCustomerLoansView.get_queryset sample_ledger
                 (req_customer_id sample_request))
          ++ [item]) /\
     Some (li_loan_id item) = resp_loan_id served_response /\
     to_column PostgreSQL 12 2 (req_loan_amount sample_request)
     = Ok (li_loan_amount item) /\
     (expo (req_loan_amount sample_request) = -2 ->
      li_loan_amount item = req_loan_amount sample_request) /\
     to_column PostgreSQL 12 2 (resp_monthly_installment served_response)
     = Ok (li_monthly_repayment item) /\
     (expo (resp_monthly_installment served_response) = -2 ->
      li_monthly_repayment item = resp_monthly_installment served_response) /\
     li_repayments_left item = Z.max 0 (req_tenure sample_request)) /\
  (forall cid, cid <> req_customer_id sample_request ->
     ViewCustomerLoansView.get_queryset served_ledger cid
     = ViewCustomerLoansView.get_queryset sample_ledger cid).
Proof.
  apply (created_loan_is_listed PostgreSQL a_day 2025 sample_ledger served_ledger
           sample_request served_response).
  vm_compute. reflexivity.
Defined.

Lemma served_ledger_referential : referential served_ledger.
Proof. repeat constructor. vm_compute. discriminate. Qed.

Lemma list_loans_not_found_witness :
  ViewCustomerLoansView.list_loans served_ledger 5 = Failure 404.
Proof.
  apply (proj1 (list_loans_not_found served_ledger 5 served_ledger_referential)).
  vm_compute. reflexivity.
Defined.

Lemma registered_customer_is_found_witness :
  exists cu rdata,
    Success 201
      (mkRegistered 3 "Kiran Das" 28 (cents 1250000) (Some (of_Z 400000)) "9000000002")
    = Success 201 rdata /\
    validate (mkLedger [sample_customer; small_customer;
                        mkCustomer 3 "Kiran" "Das" "9000000002" (cents 1250000)
                                   (Some (of_Z 400000)) (cents 0) 28] [] 1) 3
    = Some cu /\
    rr_customer_id rdata = 3 /\
    rr_approved_limit rdata = approved_limit cu /\
    rr_monthly_income rdata = monthly_salary cu /\
    monthly_salary cu = reg_monthly_salary sample_registration /\
    current_debt cu = cents 0 /\
    (forall id, id <> 3 ->
       validate (mkLedger [sample_customer; small_customer;
                           mkCustomer 3 "Kiran" "Das" "9000000002" (cents 1250000)
                                      (Some (of_Z 400000)) (cents 0) 28] [] 1) id
       = validate sample_ledger id) /\
    loans (mkLedger [sample_customer; small_customer;
                     mkCustomer 3 "Kiran" "Das" "9000000002" (cents 1250000)
                                (Some (of_Z 400000)) (cents 0) 28] [] 1)
    = loans sample_ledger.
Proof.
  apply (registered_customer_is_found 3 sample_ledger _ sample_registration).
  - reflexivity.
  - vm_compute. reflexivity.
Defined.

Lemma ledger_stays_well_formed_witness :
  loan_ids_fresh served_ledger /\ referential served_ledger.
Proof.
  apply (proj1 (ledger_stays_well_formed sample_ledger
                  ltac:(constructor) ltac:(constructor))
           PostgreSQL a_day 2025 sample_request served_ledger
           (Success 201 served_response)).
  vm_compute. reflexivity.
Defined.

Lemma emi_tenure_zero_raises_witness :
  calculate_emi (cents 10000000) (cents 1200) 0 = Raise DivisionByZero.
Proof.
  apply (proj2 (emi_tenure_zero_raises (cents 10000000) (cents 1200))).
  - cbn. lia.
  - cbn. lia.
Defined.

Lemma emi_not_negative_witness : 0 <= coef (cents 888488).
Proof.
  apply (emi_not_negative (cents 10000000) (cents 1200) 12).
  - cbn. lia.
  - cbn. lia.
  - lia.
  - vm_compute. reflexivity.
Defined.

Lemma installments_add_up_witness :
  exists stored,
    to_column PostgreSQL 12 2 (resp_monthly_installment served_response) = Ok stored /\
    (expo (resp_monthly_installment served_response) = -2 ->
     stored = resp_monthly_installment served_response) /\
    Exact.val (total_current_emis sample_customer (loans served_ledger))
    = (Exact.val (total_current_emis sample_customer (loans sample_ledger))
       + Exact.val stored)%R.
Proof.
  apply (installments_add_up PostgreSQL a_day 2025 sample_ledger served_ledger
           sample_request served_response sample_customer).
  - reflexivity.
  - vm_compute. reflexivity.
Defined.

Lemma sample_ledger_debts : Forall (debt_is_principal sample_ledger) (customers sample_ledger).
Proof. repeat constructor. Qed.

Lemma debt_tracks_principal_witness :
  Forall (debt_is_principal served_ledger) (customers served_ledger).
Proof.
  apply (debt_tracks_principal PostgreSQL a_day 2025 sample_ledger served_ledger
           sample_request (Success 201 served_response) 10000000).
  - exact sample_ledger_debts.
  - intros cust H. vm_compute in H. injection H as <-. exists 0. split; [reflexivity|].
    vm_compute. reflexivity.
  - reflexivity.
  - vm_compute. reflexivity.
  - vm_compute. reflexivity.
Defined.

End ExtraViewCases.
